(** * ProtonMail MCP server: analytics engine and mailbox session manager

    A shallow embedding of [src/services/analytics-service.ts],
    [src/services/simple-imap-service.ts], the helpers they use from
    [src/utils/helpers.ts] and the tool dispatch of [src/index.ts], together
    with the properties the specification states about them.

    Conventions of the embedding:
    - the text of a message (its body) is a sequence of UTF-16 code units
      ([JsText]), with the white space of the language; the other strings
      (addresses, folder names, identifiers, log lines) are [string]s,
      [length] counts their characters, and their character classes ([\s],
      letter case) are the ASCII ones;
    - a [Date] is its time value, the number of milliseconds since the epoch,
      as a [Z]; only valid dates are represented;
    - a JavaScript [Map] is an insertion-ordered association list ([JsMap]),
      because the code iterates over maps and the order is observable;
    - counters are [nat], other numbers are [Z]; the one quotient that the
      code rounds, the average of messages per day, is computed on binary64
      numbers ([JsNumber]);
    - a call that spreads an array fails beyond the number of arguments the
      engine accepts ([Engine]);
    - the logger has no effect on the state of the services and is left out
      of them. *)

From Stdlib Require Import ZArith Lia Ascii String List Bool.
From Stdlib Require SpecFloat.
From stdpp Require Import base list strings gmap pretty.

Local Open Scope string_scope.
Local Open Scope list_scope.
Local Open Scope Z_scope.

(** ** JavaScript strings *)

Module JsString.

Definition chars (s : string) : list ascii := list_ascii_of_string s.
Definition ofChars (l : list ascii) : string := string_of_list_ascii l.

(** Truthiness of a string: the empty string is the only falsy one. *)
Definition truthy (s : string) : bool :=
  match s with EmptyString => false | String _ _ => true end.

(** [\s] and the characters removed by [trim], on ASCII:
    TAB, LF, VT, FF, CR and SPACE. *)
Definition isWhiteSpace (c : ascii) : bool :=
  let n := nat_of_ascii c in
  ((9 <=? n)%nat && (n <=? 13)%nat) || (n =? 32)%nat.

Definition space : ascii := " "%char.

Fixpoint dropWhiteSpace (l : list ascii) : list ascii :=
  match l with
  | [] => []
  | c :: r => if isWhiteSpace c then dropWhiteSpace r else l
  end.

Definition trimChars (l : list ascii) : list ascii :=
  rev (dropWhiteSpace (rev (dropWhiteSpace l))).

(** [s.trim()] *)
Definition trim (s : string) : string := ofChars (trimChars (chars s)).

(** [s.toLowerCase()] on the ASCII letters. *)
Definition lowerChar (c : ascii) : ascii :=
  let n := nat_of_ascii c in
  if ((65 <=? n)%nat && (n <=? 90)%nat) then ascii_of_nat (n + 32) else c.

Definition toLowerCase (s : string) : string :=
  ofChars (map lowerChar (chars s)).

Fixpoint startsWithChars (p s : list ascii) : bool :=
  match p, s with
  | [], _ => true
  | _ :: _, [] => false
  | a :: p', b :: s' => Ascii.eqb a b && startsWithChars p' s'
  end.

Fixpoint includesChars (p s : list ascii) : bool :=
  startsWithChars p s ||
  match s with
  | [] => false
  | _ :: s' => includesChars p s'
  end.

(** [s.includes(p)] *)
Definition includes (s p : string) : bool := includesChars (chars p) (chars s).

End JsString.

(** ** Text: sequences of UTF-16 code units

    A code unit is a number below 65536.  [length], [substring] and
    [lastIndexOf] count code units, as the language does. *)

Module JsText.

Abbreviation t := (list N) (only parsing).

(** A string of 8-bit characters as text, each character being the code
    unit of its number. *)
Definition ofString (s : string) : t :=
  map (fun c => N_of_ascii c) (list_ascii_of_string s).

Definition truthy (s : t) : bool :=
  match s with [] => false | _ :: _ => true end.

(** [\s], and what [trim] removes: the white space and the line terminators
    of the language.  TAB, LF, VT, FF, CR, SPACE, U+00A0, U+1680, U+2000 to
    U+200A, U+2028, U+2029, U+202F, U+205F, U+3000 and U+FEFF. *)
Definition isWhiteSpace (u : N) : bool :=
  ((9 <=? u) && (u <=? 13) || (u =? 32) || (u =? 160) || (u =? 5760) ||
   (8192 <=? u) && (u <=? 8202) || (u =? 8232) || (u =? 8233) ||
   (u =? 8239) || (u =? 8287) || (u =? 12288) || (u =? 65279))%N.

Definition space : N := 32%N.

(** ['...'] *)
Definition ellipsis : t := [46%N; 46%N; 46%N].

Fixpoint dropWhiteSpace (l : t) : t :=
  match l with
  | [] => []
  | u :: r => if isWhiteSpace u then dropWhiteSpace r else l
  end.

(** [s.trim()] *)
Definition trim (l : t) : t :=
  rev (dropWhiteSpace (rev (dropWhiteSpace l))).

(** [s.replace(/\s+/g, ' ')]: every maximal run of white space becomes one
    space.  [inRun] tells that the previous code unit was white space. *)
Fixpoint collapseFrom (inRun : bool) (l : t) : t :=
  match l with
  | [] => []
  | u :: r =>
      if isWhiteSpace u
      then (if inRun then collapseFrom true r else space :: collapseFrom true r)
      else u :: collapseFrom false r
  end.

Definition collapseWhiteSpace (l : t) : t := collapseFrom false l.

(** [s.lastIndexOf(' ')], with -1 when there is none. *)
Fixpoint lastIndexOfFrom (u : N) (i : Z) (l : t) (found : Z) : Z :=
  match l with
  | [] => found
  | x :: r => lastIndexOfFrom u (i + 1) r (if (x =? u)%N then i else found)
  end.

Definition lastIndexOf (u : N) (l : t) : Z := lastIndexOfFrom u 0 l (-1).

(** [s.substring(0, n)]: a negative [n] counts as 0. *)
Definition substring0 (n : Z) (l : t) : t := take (Z.to_nat n) l.

(** [o || d] for an optional text. *)
Definition orElse (o : option t) (d : t) : t :=
  match o with
  | Some s => if truthy s then s else d
  | None => d
  end.

End JsText.

(** ** Exceptions *)

Record JsError := mkError {
  message : string;
  responseText : option string
}.

(** [new Error(msg)] *)
Definition Error (msg : string) : JsError := mkError msg None.

Inductive Res (A : Type) : Type :=
| Ok (a : A)
| Throw (e : JsError).
Arguments Ok {A} a.
Arguments Throw {A} e.

(** ** Numbers: binary64

    The operations of the language on numbers, as the standard
    specification of binary floating-point arithmetic gives them, with
    rounding to nearest, ties to even. *)

Module JsNumber.

Definition t := SpecFloat.spec_float.

Definition prec : Z := 53.
Definition emax : Z := 1024.

(** The number nearest to an integer. *)
Definition ofZ (z : Z) : t := SpecFloat.binary_normalize prec emax z 0 false.

Definition sub (x y : t) : t := SpecFloat.SFsub prec emax x y.
Definition div (x y : t) : t := SpecFloat.SFdiv prec emax x y.

(** [Math.max(x, y)] *)
Definition max (x y : t) : t :=
  match x, y with
  | SpecFloat.S754_nan, _ | _, SpecFloat.S754_nan => SpecFloat.S754_nan
  | _, _ => if SpecFloat.SFltb x y then y else x
  end.

(** [Math.round(x)] for a finite [x]: the integer nearest to [x], the
    greater one of two that are equally near.  (For a number that is not
    finite the result is not an integer; 0 stands for it.) *)
Definition round (x : t) : Z :=
  match x with
  | SpecFloat.S754_finite s m e =>
      let n := if s then Z.neg m else Z.pos m in
      if 0 <=? e then n * 2 ^ e
      else (2 * n + 2 ^ (- e)) / (2 * 2 ^ (- e))
  | _ => 0
  end.

End JsNumber.

(** ** JavaScript [Map]: an association list in insertion order *)

Module JsMap.
Section Defs.
Context {K V : Type} `{EqDecision K}.

Definition t := list (K * V).

Definition empty : t := [].

Fixpoint get (k : K) (m : t) : option V :=
  match m with
  | [] => None
  | (k', v) :: r => if decide (k = k') then Some v else get k r
  end.

Definition has (k : K) (m : t) : bool :=
  match get k m with Some _ => true | None => false end.

(** [m.set(k, v)]: an existing key keeps its position, a new key goes
    last. *)
Fixpoint set (k : K) (v : V) (m : t) : t :=
  match m with
  | [] => [(k, v)]
  | (k', v') :: r =>
      if decide (k = k') then (k', v) :: r else (k', v') :: set k v r
  end.

Fixpoint delete (k : K) (m : t) : t :=
  match m with
  | [] => []
  | (k', v') :: r =>
      if decide (k = k') then r else (k', v') :: delete k r
  end.

Definition keys (m : t) : list K := map fst m.
Definition values (m : t) : list V := map snd m.
Definition entries (m : t) : list (K * V) := m.
Definition size (m : t) : nat := length m.
End Defs.
Arguments t : clear implicits.
End JsMap.

(** [new Set(l).size]: elements are added in order, an element already
    present is not added again. *)
Module JsSet.
Section Defs.
Context {A : Type} `{EqDecision A}.

Definition add (x : A) (s : list A) : list A :=
  if bool_decide (x ∈ s) then s else s ++ [x].

Definition ofList (l : list A) : list A := fold_left (fun s x => add x s) l [].

Definition size (s : list A) : nat := length s.
End Defs.
End JsSet.


(** ** Helpers ([src/utils/helpers.ts]) *)

(** The capture group of [/<([^>]+)>/] tried right after a ['<']: the
    characters up to the first ['>'], when there is one. *)
Fixpoint upToGt (l : list ascii) : option (list ascii) :=
  match l with
  | [] => None
  | c :: r =>
      if Ascii.eqb c ">"%char then Some []
      else match upToGt r with
           | Some cap => Some (c :: cap)
           | None => None
           end
  end.

(** [s.match(/<([^>]+)>/)]: the leftmost ['<'] that is followed by at least
    one character other than ['>'] and then by a ['>']; the result is the
    capture group. *)
Fixpoint matchAngle (l : list ascii) : option (list ascii) :=
  match l with
  | [] => None
  | c :: r =>
      if Ascii.eqb c "<"%char
      then match upToGt r with
           | Some (x :: cap) => Some (x :: cap)
           | _ => matchAngle r
           end
      else matchAngle r
  end.

Definition extractEmailAddress (emailString : string) : string :=
  match matchAngle (JsString.chars emailString) with
  | Some cap => JsString.ofChars cap
  | None => JsString.trim emailString
  end.

(** [bytesToMB]: [parseFloat((bytes / (1024 * 1024)).toFixed(2))], given in
    hundredths of a megabyte and computed on exact quotients (the rounding of
    the binary floating-point quotient is not modelled). *)
Definition bytesToMB (bytes : Z) : Z :=
  (2 * 100 * bytes + 1024 * 1024) / (2 * (1024 * 1024)).

(** ** Data model ([src/types/index.ts]) *)

Module EmailAttachment.
Record t := mk {
  filename : string;
  contentType : string;
  size : Z;
  content : option string;
  contentId : option string
}.
End EmailAttachment.

(** The fields of [EmailMessage] that the services read or write;
    [bodyPreview] is the extra property the mailbox service adds. *)
Module EmailMessage.
Record t := mk {
  id : string;
  from : string;
  to : list string;
  cc : option (list string);
  subject : string;
  body : JsText.t;
  bodyPreview : option JsText.t;
  isHtml : bool;
  date : Z;
  folder : string;
  isRead : bool;
  isStarred : bool;
  hasAttachment : bool;
  attachments : option (list EmailAttachment.t)
}.

Definition with_folder (f : string) (e : t) : t :=
  mk (id e) (from e) (to e) (cc e) (subject e) (body e) (bodyPreview e)
     (isHtml e) (date e) f (isRead e) (isStarred e) (hasAttachment e)
     (attachments e).

Definition with_isRead (b : bool) (e : t) : t :=
  mk (id e) (from e) (to e) (cc e) (subject e) (body e) (bodyPreview e)
     (isHtml e) (date e) (folder e) b (isStarred e) (hasAttachment e)
     (attachments e).

Definition with_isStarred (b : bool) (e : t) : t :=
  mk (id e) (from e) (to e) (cc e) (subject e) (body e) (bodyPreview e)
     (isHtml e) (date e) (folder e) (isRead e) b (hasAttachment e)
     (attachments e).

Definition with_body_attachments (b : JsText.t)
    (atts : option (list EmailAttachment.t)) (e : t) : t :=
  mk (id e) (from e) (to e) (cc e) (subject e) b (bodyPreview e)
     (isHtml e) (date e) (folder e) (isRead e) (isStarred e) (hasAttachment e)
     atts.
End EmailMessage.

Module EmailFolder.
Record t := mk {
  name : string;
  path : string;
  totalMessages : Z;
  unreadMessages : Z;
  specialUse : option string
}.
End EmailFolder.

Module Contact.
Record t := mk {
  email : string;
  emailsSent : nat;
  emailsReceived : nat;
  lastInteraction : Z;
  firstInteraction : Z
}.
End Contact.

(** [averageEmailsPerDay] is the rounded quotient and [storageUsedMB] is in
    hundredths of a megabyte, see [bytesToMB]. *)
Module EmailStats.
Record t := mk {
  totalEmails : nat;
  unreadEmails : nat;
  starredEmails : nat;
  totalFolders : nat;
  totalContacts : nat;
  averageEmailsPerDay : Z;
  mostActiveContact : string;
  mostUsedFolder : string;
  storageUsedMB : Z
}.
End EmailStats.

Module VolumeTrend.
Record t := mk {
  date : string;
  received : nat;
  sent : nat
}.
End VolumeTrend.

(** ** Dates

    The parts of the ECMAScript [Date] object that the analytics engine
    uses.  The calendar follows the proleptic Gregorian rules of the
    language specification; the host's time zone is a parameter. *)

Module JsDate.

Definition msPerDay : Z := 86400000.

Definition Day (t : Z) : Z := t / msPerDay.
Definition TimeWithinDay (t : Z) : Z := t mod msPerDay.

(** Year, month (1 to 12) and day of the month of a day number. *)
Definition civilFromDays (day : Z) : Z * Z * Z :=
  let z := day + 719468 in
  let era := z / 146097 in
  let doe := z - era * 146097 in
  let yoe := (doe - doe / 1460 + doe / 36524 - doe / 146096) / 365 in
  let y := yoe + era * 400 in
  let doy := doe - (365 * yoe + yoe / 4 - yoe / 100) in
  let mp := (5 * doy + 2) / 153 in
  let d := doy - (153 * mp + 2) / 5 + 1 in
  let m := if mp <? 10 then mp + 3 else mp - 9 in
  (if m <=? 2 then y + 1 else y, m, d).

(** The day number of the given day of a month; [d] may lie outside the
    month, as the argument of [setDate] may. *)
Definition daysFromCivil (y m d : Z) : Z :=
  let y := if m <=? 2 then y - 1 else y in
  let era := y / 400 in
  let yoe := y - era * 400 in
  let doy := (153 * (if 2 <? m then m - 3 else m + 9) + 2) / 5 + d - 1 in
  let doe := yoe * 365 + yoe / 4 - yoe / 100 + doy in
  era * 146097 + doe - 719468.

Definition YearFromTime (t : Z) : Z := fst (fst (civilFromDays (Day t))).
(** Months count from 0, as in the language. *)
Definition MonthFromTime (t : Z) : Z := snd (fst (civilFromDays (Day t))) - 1.
Definition DateFromTime (t : Z) : Z := snd (civilFromDays (Day t)).

Definition MakeDay (year month date : Z) : Z :=
  let ym := year + month / 12 in
  let mn := month mod 12 in
  daysFromCivil ym (mn + 1) 1 + date - 1.

Definition MakeDate (day time : Z) : Z := day * msPerDay + time.

(** The host's time zone: [LocalTime] turns a time value into local time,
    [UTC] turns a local time back into a time value. *)
Record TimeZone := mkTimeZone {
  LocalTime : Z -> Z;
  UTC : Z -> Z
}.

(** [d.getDate()] *)
Definition getDate (tz : TimeZone) (t : Z) : Z :=
  DateFromTime (LocalTime tz t).

(** [d.setDate(dt)], as a function from the old to the new time value. *)
Definition setDate (tz : TimeZone) (t : Z) (dt : Z) : Z :=
  let lt := LocalTime tz t in
  UTC tz (MakeDate (MakeDay (YearFromTime lt) (MonthFromTime lt) dt)
            (TimeWithinDay lt)).

Fixpoint zeros (n : nat) : string :=
  match n with O => "" | S k => String "0"%char (zeros k) end.

(** Decimal digits of [n >= 0], padded with zeros on the left. *)
Definition pad (width : nat) (n : Z) : string :=
  let digits := pretty (Z.to_N n) in
  zeros (width - String.length digits) +:+ digits.

Definition isoYear (y : Z) : string :=
  if (0 <=? y) && (y <=? 9999) then pad 4 y
  else (if y <? 0 then "-" else "+") +:+ pad 6 (Z.abs y).

(** [d.toISOString().split('T')[0]]: the calendar date in UTC. *)
Definition toISODate (t : Z) : string :=
  let '(y, m, d) := civilFromDays (Day t) in
  isoYear y +:+ "-" +:+ pad 2 m +:+ "-" +:+ pad 2 d.

(** A time zone with a fixed offset from UTC, in milliseconds. *)
Definition fixedOffset (offset : Z) : TimeZone :=
  mkTimeZone (fun t => t + offset) (fun t => t - offset).

(** Central European time around the change to summer time of 2025: one
    hour ahead of UTC before 2025-03-30T01:00:00Z, two hours from then on.
    A local time in the hour that is skipped is read with the offset in
    force before the change. *)
Definition cestStart2025 : Z := 1743296400000.

Definition europeBerlin2025 : TimeZone :=
  mkTimeZone
    (fun t => if t <? cestStart2025 then t + 3600000 else t + 7200000)
    (fun lt => if lt <? cestStart2025 + 7200000 then lt - 3600000
               else lt - 7200000).

End JsDate.

(** ** Analytics engine ([src/services/analytics-service.ts]) *)

Module Analytics.

Inductive InteractionType := sent | received.

(** Of the analytics cache only the slot matters to the operations below;
    its content is the list of volume trends. *)
Record AnalyticsService := mkService {
  emails : list EmailMessage.t;
  contacts : JsMap.t string Contact.t;
  statsCache : option EmailStats.t;
  analyticsCache : option (list VolumeTrend.t);
  lastCacheUpdate : option Z
}.

Definition cacheValidityMs : Z := 5 * 60 * 1000.

(** [new AnalyticsService()] *)
Definition init : AnalyticsService := mkService [] JsMap.empty None None None.

Definition invalidateCache (s : AnalyticsService) : AnalyticsService :=
  mkService (emails s) (contacts s) None None None.

Definition isCacheValid (now : Z) (s : AnalyticsService) : bool :=
  match lastCacheUpdate s with
  | None => false
  | Some t => (now - t) <? cacheValidityMs
  end.

Definition updateContact (email : string) (type : InteractionType) (date : Z)
    (cs : JsMap.t string Contact.t) : JsMap.t string Contact.t :=
  let contact :=
    match JsMap.get email cs with
    | Some c => c
    | None => Contact.mk email 0 0 date date
    end in
  let contact :=
    match type with
    | sent =>
        Contact.mk (Contact.email contact) (S (Contact.emailsSent contact))
          (Contact.emailsReceived contact) (Contact.lastInteraction contact)
          (Contact.firstInteraction contact)
    | received =>
        Contact.mk (Contact.email contact) (Contact.emailsSent contact)
          (S (Contact.emailsReceived contact)) (Contact.lastInteraction contact)
          (Contact.firstInteraction contact)
    end in
  let contact :=
    if date >? Contact.lastInteraction contact
    then Contact.mk (Contact.email contact) (Contact.emailsSent contact)
           (Contact.emailsReceived contact) date (Contact.firstInteraction contact)
    else contact in
  let contact :=
    if date <? Contact.firstInteraction contact
    then Contact.mk (Contact.email contact) (Contact.emailsSent contact)
           (Contact.emailsReceived contact) (Contact.lastInteraction contact) date
    else contact in
  JsMap.set email contact cs.

(** The body of the loop of [processContacts] for one message. *)
Definition processEmail (cs : JsMap.t string Contact.t) (email : EmailMessage.t)
    : JsMap.t string Contact.t :=
  let fromAddress := extractEmailAddress (EmailMessage.from email) in
  let cs :=
    if JsString.truthy fromAddress
    then updateContact fromAddress received (EmailMessage.date email) cs
    else cs in
  fold_left
    (fun cs to =>
       let toAddress := extractEmailAddress to in
       if JsString.truthy toAddress
       then updateContact toAddress sent (EmailMessage.date email) cs
       else cs)
    (EmailMessage.to email) cs.

Definition processContacts (s : AnalyticsService) : AnalyticsService :=
  mkService (emails s) (fold_left processEmail (emails s) JsMap.empty)
    (statsCache s) (analyticsCache s) (lastCacheUpdate s).

Definition updateEmails (es : list EmailMessage.t) (s : AnalyticsService)
    : AnalyticsService :=
  let s := mkService es (contacts s) (statsCache s) (analyticsCache s)
             (lastCacheUpdate s) in
  processContacts (invalidateCache s).

(** The engine that runs the code.  A call [f(...l)] passes one argument for
    each element of [l], and an engine accepts only so many arguments in one
    call. *)
Record Engine := mkEngine {
  maxArguments : N
}.

(** The snapshot has no more messages than the engine accepts arguments. *)
Definition fits (engine : Engine) (es : list EmailMessage.t) : Prop :=
  (N.of_nat (length es) <= maxArguments engine)%N.

(** The [RangeError] of a call with more arguments than the engine accepts
    (the message is the one of V8). *)
Definition rangeError : JsError :=
  mkError "Maximum call stack size exceeded" None.

(** [f(...l)] *)
Definition spread {A : Type} (engine : Engine) (f : list Z -> A) (l : list Z)
    : Res A :=
  if (maxArguments engine <? N.of_nat (length l))%N then Throw rangeError
  else Ok (f l).

(** [Math.min(...l)] and [Math.max(...l)] for a list that is not empty. *)
Definition minOf (engine : Engine) (l : list Z) : Res Z :=
  spread engine
    (fun l => match l with [] => 0 | x :: r => fold_left Z.min r x end) l.

Definition maxOf (engine : Engine) (l : list Z) : Res Z :=
  spread engine
    (fun l => match l with [] => 0 | x :: r => fold_left Z.max r x end) l.

Definition msPerDay : Z := 1000 * 60 * 60 * 24.

(** The average of messages per day, for a snapshot that is not empty:
    [Math.round(totalEmails / Math.max(1, (newest - oldest) / msPerDay))]
    after [oldest = Math.min(...dates)] and [newest = Math.max(...dates)]. *)
Definition averagePerDay (engine : Engine) (total : nat) (dates : list Z)
    : Res Z :=
  match minOf engine dates with
  | Throw e => Throw e
  | Ok oldestDate =>
      match maxOf engine dates with
      | Throw e => Throw e
      | Ok newestDate =>
          let daysDiff :=
            JsNumber.max (JsNumber.ofZ 1)
              (JsNumber.div
                 (JsNumber.sub (JsNumber.ofZ newestDate)
                    (JsNumber.ofZ oldestDate))
                 (JsNumber.ofZ msPerDay)) in
          Ok (JsNumber.round
                (JsNumber.div (JsNumber.ofZ (Z.of_nat total)) daysDiff))
      end
  end.

(** The loop that keeps the entry with the strictly greatest count, in the
    iteration order of the map. *)
Definition argMax {A : Type} (count : A -> nat) (entries : list (string * A))
    (default : string) : string :=
  fst (fold_left
         (fun '(best, maxCount) '(k, v) =>
            if (maxCount <? count v)%nat then (k, count v) else (best, maxCount))
         entries (default, 0%nat)).

Definition folderCounts (es : list EmailMessage.t) : JsMap.t string nat :=
  fold_left
    (fun counts email =>
       let f := EmailMessage.folder email in
       JsMap.set f (default 0%nat (JsMap.get f counts) + 1)%nat counts)
    es JsMap.empty.

Definition emailBytes (email : EmailMessage.t) : Z :=
  Z.of_nat (length (EmailMessage.body email)) +
  match EmailMessage.attachments email with
  | Some atts => fold_left (fun acc att => acc + EmailAttachment.size att) atts 0
  | None => 0
  end.

(** The statistics record of [getEmailStats], once the average of messages
    per day is known. *)
Definition statsWith (averageEmailsPerDay : Z) (s : AnalyticsService)
    : EmailStats.t :=
  let es := emails s in
  let totalEmails := length es in
  let unreadEmails :=
    length (List.filter (fun e => negb (EmailMessage.isRead e)) es) in
  let starredEmails :=
    length (List.filter (fun e => EmailMessage.isStarred e) es) in
  let folders := JsSet.ofList (map EmailMessage.folder es) in
  let totalFolders := JsSet.size folders in
  let mostActiveContact :=
    argMax (fun c => (Contact.emailsSent c + Contact.emailsReceived c)%nat)
      (JsMap.entries (contacts s)) "N/A" in
  let mostUsedFolder :=
    argMax (fun n => n) (JsMap.entries (folderCounts es)) "INBOX" in
  let totalBytes := fold_left (fun acc e => acc + emailBytes e) es 0 in
  EmailStats.mk totalEmails unreadEmails starredEmails totalFolders
    (JsMap.size (contacts s)) averageEmailsPerDay mostActiveContact
    mostUsedFolder (bytesToMB totalBytes).

(** The computation of [getEmailStats] past its cache.  The only step that
    can throw is the average, which spreads the dates of the messages. *)
Definition computeStats (engine : Engine) (s : AnalyticsService)
    : Res EmailStats.t :=
  let es := emails s in
  match
    (if (0 <? length es)%nat
     then averagePerDay engine (length es) (map EmailMessage.date es)
     else Ok 0)
  with
  | Throw e => Throw e
  | Ok averageEmailsPerDay => Ok (statsWith averageEmailsPerDay s)
  end.

(** [getEmailStats()]; [now] is the value of [new Date()].  When the
    computation throws, the caches are as they were. *)
Definition getEmailStats (engine : Engine) (now : Z) (s : AnalyticsService)
    : Res EmailStats.t * AnalyticsService :=
  let recompute :=
    match computeStats engine s with
    | Ok stats =>
        (Ok stats,
         mkService (emails s) (contacts s) (Some stats) (analyticsCache s)
           (Some now))
    | Throw e => (Throw e, s)
    end in
  match statsCache s with
  | Some cached => if isCacheValid now s then (Ok cached, s) else recompute
  | None => recompute
  end.

Definition clearCache (s : AnalyticsService) : AnalyticsService :=
  invalidateCache s.

Definition clearAll (s : AnalyticsService) : AnalyticsService :=
  invalidateCache (mkService [] JsMap.empty (statsCache s) (analyticsCache s)
                     (lastCacheUpdate s)).

(** Stable insertion sort, standing for [Array.prototype.sort] with a
    comparator; [le a b] tells that the comparator does not put [b] before
    [a]. *)
Fixpoint insertSorted {A : Type} (le : A -> A -> bool) (x : A) (l : list A)
    : list A :=
  match l with
  | [] => [x]
  | y :: r => if le x y then x :: l else y :: insertSorted le x r
  end.

Definition sortBy {A : Type} (le : A -> A -> bool) (l : list A) : list A :=
  foldr (insertSorted le) [] l.

(** [a.localeCompare(b) <= 0], taken as the comparison of the code units;
    on the dates of the years 0 to 9999 that [toISODate] yields, which have
    one length and differ in digits only, a locale orders the same way. *)
Definition localeLe (a b : string) : bool := String.leb a b.

(** [calculateVolumeTrends(days)]; [tz] is the host's time zone, [now] the
    value of [new Date()], and the loop runs for [i = 0, 1, ...] while
    [i < days]. *)
Definition calculateVolumeTrends (tz : JsDate.TimeZone) (now : Z) (days : Z)
    (s : AnalyticsService) : list VolumeTrend.t :=
  let trends : JsMap.t string (nat * nat) :=
    fold_left
      (fun trends i =>
         let date := JsDate.setDate tz now (JsDate.getDate tz now - Z.of_nat i) in
         let dateStr := JsDate.toISODate date in
         JsMap.set dateStr (0%nat, 0%nat) trends)
      (seq 0 (Z.to_nat days)) JsMap.empty in
  let trends :=
    fold_left
      (fun trends email =>
         let dateStr := JsDate.toISODate (EmailMessage.date email) in
         match JsMap.get dateStr trends with
         | Some (nReceived, nSent) => JsMap.set dateStr (S nReceived, nSent) trends
         | None => trends
         end)
      (emails s) trends in
  sortBy (fun a b => localeLe (VolumeTrend.date a) (VolumeTrend.date b))
    (map (fun '(date, (nReceived, nSent)) => VolumeTrend.mk date nReceived nSent)
       (JsMap.entries trends)).

Definition getVolumeTrends (tz : JsDate.TimeZone) (now : Z) (days : Z)
    (s : AnalyticsService) : list VolumeTrend.t :=
  calculateVolumeTrends tz now days s.

End Analytics.

(** ** Mailbox session manager ([src/services/simple-imap-service.ts]) *)

(** The white-space-normalized form of a body:
    [body.replace(/\s+/g, ' ').trim()]. *)
Definition normalizedBody (body : JsText.t) : JsText.t :=
  JsText.trim (JsText.collapseWhiteSpace body).

(** [truncateBody(body, maxLength)].  The test [lastSpace > maxLength * 0.8]
    is written on integers; for the default of 300, the only length the
    service uses, the product is the number 240 exactly. *)
Definition truncateBodyTo (maxLength : Z) (body : JsText.t) : JsText.t :=
  if negb (JsText.truthy body) then []
  else
    let cleaned := normalizedBody body in
    if Z.of_nat (length cleaned) <=? maxLength then cleaned
    else
      let truncated := JsText.substring0 maxLength cleaned in
      let lastSpace := JsText.lastIndexOf JsText.space truncated in
      if 4 * maxLength <? 5 * lastSpace
      then JsText.substring0 lastSpace truncated ++ JsText.ellipsis
      else truncated ++ JsText.ellipsis.

Definition truncateBody (body : JsText.t) : JsText.t := truncateBodyTo 300 body.

(** *** Values exchanged with the mailbox-protocol library *)

Module Attachment.
Record t := mk {
  filename : option string;
  contentType : string;
  size : Z;
  content : string;
  cid : option string
}.
End Attachment.

(** [ParsedMail] of the mail parser; [from], [to] and [cc] hold the [text]
    of the address object when there is one, [html] is [None] for [false]
    and for a missing field. *)
Module ParsedMail.
Record t := mk {
  from : option string;
  to : option string;
  cc : option string;
  subject : option string;
  text : option JsText.t;
  html : option JsText.t;
  date : option Z;
  attachments : option (list Attachment.t)
}.
End ParsedMail.

Module FetchItem.
Record t := mk {
  uid : N;
  flags : option (list string);
  source : option string
}.
End FetchItem.

Module ListEntry.
Record t := mk {
  name : string;
  path : string;
  specialUse : option string
}.
End ListEntry.

Module StatusInfo.
Record t := mk {
  messages : option Z;
  unseen : option Z
}.
End StatusInfo.

(** The argument of [client.fetch]: the sequence range [start:end], or the
    identifier that is fetched with [{ uid: true }]. *)
Inductive FetchRange :=
| SeqRange (start stop : Z)
| ByUid (emailId : string).

Module SearchEmailOptions.
Record t := mk {
  folder : option string;
  from : option string;
  to : option string;
  subject : option string;
  isRead : option bool;
  isStarred : option bool;
  dateFrom : option string;
  dateTo : option string;
  limit : option Z
}.

Definition with_isStarred (v : option bool) (o : t) : t :=
  mk (folder o) (from o) (to o) (subject o) (isRead o) v (dateFrom o)
     (dateTo o) (limit o).

Definition with_isRead (v : option bool) (o : t) : t :=
  mk (folder o) (from o) (to o) (subject o) v (isStarred o) (dateFrom o)
     (dateTo o) (limit o).
End SearchEmailOptions.

(** The options that [searchEmails] reads are the fields above; the search
    object handed to [client.search] follows.  A property that is not set
    is [None], and [since] and [before] hold the string given to
    [new Date]. *)
Module SearchCriteria.
Record t := mk {
  from : option string;
  to : option string;
  subject : option string;
  since : option string;
  before : option string;
  seen : option bool;
  unseen : option bool;
  flagged : option bool
}.
End SearchCriteria.

Definition truthyOpt (o : option string) : option string :=
  match o with
  | Some s => if JsString.truthy s then Some s else None
  | None => None
  end.

(** The construction of [searchCriteria] in [searchEmails]. *)
Definition buildSearchCriteria (options : SearchEmailOptions.t)
    : SearchCriteria.t :=
  let seen :=
    match SearchEmailOptions.isRead options with
    | Some true => Some true
    | _ => None
    end in
  let unseen :=
    match SearchEmailOptions.isRead options with
    | Some false => Some true
    | _ => None
    end in
  let flagged :=
    match SearchEmailOptions.isStarred options with
    | Some true => Some true
    | _ => None
    end in
  SearchCriteria.mk
    (truthyOpt (SearchEmailOptions.from options))
    (truthyOpt (SearchEmailOptions.to options))
    (truthyOpt (SearchEmailOptions.subject options))
    (truthyOpt (SearchEmailOptions.dateFrom options))
    (truthyOpt (SearchEmailOptions.dateTo options))
    seen unseen flagged.

Record ConnectionConfig := mkConfig {
  host : string;
  port : Z;
  username : option string;
  password : option string
}.

(** The calls made to the mailbox-protocol client, in the order they are
    issued. *)
Inductive Call :=
| CallConnect (config : ConnectionConfig)
| CallLogout
| CallList
| CallStatus (path : string)
| CallGetMailboxLock (path : string)
| CallRelease (path : string)
| CallFetch (range : FetchRange)
| CallSearch (criteria : SearchCriteria.t)
| CallMessageFlagsAdd (emailId flag : string)
| CallMessageFlagsRemove (emailId flag : string)
| CallMessageMove (emailId targetFolder : string)
| CallMessageDelete (emailId : string)
| CallMailboxCreate (folderName : string)
| CallMailboxDelete (folderName : string)
| CallMailboxRename (oldName newName : string).

(** The mailbox-protocol library as the service sees it: a remote state [P]
    and the answer of each call.  [fetch] yields the messages of its
    generator and the error that ends it, when it ends with one;
    [mailboxExists] is [client.mailbox.exists], [None] when no mailbox is
    open. *)
Record ImapFlow (P : Type) := mkImapFlow {
  imap_connect : ConnectionConfig -> P -> Res () * P;
  imap_logout : P -> Res () * P;
  imap_list : P -> Res (list ListEntry.t) * P;
  imap_status : string -> P -> Res StatusInfo.t * P;
  imap_getMailboxLock : string -> P -> Res () * P;
  imap_release : string -> P -> P;
  imap_mailboxExists : P -> option Z;
  imap_fetch : FetchRange -> P -> (list FetchItem.t * option JsError) * P;
  imap_search : SearchCriteria.t -> P -> Res (option (list N)) * P;
  imap_messageFlagsAdd : string -> string -> P -> Res () * P;
  imap_messageFlagsRemove : string -> string -> P -> Res () * P;
  imap_messageMove : string -> string -> P -> Res () * P;
  imap_messageDelete : string -> P -> Res () * P;
  imap_mailboxCreate : string -> P -> Res () * P;
  imap_mailboxDelete : string -> P -> Res () * P;
  imap_mailboxRename : string -> string -> P -> Res () * P;
  simpleParser : string -> Res ParsedMail.t
}.
Arguments imap_connect {P}.
Arguments imap_logout {P}.
Arguments imap_list {P}.
Arguments imap_status {P}.
Arguments imap_getMailboxLock {P}.
Arguments imap_release {P}.
Arguments imap_mailboxExists {P}.
Arguments imap_fetch {P}.
Arguments imap_search {P}.
Arguments imap_messageFlagsAdd {P}.
Arguments imap_messageFlagsRemove {P}.
Arguments imap_messageMove {P}.
Arguments imap_messageDelete {P}.
Arguments imap_mailboxCreate {P}.
Arguments imap_mailboxDelete {P}.
Arguments imap_mailboxRename {P}.
Arguments simpleParser {P}.

Module BulkResult.
Record t := mk {
  success : nat;
  failed : nat;
  errors : list string
}.
End BulkResult.

Module SimpleIMAPService.
Section Service.
Context {P : Type} (io : ImapFlow P).

(** The fields of the service object, the remote state behind the client,
    the log of the calls made to the client, and the clock that [new Date()]
    reads.  [client] tells whether the field holds a client object. *)
Record World := mkWorld {
  client : bool;
  isConnected : bool;
  emailCache : JsMap.t string EmailMessage.t;
  folderCache : JsMap.t string EmailFolder.t;
  connectionConfig : option ConnectionConfig;
  remote : P;
  calls : list Call;
  clock : Z
}.

(** [new SimpleIMAPService()] in front of a given remote state. *)
Definition init (p : P) (now : Z) : World :=
  mkWorld false false JsMap.empty JsMap.empty None p [] now.

Definition set_client (b : bool) (w : World) : World :=
  mkWorld b (isConnected w) (emailCache w) (folderCache w)
    (connectionConfig w) (remote w) (calls w) (clock w).

Definition set_isConnected (b : bool) (w : World) : World :=
  mkWorld (client w) b (emailCache w) (folderCache w)
    (connectionConfig w) (remote w) (calls w) (clock w).

Definition set_emailCache (c : JsMap.t string EmailMessage.t) (w : World)
    : World :=
  mkWorld (client w) (isConnected w) c (folderCache w)
    (connectionConfig w) (remote w) (calls w) (clock w).

Definition set_folderCache (c : JsMap.t string EmailFolder.t) (w : World)
    : World :=
  mkWorld (client w) (isConnected w) (emailCache w) c
    (connectionConfig w) (remote w) (calls w) (clock w).

Definition set_connectionConfig (c : option ConnectionConfig) (w : World)
    : World :=
  mkWorld (client w) (isConnected w) (emailCache w) (folderCache w)
    c (remote w) (calls w) (clock w).

(** *** Computations: state passing with exceptions *)

Definition M (A : Type) : Type := World -> Res A * World.

Definition ret {A : Type} (a : A) : M A := fun w => (Ok a, w).

Definition throw {A : Type} (e : JsError) : M A := fun w => (Throw e, w).

Definition bind {A B : Type} (m : M A) (k : A -> M B) : M B :=
  fun w =>
    match m w with
    | (Ok a, w') => k a w'
    | (Throw e, w') => (Throw e, w')
    end.

Notation "x <- m ;; k" := (bind m (fun x => k))
  (at level 100, m at next level, right associativity).
Notation "m ;;; k" := (bind m (fun _ => k))
  (at level 100, right associativity).

Definition gets {A : Type} (f : World -> A) : M A := fun w => (Ok (f w), w).

Definition modify (f : World -> World) : M () := fun w => (Ok (), f w).

(** [try { m } catch (error) { h error }] *)
Definition tryCatch {A : Type} (m : M A) (h : JsError -> M A) : M A :=
  fun w =>
    match m w with
    | (Ok a, w') => (Ok a, w')
    | (Throw e, w') => h e w'
    end.

(** [try { m } finally { f }], for an [f] that changes the state only. *)
Definition finally {A : Type} (m : M A) (f : World -> World) : M A :=
  fun w => let '(r, w') := m w in (r, f w').

(** A call to the client: it is logged, and the remote state moves on. *)
Definition call {A : Type} (c : Call) (op : P -> Res A * P) : M A :=
  fun w =>
    let '(r, p) := op (remote w) in
    (r, mkWorld (client w) (isConnected w) (emailCache w) (folderCache w)
          (connectionConfig w) p (calls w ++ [c]) (clock w)).

(** [lock.release()] *)
Definition release (path : string) (w : World) : World :=
  mkWorld (client w) (isConnected w) (emailCache w) (folderCache w)
    (connectionConfig w) (imap_release io path (remote w))
    (calls w ++ [CallRelease path]) (clock w).

(** A [for ... of] loop that threads an accumulator. *)
Fixpoint forEach {A S : Type} (body : S -> A -> M S) (l : list A) (s : S)
    : M S :=
  match l with
  | [] => ret s
  | x :: r => s' <- body s x ;; forEach body r s'
  end.

(** *** Connection *)

Definition connect (config : ConnectionConfig) : M () :=
  tryCatch
    (modify (set_connectionConfig (Some config)) ;;;
     modify (set_client true) ;;;
     call (CallConnect config) (imap_connect io config) ;;;
     modify (set_isConnected true))
    (fun error => modify (set_isConnected false) ;;; throw error).

Definition disconnect : M () :=
  w <- gets (fun w => w) ;;
  if client w && isConnected w
  then call CallLogout (imap_logout io) ;;;
       modify (set_client false) ;;;
       modify (set_isConnected false)
  else ret ().

Definition reconnect : M () :=
  cfg <- gets connectionConfig ;;
  match cfg with
  | None => throw (Error "Cannot reconnect: no connection config stored")
  | Some config => connect config
  end.

Definition ensureConnection : M () :=
  w <- gets (fun w => w) ;;
  if negb (isConnected w) || negb (client w) then reconnect else ret ().

Definition isActive (w : World) : bool := isConnected w && client w.

(** The handlers of the ['close'] and ['error'] events of the client. *)
Definition onClose (w : World) : World := set_isConnected false w.

(** *** Reading *)

Definition cacheFolder (f : EmailFolder.t) (w : World) : World :=
  set_folderCache (JsMap.set (EmailFolder.path f) f (folderCache w)) w.

Definition getFolders : M (list EmailFolder.t) :=
  connected <- tryCatch (ensureConnection ;;; ret true) (fun _ => ret false) ;;
  if negb connected then gets (fun w => JsMap.values (folderCache w))
  else
    hasClient <- gets client ;;
    if negb hasClient then gets (fun w => JsMap.values (folderCache w))
    else
      folders <- call CallList (imap_list io) ;;
      forEach
        (fun result folder =>
           status <- call (CallStatus (ListEntry.path folder))
                       (imap_status io (ListEntry.path folder)) ;;
           let emailFolder :=
             EmailFolder.mk (ListEntry.name folder) (ListEntry.path folder)
               (default 0 (StatusInfo.messages status))
               (default 0 (StatusInfo.unseen status))
               (ListEntry.specialUse folder) in
           modify (cacheFolder emailFolder) ;;;
           ret (result ++ [emailFolder]))
        folders [].

(** [o || d] for an optional string. *)
Definition orElse (o : option string) (d : string) : string :=
  default d (truthyOpt o).

Definition hasFlag (flag : string) (flags : option (list string)) : bool :=
  match flags with
  | Some l => bool_decide (flag ∈ l)
  | None => false
  end.

Definition toEmailAttachment (att : Attachment.t) : EmailAttachment.t :=
  EmailAttachment.mk (orElse (Attachment.filename att) "unnamed")
    (Attachment.contentType att) (Attachment.size att)
    (Some (Attachment.content att)) (Attachment.cid att).

(** The attachment without its content, as the list views carry it. *)
Definition stripContent (att : EmailAttachment.t) : EmailAttachment.t :=
  EmailAttachment.mk (EmailAttachment.filename att)
    (EmailAttachment.contentType att) (EmailAttachment.size att) None
    (EmailAttachment.contentId att).

Definition fullBodyOf (parsed : ParsedMail.t) : JsText.t :=
  JsText.orElse (ParsedMail.text parsed)
    (JsText.orElse (ParsedMail.html parsed) []).

(** The message object built from a fetched message and its parsed
    source, in [getEmails] and in [getEmailById]. *)
Definition toEmailMessage (folder : string) (now : Z) (message : FetchItem.t)
    (parsed : ParsedMail.t) : EmailMessage.t :=
  let fullBody := fullBodyOf parsed in
  EmailMessage.mk
    (pretty (FetchItem.uid message))
    (orElse (ParsedMail.from parsed) "")
    (match truthyOpt (ParsedMail.to parsed) with Some t => [t] | None => [] end)
    (Some (match truthyOpt (ParsedMail.cc parsed) with
           | Some t => [t] | None => [] end))
    (orElse (ParsedMail.subject parsed) "(No Subject)")
    fullBody
    (Some (truncateBody fullBody))
    (match ParsedMail.html parsed with
     | Some html => JsText.truthy html
     | None => false
     end)
    (default now (ParsedMail.date parsed))
    folder
    (hasFlag "\Seen" (FetchItem.flags message))
    (hasFlag "\Flagged" (FetchItem.flags message))
    (match ParsedMail.attachments parsed with
     | Some atts => (0 <? length atts)%nat
     | None => false
     end)
    (option_map (map toEmailAttachment) (ParsedMail.attachments parsed)).

(** The view returned in lists: truncated body, attachments without
    content. *)
Definition listView (e : EmailMessage.t) : EmailMessage.t :=
  EmailMessage.with_body_attachments (truncateBody (EmailMessage.body e))
    (option_map (map stripContent) (EmailMessage.attachments e)) e.

Definition cacheEmail (e : EmailMessage.t) (w : World) : World :=
  set_emailCache (JsMap.set (EmailMessage.id e) e (emailCache w)) w.

(** The client's [fetch]: the messages its generator yields, and the error
    it ends with when it does. *)
Definition fetch (range : FetchRange)
    : M (list FetchItem.t * option JsError) :=
  call (CallFetch range)
    (fun p => let '(r, p') := imap_fetch io range p in (Ok r, p')).

(** The body of the loop of [getEmails] over the fetched messages; a
    message without source is skipped, and so is one that fails to
    parse. *)
Definition collectEmail (folder : string) (messages : list EmailMessage.t)
    (message : FetchItem.t) : M (list EmailMessage.t) :=
  match FetchItem.source message with
  | None => ret messages
  | Some source =>
      match simpleParser io source with
      | Throw _ => ret messages
      | Ok parsed =>
          now <- gets clock ;;
          let cachedEmail := toEmailMessage folder now message parsed in
          modify (cacheEmail cachedEmail) ;;;
          ret (messages ++ [listView cachedEmail])
      end
  end.

Definition getEmails (folder : string) (limit offset : Z)
    : M (list EmailMessage.t) :=
  connected <- tryCatch (ensureConnection ;;; ret true) (fun _ => ret false) ;;
  if negb connected then ret []
  else
    hasClient <- gets client ;;
    if negb hasClient then ret []
    else
      call (CallGetMailboxLock folder) (imap_getMailboxLock io folder) ;;;
      finally
        (total <- gets (fun w => default 0 (imap_mailboxExists io (remote w))) ;;
         let start := Z.max 1 (total - offset - limit + 1) in
         let stop := Z.max 1 (total - offset) in
         if (stop <? start) || (total =? 0) then ret []
         else
           fetched <- fetch (SeqRange start stop) ;;
           messages <- forEach (collectEmail folder) (fst fetched) [] ;;
           match snd fetched with
           | Some error => throw error
           | None => ret (rev messages)
           end)
        (release folder).

(** The loop of [getEmailById] over the messages fetched in one folder: the
    first message with a source is cached and returned. *)
Fixpoint firstFetched (folder : string) (items : list FetchItem.t)
    (ending : option JsError) : M (option EmailMessage.t) :=
  match items with
  | [] => match ending with Some error => throw error | None => ret None end
  | message :: rest =>
      match FetchItem.source message with
      | None => firstFetched folder rest ending
      | Some source =>
          match simpleParser io source with
          | Throw error => throw error
          | Ok parsed =>
              now <- gets clock ;;
              let emailMessage := toEmailMessage folder now message parsed in
              modify (cacheEmail emailMessage) ;;;
              ret (Some emailMessage)
          end
      end
  end.

(** The loop of [getEmailById] over the folders. *)
Fixpoint searchFolders (emailId : string) (folders : list EmailFolder.t)
    : M (option EmailMessage.t) :=
  match folders with
  | [] => ret None
  | folder :: rest =>
      let path := EmailFolder.path folder in
      call (CallGetMailboxLock path) (imap_getMailboxLock io path) ;;;
      found <- finally
                 (fetched <- fetch (ByUid emailId) ;;
                  firstFetched path (fst fetched) (snd fetched))
                 (release path) ;;
      match found with
      | Some emailMessage => ret (Some emailMessage)
      | None => searchFolders emailId rest
      end
  end.

Definition getEmailById (emailId : string) : M (option EmailMessage.t) :=
  w <- gets (fun w => w) ;;
  match JsMap.get emailId (emailCache w) with
  | Some cached => ret (Some cached)
  | None =>
      if negb (client w) || negb (isConnected w) then ret None
      else
        folders <- getFolders ;;
        searchFolders emailId folders
  end.

(** [uids.slice(0, limit)] *)
Definition slice0 {A : Type} (limit : Z) (l : list A) : list A :=
  if 0 <=? limit then take (Z.to_nat limit) l
  else take (Z.to_nat (Z.of_nat (length l) + limit)) l.

Definition searchEmails (options : SearchEmailOptions.t)
    : M (list EmailMessage.t) :=
  connected <- tryCatch (ensureConnection ;;; ret true) (fun _ => ret false) ;;
  if negb connected then ret []
  else
    hasClient <- gets client ;;
    if negb hasClient then ret []
    else
      let folder := orElse (SearchEmailOptions.folder options) "INBOX" in
      let limit :=
        match SearchEmailOptions.limit options with
        | Some l => if l =? 0 then 100 else l
        | None => 100
        end in
      call (CallGetMailboxLock folder) (imap_getMailboxLock io folder) ;;;
      finally
        (let searchCriteria := buildSearchCriteria options in
         uids <- call (CallSearch searchCriteria)
                   (imap_search io searchCriteria) ;;
         let limitedUids :=
           match uids with Some l => slice0 limit l | None => [] end in
         forEach
           (fun results uid =>
              email <- getEmailById (pretty uid) ;;
              match email with
              | Some e => ret (results ++ [listView e])
              | None => ret results
              end)
           limitedUids [])
        (release folder).

(** *** Mutations *)

Definition notConnected (w : World) : bool :=
  negb (client w) || negb (isConnected w).

Definition notFound (emailId : string) : JsError :=
  Error ("Email " +:+ emailId +:+ " not found").

(** The update of the cached message after a successful call, when the
    cache holds the identifier. *)
Definition updateCached (emailId : string)
    (f : EmailMessage.t -> EmailMessage.t) (w : World) : World :=
  match JsMap.get emailId (emailCache w) with
  | Some cachedEmail =>
      set_emailCache (JsMap.set emailId (f cachedEmail) (emailCache w)) w
  | None => w
  end.

Definition markEmailRead (emailId : string) (isRead : bool) : M bool :=
  w <- gets (fun w => w) ;;
  if notConnected w then ret false
  else
    found <- getEmailById emailId ;;
    match found with
    | None => throw (notFound emailId)
    | Some email =>
        let folder := EmailMessage.folder email in
        call (CallGetMailboxLock folder) (imap_getMailboxLock io folder) ;;;
        finally
          ((if isRead
            then call (CallMessageFlagsAdd emailId "\Seen")
                   (imap_messageFlagsAdd io emailId "\Seen")
            else call (CallMessageFlagsRemove emailId "\Seen")
                   (imap_messageFlagsRemove io emailId "\Seen")) ;;;
           modify (updateCached emailId (EmailMessage.with_isRead isRead)) ;;;
           ret true)
          (release folder)
    end.

Definition starEmail (emailId : string) (isStarred : bool) : M bool :=
  w <- gets (fun w => w) ;;
  if notConnected w then ret false
  else
    found <- getEmailById emailId ;;
    match found with
    | None => throw (notFound emailId)
    | Some email =>
        let folder := EmailMessage.folder email in
        call (CallGetMailboxLock folder) (imap_getMailboxLock io folder) ;;;
        finally
          ((if isStarred
            then call (CallMessageFlagsAdd emailId "\Flagged")
                   (imap_messageFlagsAdd io emailId "\Flagged")
            else call (CallMessageFlagsRemove emailId "\Flagged")
                   (imap_messageFlagsRemove io emailId "\Flagged")) ;;;
           modify (updateCached emailId
                     (EmailMessage.with_isStarred isStarred)) ;;;
           ret true)
          (release folder)
    end.

Definition moveEmail (emailId targetFolder : string) : M bool :=
  w <- gets (fun w => w) ;;
  if notConnected w then ret false
  else
    found <- getEmailById emailId ;;
    match found with
    | None => throw (notFound emailId)
    | Some email =>
        let folder := EmailMessage.folder email in
        call (CallGetMailboxLock folder) (imap_getMailboxLock io folder) ;;;
        finally
          (call (CallMessageMove emailId targetFolder)
             (imap_messageMove io emailId targetFolder) ;;;
           modify (updateCached emailId
                     (EmailMessage.with_folder targetFolder)) ;;;
           ret true)
          (release folder)
    end.

Definition deleteEmail (emailId : string) : M bool :=
  w <- gets (fun w => w) ;;
  if notConnected w then ret false
  else
    found <- getEmailById emailId ;;
    match found with
    | None => throw (notFound emailId)
    | Some email =>
        let folder := EmailMessage.folder email in
        call (CallGetMailboxLock folder) (imap_getMailboxLock io folder) ;;;
        finally
          (call (CallMessageDelete emailId) (imap_messageDelete io emailId) ;;;
           modify (fun w =>
                     set_emailCache (JsMap.delete emailId (emailCache w)) w) ;;;
           ret true)
          (release folder)
    end.

(** *** Bulk move *)

Definition addFailure (msg : string) (r : BulkResult.t) : BulkResult.t :=
  BulkResult.mk (BulkResult.success r) (S (BulkResult.failed r))
    (BulkResult.errors r ++ [msg]).

Definition addSuccess (r : BulkResult.t) : BulkResult.t :=
  BulkResult.mk (S (BulkResult.success r)) (BulkResult.failed r)
    (BulkResult.errors r).

(** [emailsByFolder.get(folder).push(emailId)], after the folder got an
    empty list when it had none. *)
Definition pushId (folder emailId : string)
    (emailsByFolder : JsMap.t string (list string))
    : JsMap.t string (list string) :=
  JsMap.set folder (default [] (JsMap.get folder emailsByFolder) ++ [emailId])
    emailsByFolder.

(** The body of the first loop of [bulkMoveEmails]: the message is looked
    up to learn its folder. *)
Definition resolveOne
    (acc : BulkResult.t * JsMap.t string (list string)) (emailId : string)
    : M (BulkResult.t * JsMap.t string (list string)) :=
  tryCatch
    (found <- getEmailById emailId ;;
     match found with
     | None =>
         ret (addFailure ("Email " +:+ emailId +:+ " not found") (fst acc),
              snd acc)
     | Some email =>
         ret (fst acc, pushId (EmailMessage.folder email) emailId (snd acc))
     end)
    (fun error =>
       ret (addFailure
              ("Error fetching email " +:+ emailId +:+ ": " +:+ message error)
              (fst acc),
            snd acc)).

(** The body of the inner loop of the second phase: one message is moved
    and its cache entry follows. *)
Definition moveOne (targetFolder : string) (results : BulkResult.t)
    (emailId : string) : M BulkResult.t :=
  tryCatch
    (call (CallMessageMove emailId targetFolder)
       (imap_messageMove io emailId targetFolder) ;;;
     modify (updateCached emailId (EmailMessage.with_folder targetFolder)) ;;;
     ret (addSuccess results))
    (fun error =>
       ret (addFailure
              ("Failed to move email " +:+ emailId +:+ ": " +:+ message error)
              results)).

(** The body of the outer loop of the second phase: the messages of one
    source folder, under its lock. *)
Definition moveGroup (targetFolder : string) (results : BulkResult.t)
    (group : string * list string) : M BulkResult.t :=
  let sourceFolder := fst group in
  call (CallGetMailboxLock sourceFolder)
    (imap_getMailboxLock io sourceFolder) ;;;
  finally (forEach (moveOne targetFolder) (snd group) results)
    (release sourceFolder).

Definition bulkMoveEmails (emailIds : list string) (targetFolder : string)
    : M BulkResult.t :=
  w <- gets (fun w => w) ;;
  if notConnected w then throw (Error "IMAP client not connected")
  else
    resolved <- forEach resolveOne emailIds
                  (BulkResult.mk 0 0 [], JsMap.empty) ;;
    forEach (moveGroup targetFolder) (JsMap.entries (snd resolved))
      (fst resolved).

(** *** Folders *)

Definition protectedFolders : list string :=
  ["INBOX"; "Sent"; "Drafts"; "Trash"; "Spam"; "Archive"; "All Mail"].

(** [protectedFolders.some(f => name.toLowerCase() === f.toLowerCase())] *)
Definition isProtected (folderName : string) : bool :=
  existsb
    (fun f =>
       bool_decide (JsString.toLowerCase folderName = JsString.toLowerCase f))
    protectedFolders.

(** [error.responseText?.includes(marker)] *)
Definition responseIncludes (error : JsError) (marker : string) : bool :=
  match responseText error with
  | Some text => JsString.includes text marker
  | None => false
  end.

Definition clearFolderCache (w : World) : World :=
  set_folderCache JsMap.empty w.

Definition createFolder (folderName : string) : M bool :=
  w <- gets (fun w => w) ;;
  if negb (isConnected w) || negb (client w)
  then throw (Error "IMAP client not connected")
  else
    tryCatch
      (call (CallMailboxCreate folderName) (imap_mailboxCreate io folderName) ;;;
       modify clearFolderCache ;;;
       ret true)
      (fun error =>
         if responseIncludes error "ALREADYEXISTS"
         then throw (Error ("Folder '" +:+ folderName +:+ "' already exists"))
         else throw error).

Definition deleteFolder (folderName : string) : M bool :=
  w <- gets (fun w => w) ;;
  if negb (isConnected w) || negb (client w)
  then throw (Error "IMAP client not connected")
  else if isProtected folderName
  then throw (Error ("Cannot delete protected folder: " +:+ folderName))
  else
    tryCatch
      (call (CallMailboxDelete folderName) (imap_mailboxDelete io folderName) ;;;
       modify clearFolderCache ;;;
       ret true)
      (fun error =>
         if responseIncludes error "NONEXISTENT"
         then throw (Error ("Folder '" +:+ folderName +:+ "' does not exist"))
         else if responseIncludes error "HASCHILDREN"
                 || responseIncludes error "not empty"
         then throw (Error ("Folder '" +:+ folderName +:+
                            "' is not empty. Move or delete emails first."))
         else throw error).

Definition renameFolder (oldName newName : string) : M bool :=
  w <- gets (fun w => w) ;;
  if negb (isConnected w) || negb (client w)
  then throw (Error "IMAP client not connected")
  else if isProtected oldName
  then throw (Error ("Cannot rename protected folder: " +:+ oldName))
  else
    tryCatch
      (call (CallMailboxRename oldName newName)
         (imap_mailboxRename io oldName newName) ;;;
       modify clearFolderCache ;;;
       ret true)
      (fun error =>
         if responseIncludes error "NONEXISTENT"
         then throw (Error ("Folder '" +:+ oldName +:+ "' does not exist"))
         else if responseIncludes error "ALREADYEXISTS"
         then throw (Error ("Folder '" +:+ newName +:+ "' already exists"))
         else throw error).

Definition clearCache (w : World) : World :=
  set_folderCache JsMap.empty (set_emailCache JsMap.empty w).

End Service.

Arguments World : clear implicits.
Arguments M : clear implicits.

End SimpleIMAPService.

(** ** Tool surface ([src/index.ts]): the handler of tool calls

    The cases of the message-mutating tools [delete_email], [move_email],
    [bulk_move_emails] and [bulk_delete_emails], and the [catch] block
    around the whole [switch]. *)

Module ToolSurface.
Section Handler.
Context {P : Type} (io : ImapFlow P).

Abbreviation M := (SimpleIMAPService.M P).
Abbreviation World := (SimpleIMAPService.World P).

Notation "x <- m ;; k" := (SimpleIMAPService.bind m (fun x => k))
  (at level 100, m at next level, right associativity).

(** The properties of the object [imapService] that these cases call; a
    property that the object does not have is [None]. *)
Record ServiceObject := mkServiceObject {
  prop_deleteEmail : option (string -> M bool);
  prop_moveEmail : option (string -> string -> M bool);
  prop_bulkMoveEmails : option (list string -> string -> M BulkResult.t);
  prop_bulkDeleteEmails : option (list string -> M BulkResult.t)
}.

(** [new SimpleIMAPService()]: the class declares [deleteEmail],
    [moveEmail] and [bulkMoveEmails]; it declares no member
    [bulkDeleteEmails]. *)
Definition imapService : ServiceObject :=
  mkServiceObject
    (Some (SimpleIMAPService.deleteEmail io))
    (Some (SimpleIMAPService.moveEmail io))
    (Some (SimpleIMAPService.bulkMoveEmails io))
    None.

(** The [TypeError] of a call to a property that is [undefined]. *)
Definition notAFunction (name : string) : JsError :=
  Error ("imapService." +:+ name +:+ " is not a function").

(** A method call [imapService.name(...)]: the property is read and, when
    it is a function, applied to the arguments by [apply]. *)
Definition invoke {F A : Type} (name : string) (prop : option F)
    (apply : F -> M A) : M A :=
  match prop with
  | Some f => apply f
  | None => SimpleIMAPService.throw (notAFunction name)
  end.

Inductive Tool :=
| delete_email
| move_email
| bulk_move_emails
| bulk_delete_emails.

(** The arguments of a tool call that these cases read. *)
Record Args := mkArgs {
  emailId : string;
  emailIds : list string;
  targetFolder : string
}.

Record ToolResponse := mkResponse {
  text : string;
  isError : bool
}.

Definition newline : string := String "010"%char "".

(** The text after the summary of a bulk operation. *)
Definition bulkDetails (errors : list string) : string :=
  if (0 <? length errors)%nat
  then newline +:+ newline +:+ "Errors:" +:+ newline +:+
       String.concat newline (take 10 errors) +:+
       (if (10 <? length errors)%nat
        then newline +:+ "... and " +:+ pretty (length errors - 10)%nat +:+ " more"
        else "")
  else "".

Definition bulkSummary (what : string) (results : BulkResult.t) : string :=
  "✅ Bulk " +:+ what +:+ " completed: " +:+
  pretty (BulkResult.success results) +:+ " succeeded, " +:+
  pretty (BulkResult.failed results) +:+ " failed".

(** The [switch] on the tool name. *)
Definition handle (obj : ServiceObject) (tool : Tool) (args : Args)
    : M ToolResponse :=
  match tool with
  | delete_email =>
      success <- invoke "deleteEmail" (prop_deleteEmail obj)
                   (fun f => f (emailId args)) ;;
      SimpleIMAPService.ret
        (mkResponse
           (if success : bool then "✅ Email deleted successfully"
            else "❌ Failed to delete email")
           false)
  | move_email =>
      success <- invoke "moveEmail" (prop_moveEmail obj)
                   (fun f => f (emailId args) (targetFolder args)) ;;
      SimpleIMAPService.ret
        (mkResponse
           (if success : bool then "✅ Email moved to " +:+ targetFolder args
            else "❌ Failed to move email")
           false)
  | bulk_move_emails =>
      results <- invoke "bulkMoveEmails" (prop_bulkMoveEmails obj)
                   (fun f => f (emailIds args) (targetFolder args)) ;;
      SimpleIMAPService.ret
        (mkResponse
           (bulkSummary "move" results +:+
            bulkDetails (BulkResult.errors results))
           false)
  | bulk_delete_emails =>
      results <- invoke "bulkDeleteEmails" (prop_bulkDeleteEmails obj)
                   (fun f => f (emailIds args)) ;;
      SimpleIMAPService.ret
        (mkResponse
           (bulkSummary "delete" results +:+
            bulkDetails (BulkResult.errors results))
           false)
  end.

(** The handler with its [catch] block: an exception becomes the error
    payload. *)
Definition callTool (obj : ServiceObject) (tool : Tool) (args : Args)
    (w : World) : ToolResponse * World :=
  match handle obj tool args w with
  | (Ok response, w') => (response, w')
  | (Throw error, w') =>
      (mkResponse
         ("❌ Error: " +:+
          (if JsString.truthy (message error) then message error
           else "Unknown error occurred"))
         true,
       w')
  end.

End Handler.
End ToolSurface.

(** ** A mailbox server in memory

    An instance of the library interface in the manner of the mocked client
    of the test suite: every call succeeds.  It serves to run the service on
    concrete mailboxes. *)

Module MockImap.

Record State := mkState {
  mailboxes : JsMap.t string (list FetchItem.t);
  selected : option string
}.

Definition selectedMessages (p : State) : list FetchItem.t :=
  match selected p with
  | Some path => default [] (JsMap.get path (mailboxes p))
  | None => []
  end.

Definition isSeen (m : FetchItem.t) : bool :=
  match FetchItem.flags m with
  | Some l => bool_decide ("\Seen" ∈ l)
  | None => false
  end.

Definition hasUid (emailId : string) (m : FetchItem.t) : bool :=
  bool_decide (pretty (FetchItem.uid m) = emailId).

Definition fetchItems (range : FetchRange) (p : State) : list FetchItem.t :=
  match range with
  | SeqRange start stop =>
      take (Z.to_nat (stop - start + 1))
        (drop (Z.to_nat (start - 1)) (selectedMessages p))
  | ByUid emailId => List.filter (hasUid emailId) (selectedMessages p)
  end.

Definition withSelected (f : list FetchItem.t -> list FetchItem.t)
    (p : State) : State :=
  match selected p with
  | Some path =>
      mkState (JsMap.set path (f (selectedMessages p)) (mailboxes p))
        (selected p)
  | None => p
  end.

Definition moveMessage (emailId targetFolder : string) (p : State) : State :=
  let moved := List.filter (hasUid emailId) (selectedMessages p) in
  let p := withSelected (List.filter (fun m => negb (hasUid emailId m))) p in
  mkState
    (JsMap.set targetFolder
       (default [] (JsMap.get targetFolder (mailboxes p)) ++ moved)
       (mailboxes p))
    (selected p).

Definition renameMailbox (oldName newName : string) (p : State) : State :=
  mkState
    (JsMap.set newName (default [] (JsMap.get oldName (mailboxes p)))
       (JsMap.delete oldName (mailboxes p)))
    (selected p).

(** The parser of the mock: the source is the text of the message. *)
Definition parse (source : string) : Res ParsedMail.t :=
  Ok (ParsedMail.mk (Some "Alice <alice@example.com>") (Some "me@example.com")
        None (Some "Hello") (Some (JsText.ofString source)) None
        (Some 1700000000000) None).

Definition imap : ImapFlow State :=
  mkImapFlow State
    (fun _ p => (Ok (), p))
    (fun p => (Ok (), p))
    (fun p =>
       (Ok (map (fun path => ListEntry.mk path path None)
              (JsMap.keys (mailboxes p))), p))
    (fun path p =>
       let msgs := default [] (JsMap.get path (mailboxes p)) in
       (Ok (StatusInfo.mk (Some (Z.of_nat (length msgs)))
              (Some (Z.of_nat (length (List.filter (fun m => negb (isSeen m)) msgs))))),
        p))
    (fun path p => (Ok (), mkState (mailboxes p) (Some path)))
    (fun _ p => p)
    (fun p =>
       match selected p with
       | Some _ => Some (Z.of_nat (length (selectedMessages p)))
       | None => None
       end)
    (fun range p => ((fetchItems range p, None), p))
    (fun _ p => (Ok (Some (map FetchItem.uid (selectedMessages p))), p))
    (fun _ _ p => (Ok (), p))
    (fun _ _ p => (Ok (), p))
    (fun emailId targetFolder p => (Ok (), moveMessage emailId targetFolder p))
    (fun emailId p =>
       (Ok (), withSelected (List.filter (fun m => negb (hasUid emailId m))) p))
    (fun folderName p =>
       (Ok (), mkState (JsMap.set folderName [] (mailboxes p)) (selected p)))
    (fun folderName p =>
       (Ok (), mkState (JsMap.delete folderName (mailboxes p)) (selected p)))
    (fun oldName newName p => (Ok (), renameMailbox oldName newName p))
    parse.

Definition message (uid : N) (source : string) : FetchItem.t :=
  FetchItem.mk uid (Some []) (Some source).

(** An inbox of five messages, oldest first, and an empty archive. *)
Definition inbox5 : State :=
  mkState
    [("INBOX", [message 1 "one"; message 2 "two"; message 3 "three";
                message 4 "four"; message 5 "five"]);
     ("Archive", [])]
    None.

Definition config : ConnectionConfig :=
  mkConfig "localhost" 1143 (Some "me@example.com") (Some "secret").

(** The world after [connect] in front of the given mailboxes. *)
Definition connected (p : State) : SimpleIMAPService.World State :=
  snd (SimpleIMAPService.connect imap config (SimpleIMAPService.init p 0)).

End MockImap.

(** ** Notions of the specification *)

(** No space of the list is followed by another space. *)
Definition singleSpaces (l : JsText.t) : Prop :=
  ∀ j, l !! j = Some JsText.space → l !! S j ≠ Some JsText.space.

Module ContactSpec.
Import Analytics.

#[global] Instance InteractionType_eq_dec : EqDecision InteractionType.
Proof. solve_decision. Defined.

(** An interaction with a contact: the bare address, whether the message
    was received from it or sent to it, and the date of the message. *)
Record Interaction := mkInteraction {
  address : string;
  kind : InteractionType;
  moment : Z
}.

(** The sender of a message contributes a received interaction and each
    recipient a sent interaction, keyed by the address without display
    name. *)
Definition interactionsOf (e : EmailMessage.t) : list Interaction :=
  mkInteraction (extractEmailAddress (EmailMessage.from e)) received
    (EmailMessage.date e) ::
  map (fun to => mkInteraction (extractEmailAddress to) sent
                   (EmailMessage.date e))
    (EmailMessage.to e).

(** The interactions of a snapshot; a field that holds no address, that is
    an empty string, gives none. *)
Definition interactions (S : list EmailMessage.t) : list Interaction :=
  filter (fun i => address i ≠ "") (S ≫= interactionsOf).

Definition received_from (a : string) (i : Interaction) : Prop :=
  address i = a ∧ kind i = received.

Definition sent_to (a : string) (i : Interaction) : Prop :=
  address i = a ∧ kind i = sent.

#[global] Instance received_from_dec a i : Decision (received_from a i).
Proof. unfold received_from. apply _. Defined.

#[global] Instance sent_to_dec a i : Decision (sent_to a i).
Proof. unfold sent_to. apply _. Defined.

(** One step of the contact map for an interaction with an address. *)
Definition step (cs : JsMap.t string Contact.t) (i : Interaction)
    : JsMap.t string Contact.t :=
  updateContact (address i) (kind i) (moment i) cs.

(** The entry [c] for the address [a] sums up the interactions [ints]. *)
Definition summarizes (ints : list Interaction) (a : string) (c : Contact.t)
    : Prop :=
  Contact.email c = a ∧
  Contact.emailsReceived c = length (filter (received_from a) ints) ∧
  Contact.emailsSent c = length (filter (sent_to a) ints) ∧
  (∃ i, i ∈ ints ∧ address i = a ∧ moment i = Contact.firstInteraction c) ∧
  (∃ i, i ∈ ints ∧ address i = a ∧ moment i = Contact.lastInteraction c) ∧
  (∀ i, i ∈ ints → address i = a →
        Contact.firstInteraction c ≤ moment i ≤ Contact.lastInteraction c).

Definition tracks (ints : list Interaction) (cs : JsMap.t string Contact.t)
    : Prop :=
  NoDup (JsMap.keys cs) ∧
  ∀ a,
    (JsMap.get a cs = None → ∀ i, i ∈ ints → address i ≠ a) ∧
    (∀ c, JsMap.get a cs = Some c → summarizes ints a c).

End ContactSpec.

(** The list views of the fetched messages that have a source that
    parses, in the order of the fetch. *)
Definition viewsOf {P : Type} (io : ImapFlow P) (folder : string) (now : Z)
    (items : list FetchItem.t) : list EmailMessage.t :=
  omap
    (fun message =>
       match FetchItem.source message with
       | Some source =>
           match simpleParser io source with
           | Ok parsed =>
               Some (SimpleIMAPService.listView
                       (SimpleIMAPService.toEmailMessage folder now message
                          parsed))
           | Throw _ => None
           end
       | None => None
       end)
    items.

(** A relation between the world before and after a computation holds for
    the computation when it holds for each of its runs. *)
Module ServiceSpec.
Import SimpleIMAPService.

Definition stable {P A : Type} (R : World P -> World P -> Prop) (m : M P A)
    : Prop :=
  forall w, R w (snd (m w)).

End ServiceSpec.

(** Notions for the bulk move. *)
Module BulkSpec.
Import SimpleIMAPService.

(** The lookups of a list of identifiers one after the other, each in the
    state that the lookups before it left. *)
Fixpoint lookups {P : Type} (io : ImapFlow P) (emailIds : list string)
    (w : World P) : list (Res (option EmailMessage.t)) * World P :=
  match emailIds with
  | [] => ([], w)
  | emailId :: rest =>
      let '(found, w1) := getEmailById io emailId w in
      let '(others, w2) := lookups io rest w1 in
      (found :: others, w2)
  end.

(** The lookup of an identifier resolves when it finds a message, and the
    message carries the identifier. *)
Definition resolvesTo (emailId : string) (o : Res (option EmailMessage.t))
    : Prop :=
  ∃ e, o = Ok (Some e) ∧ EmailMessage.id e = emailId.

(** It fails to resolve when it finds nothing or throws. *)
Definition unresolved (o : Res (option EmailMessage.t)) : Prop :=
  match o with
  | Ok (Some _) => False
  | _ => True
  end.

(** The cache after the move of one identifier. *)
Definition moveCache (targetFolder emailId : string)
    (c : JsMap.t string EmailMessage.t) : JsMap.t string EmailMessage.t :=
  match JsMap.get emailId c with
  | Some cachedEmail =>
      JsMap.set emailId (EmailMessage.with_folder targetFolder cachedEmail) c
  | None => c
  end.

(** A message of the cache that lies in the given folder. *)
Definition cachedIn (targetFolder emailId : string)
    (c : JsMap.t string EmailMessage.t) : Prop :=
  ∃ e, JsMap.get emailId c = Some e ∧ EmailMessage.folder e = targetFolder.

(** The keys of the message cache are kept. *)
Definition cacheGrows {P : Type} (w w' : World P) : Prop :=
  ∀ k, JsMap.has k (emailCache w) = true → JsMap.has k (emailCache w') = true.

Definition movedCache (targetFolder : string) (emailIds : list string)
    (c : JsMap.t string EmailMessage.t) : JsMap.t string EmailMessage.t :=
  fold_left (fun c emailId => moveCache targetFolder emailId c) emailIds c.

(** The result after [n] more successes. *)
Definition succeeded (n : nat) (r r' : BulkResult.t) : Prop :=
  BulkResult.success r' = (BulkResult.success r + n)%nat ∧
  BulkResult.failed r' = BulkResult.failed r ∧
  BulkResult.errors r' = BulkResult.errors r.

(** The identifiers of all groups, in the order of the moves. *)
Definition groupedIds (groups : JsMap.t string (list string)) : list string :=
  concat (JsMap.values groups).

End BulkSpec.

(** The four operations that change one message, as one family. *)
Module MutationSpec.
Import SimpleIMAPService.

Inductive Mutation :=
| MarkRead (emailId : string) (isRead : bool)
| Star (emailId : string) (isStarred : bool)
| Move (emailId targetFolder : string)
| Delete (emailId : string).

Definition run {P : Type} (io : ImapFlow P) (m : Mutation) : M P bool :=
  match m with
  | MarkRead emailId isRead => markEmailRead io emailId isRead
  | Star emailId isStarred => starEmail io emailId isStarred
  | Move emailId targetFolder => moveEmail io emailId targetFolder
  | Delete emailId => deleteEmail io emailId
  end.

Definition target (m : Mutation) : string :=
  match m with
  | MarkRead emailId _ | Star emailId _ | Move emailId _ | Delete emailId =>
      emailId
  end.

(** The call to the client that carries the mutation out. *)
Definition providerCall (m : Mutation) : Call :=
  match m with
  | MarkRead emailId true => CallMessageFlagsAdd emailId "\Seen"
  | MarkRead emailId false => CallMessageFlagsRemove emailId "\Seen"
  | Star emailId true => CallMessageFlagsAdd emailId "\Flagged"
  | Star emailId false => CallMessageFlagsRemove emailId "\Flagged"
  | Move emailId targetFolder => CallMessageMove emailId targetFolder
  | Delete emailId => CallMessageDelete emailId
  end.

(** The answer of the client to that call. *)
Definition providerAnswer {P : Type} (io : ImapFlow P) (m : Mutation)
    : P -> Res () * P :=
  match m with
  | MarkRead emailId true => imap_messageFlagsAdd io emailId "\Seen"
  | MarkRead emailId false => imap_messageFlagsRemove io emailId "\Seen"
  | Star emailId true => imap_messageFlagsAdd io emailId "\Flagged"
  | Star emailId false => imap_messageFlagsRemove io emailId "\Flagged"
  | Move emailId targetFolder => imap_messageMove io emailId targetFolder
  | Delete emailId => imap_messageDelete io emailId
  end.

(** The world after the given calls were made and left the remote state
    [p], with the message cache [c]. *)
Definition afterCalls {P : Type} (cs : list Call) (p : P)
    (c : JsMap.t string EmailMessage.t) (w : World P) : World P :=
  mkWorld (client w) (isConnected w) c (folderCache w) (connectionConfig w)
    p (calls w ++ cs) (clock w).

(** What the mutation makes of the message cache. *)
Definition onCache (m : Mutation) (c : JsMap.t string EmailMessage.t)
    : JsMap.t string EmailMessage.t :=
  let update emailId f :=
    match JsMap.get emailId c with
    | Some cachedEmail => JsMap.set emailId (f cachedEmail) c
    | None => c
    end in
  match m with
  | MarkRead emailId isRead => update emailId (EmailMessage.with_isRead isRead)
  | Star emailId isStarred =>
      update emailId (EmailMessage.with_isStarred isStarred)
  | Move emailId targetFolder =>
      update emailId (EmailMessage.with_folder targetFolder)
  | Delete emailId => JsMap.delete emailId c
  end.

End MutationSpec.

(** ** Sample data *)

Module Samples.

(** The snapshot of the unit tests of the analytics engine: two messages
    from one sender, one of them with a display name, and one from another
    sender, all to one recipient. *)
Definition testMessages : list EmailMessage.t :=
  [EmailMessage.mk "1" "sender1@example.com" ["recipient@example.com"]
     None "Test 1" (JsText.ofString "Body 1") None false 1705312800000 "INBOX"
     true false false None;
   EmailMessage.mk "2" "sender2@example.com" ["recipient@example.com"]
     None "Test 2" (JsText.ofString "Body 2") None false 1705316400000 "INBOX"
     false true true None;
   EmailMessage.mk "3" "Sender One <sender1@example.com>"
     ["recipient@example.com"]
     None "Test 3" (JsText.ofString "Body 3") None true 1705399200000 "Sent"
     true false false None].

(** A body of one hundred words with a line break after each. *)
Definition longBody : JsText.t :=
  JsText.ofString
    (String.concat (String "010"%char "  ") (replicate 100 "word")).

(** A body of one hundred words with a no-break space (U+00A0) and an
    ideographic space (U+3000) after each. *)
Definition wideBody : JsText.t :=
  concat (replicate 100 (JsText.ofString "word" ++ [160%N; 12288%N])).

(** An engine whose calls take up to 125000 arguments, the order of
    magnitude of Node.js with its default stack. *)
Definition engine : Analytics.Engine := Analytics.mkEngine 125000.


Definition plainMessage (id : string) (date : Z) : EmailMessage.t :=
  EmailMessage.mk id "sender1@example.com" ["recipient@example.com"] None
    "Test" (JsText.ofString "Body") None false date "INBOX" true false false
    None.

(** Messages of 2025-03-29T12:00:00Z, 2025-03-30T00:15:00Z and
    2025-03-30T12:00:00Z. *)
Definition marchMessages : list EmailMessage.t :=
  [plainMessage "1" 1743249600000; plainMessage "2" 1743293700000;
   plainMessage "3" 1743336000000].

End Samples.

(** ** Analytics engine: rankings and the analytics cache *)

Module AnalyticsQueries.
Import Analytics.

Definition interactionCount (c : Contact.t) : nat :=
  (Contact.emailsSent c + Contact.emailsReceived c)%nat.

(** The comparator [(a, b) => key(b) - key(a)] of the descending sorts: it
    does not put [b] before [a] when [key(b) <= key(a)]. *)
Definition descending {A : Type} (key : A -> nat) (a b : A) : bool :=
  (key b <=? key a)%nat.

(** [getContacts(limit)], with 100 for a limit that is not given. *)
Definition getContacts (limit : option Z) (s : AnalyticsService)
    : list Contact.t :=
  SimpleIMAPService.slice0 (default 100 limit)
    (sortBy (descending interactionCount) (JsMap.values (contacts s))).

Module Ranked.
Record t := mk {
  email : string;
  count : nat;
  lastContact : Z
}.
End Ranked.

(** [topSenders] of [getEmailAnalytics]. *)
Definition topSenders (s : AnalyticsService) : list Ranked.t :=
  map (fun c => Ranked.mk (Contact.email c) (Contact.emailsReceived c)
                  (Contact.lastInteraction c))
    (take 10
       (sortBy (descending Contact.emailsReceived)
          (List.filter (fun c => (0 <? Contact.emailsReceived c)%nat)
             (JsMap.values (contacts s))))).

(** [topRecipients] of [getEmailAnalytics]. *)
Definition topRecipients (s : AnalyticsService) : list Ranked.t :=
  map (fun c => Ranked.mk (Contact.email c) (Contact.emailsSent c)
                  (Contact.lastInteraction c))
    (take 10
       (sortBy (descending Contact.emailsSent)
          (List.filter (fun c => (0 <? Contact.emailsSent c)%nat)
             (JsMap.values (contacts s))))).

Definition msPerHour : Z := 3600000.

Definition HourFromTime (t : Z) : Z := (t / msPerHour) mod 24.

(** [d.getHours()]: the hour of the day in local time. *)
Definition getHours (tz : JsDate.TimeZone) (t : Z) : Z :=
  HourFromTime (JsDate.LocalTime tz t).

Module HourCount.
Record t := mk {
  hour : Z;
  count : nat
}.
End HourCount.

(** The map of [calculatePeakActivityHours] before it is sorted: the 24
    hours at zero, then one more for the hour of each message. *)
Definition hourCounts (tz : JsDate.TimeZone) (s : AnalyticsService)
    : JsMap.t Z nat :=
  let counts :=
    fold_left (fun counts i => JsMap.set (Z.of_nat i) 0%nat counts)
      (seq 0 24) JsMap.empty in
  fold_left
    (fun counts email =>
       let hour := getHours tz (EmailMessage.date email) in
       JsMap.set hour (default 0%nat (JsMap.get hour counts) + 1)%nat counts)
    (emails s) counts.

Definition calculatePeakActivityHours (tz : JsDate.TimeZone)
    (s : AnalyticsService) : list HourCount.t :=
  take 10
    (sortBy (descending HourCount.count)
       (map (fun '(hour, count) => HourCount.mk hour count)
          (JsMap.entries (hourCounts tz s)))).

(** [getEmailAnalytics()] as far as the state of the service goes; the
    value it returns is not modelled here.  When the analytics cache is
    empty or the shared timer has run out, the cache is filled, its slot
    holding the volume trends of the last 30 days, and the timer is
    restarted. *)
Definition getEmailAnalytics_state (tz : JsDate.TimeZone) (now : Z)
    (s : AnalyticsService) : AnalyticsService :=
  let recompute :=
    mkService (emails s) (contacts s) (statsCache s)
      (Some (calculateVolumeTrends tz now 30 s)) (Some now) in
  match analyticsCache s with
  | Some _ => if isCacheValid now s then s else recompute
  | None => recompute
  end.

(** The operations of the service as a caller sees them. *)
Inductive Op :=
| OpUpdateEmails (es : list EmailMessage.t)
| OpGetEmailStats (now : Z)
| OpGetEmailAnalytics (tz : JsDate.TimeZone) (now : Z)
| OpClearCache
| OpClearAll.

Definition apply (engine : Engine) (s : AnalyticsService) (op : Op)
    : AnalyticsService :=
  match op with
  | OpUpdateEmails es => updateEmails es s
  | OpGetEmailStats now => snd (getEmailStats engine now s)
  | OpGetEmailAnalytics tz now => getEmailAnalytics_state tz now s
  | OpClearCache => clearCache s
  | OpClearAll => clearAll s
  end.

(** The service after a sequence of calls on a new instance. *)
Definition after (engine : Engine) (ops : list Op) : AnalyticsService :=
  fold_left (apply engine) ops init.

(** The number of messages of a snapshot that lie in a folder. *)
Definition inFolder (f : string) (es : list EmailMessage.t) : nat :=
  length (filter (fun e => EmailMessage.folder e = f) es).

(** The snapshot that a sequence of calls leaves behind: that of the last
    [updateEmails], or none after [clearAll]. *)
Definition lastSnapshot (ops : list Op) : list EmailMessage.t :=
  fold_left
    (fun acc op =>
       match op with
       | OpUpdateEmails es => es
       | OpClearAll => []
       | _ => acc
       end)
    ops [].

(** The statistics cache, when filled, holds the statistics of the present
    messages and contacts. *)
Definition coherent (engine : Engine) (s : AnalyticsService) : Prop :=
  forall c, statsCache s = Some c -> computeStats engine s = Ok c.

End AnalyticsQueries.

(** A list is in descending order of a key. *)
Definition nonIncreasing {A : Type} (key : A -> nat) (l : list A) : Prop :=
  forall i j a b,
    (i < j)%nat -> l !! i = Some a -> l !! j = Some b -> (key b <= key a)%nat.

(** ** Regular expressions

    The regular expressions of [src/utils/helpers.ts] use character classes,
    concatenation and [+] only; [test] on a pattern anchored by [^] and [$]
    tells whether the whole string belongs to its language.  The matcher
    works by derivatives. *)

Module Regex.

Inductive t :=
| Void
| Eps
| Class (p : ascii -> bool)
| Seq (a b : t)
| Alt (a b : t)
| Star (a : t).

Definition Char (c : ascii) : t := Class (Ascii.eqb c).
Definition Plus (a : t) : t := Seq a (Star a).

Fixpoint nullable (r : t) : bool :=
  match r with
  | Void => false
  | Eps => true
  | Class _ => false
  | Seq a b => nullable a && nullable b
  | Alt a b => nullable a || nullable b
  | Star _ => true
  end.

Fixpoint deriv (c : ascii) (r : t) : t :=
  match r with
  | Void => Void
  | Eps => Void
  | Class p => if p c then Eps else Void
  | Seq a b =>
      if nullable a then Alt (Seq (deriv c a) b) (deriv c b)
      else Seq (deriv c a) b
  | Alt a b => Alt (deriv c a) (deriv c b)
  | Star a => Seq (deriv c a) (Star a)
  end.

(** [/^r$/.test(s)] *)
Definition test (r : t) (s : list ascii) : bool :=
  nullable (fold_left (fun r c => deriv c r) s r).

(** The language of a regular expression. *)
Inductive matches : t -> list ascii -> Prop :=
| matches_eps : matches Eps []
| matches_class p c : p c = true -> matches (Class p) [c]
| matches_seq a b u v : matches a u -> matches b v -> matches (Seq a b) (u ++ v)
| matches_alt_l a b u : matches a u -> matches (Alt a b) u
| matches_alt_r a b u : matches b u -> matches (Alt a b) u
| matches_star_nil a : matches (Star a) []
| matches_star_cons a u v :
    matches a u -> matches (Star a) v -> matches (Star a) (u ++ v).

End Regex.

(** ** [src/utils/helpers.ts] *)

Module Helpers.

(** [[^\s@]] *)
Definition notSpaceAt (c : ascii) : bool :=
  negb (JsString.isWhiteSpace c) && negb (Ascii.eqb c "@"%char).

(** [/^[^\s@]+@[^\s@]+\.[^\s@]+$/] *)
Definition emailRegex : Regex.t :=
  Regex.Seq (Regex.Plus (Regex.Class notSpaceAt))
    (Regex.Seq (Regex.Char "@"%char)
       (Regex.Seq (Regex.Plus (Regex.Class notSpaceAt))
          (Regex.Seq (Regex.Char "."%char)
             (Regex.Plus (Regex.Class notSpaceAt))))).

Definition isValidEmail (email : string) : bool :=
  Regex.test emailRegex (JsString.chars email).

(** [s.split(sep)] for a separator of one character: the pieces between the
    separators, one more than there are separators. *)
Fixpoint split (sep : ascii) (l : list ascii) : list (list ascii) :=
  match l with
  | [] => [[]]
  | c :: r =>
      if Ascii.eqb c sep then [] :: split sep r
      else match split sep r with
           | p :: ps => (c :: p) :: ps
           | [] => [[c]]
           end
  end.

(** [pieces.join(sep)] *)
Fixpoint join (sep : list ascii) (pieces : list (list ascii)) : list ascii :=
  match pieces with
  | [] => []
  | [p] => p
  | p :: ps => p ++ sep ++ join sep ps
  end.

Definition parseEmails (emailString : string) : list string :=
  if negb (JsString.truthy emailString) ||
     String.eqb (JsString.trim emailString) ""
  then []
  else
    List.filter
      (fun email => (0 <? String.length email)%nat && isValidEmail email)
      (map (fun piece => JsString.trim (JsString.ofChars piece))
         (split ","%char (JsString.chars emailString))).

(** [s.substring(0, n)]: a negative [n] counts as 0. *)
Definition substring0 (n : Z) (l : list ascii) : list ascii :=
  take (Z.to_nat n) l.

Definition isCrLfTab (c : ascii) : bool :=
  Ascii.eqb c "013"%char || Ascii.eqb c "010"%char || Ascii.eqb c "009"%char.

(** [sanitizeForLog(str, maxLength)], with 100 for a length that is not
    given. *)
Definition sanitizeForLog (str : string) (maxLength : option Z) : string :=
  let maxLength := default 100 maxLength in
  if negb (JsString.truthy str) then ""
  else
    let sanitized :=
      JsString.trimChars
        (map (fun c => if isCrLfTab c then JsString.space else c)
           (JsString.chars str)) in
    if maxLength <? Z.of_nat (length sanitized)
    then JsString.ofChars (substring0 maxLength sanitized ++ JsString.chars "...")
    else JsString.ofChars sanitized.

(** The characters before the first ['<'], when there is one. *)
Fixpoint upToLt (l : list ascii) : option (list ascii) :=
  match l with
  | [] => None
  | c :: r =>
      if Ascii.eqb c "<"%char then Some []
      else match upToLt r with
           | Some cap => Some (c :: cap)
           | None => None
           end
  end.

(** [extractName]: [s.match(/^([^<]+)</)], the capture group trimmed. *)
Definition extractName (emailString : string) : option string :=
  match upToLt (JsString.chars emailString) with
  | Some (c :: cap) => Some (JsString.trim (JsString.ofChars (c :: cap)))
  | _ => None
  end.

(** [truncate(text, maxLength)] *)
Definition truncate (text : string) (maxLength : Z) : string :=
  if Z.of_nat (String.length text) <=? maxLength then text
  else JsString.ofChars
         (substring0 (maxLength - 3) (JsString.chars text) ++
          JsString.chars "...").

End Helpers.

(** ** [src/services/smtp-service.ts]

    The mail transport of the library is a parameter: [sendMail] takes the
    options of one message and the state of the network, and either returns
    the id of the message or throws.  The world keeps the list of the
    options handed to the transport. *)

Module SMTPService.
Import Helpers.

(** [string | string[]] *)
Inductive Recipients :=
| OneString (s : string)
| Array (l : list string).

Inductive Priority := high | normal | low.

Module SendEmailOptions.
Record t := mk {
  to : Recipients;
  cc : option Recipients;
  bcc : option Recipients;
  subject : string;
  body : string;
  isHtml : option bool;
  priority : option Priority;
  replyTo : option string;
  attachments : option (list EmailAttachment.t);
  inReplyTo : option string;
  references : option (list string);
  headers : option (list (string * string))
}.
End SendEmailOptions.

Module MailAttachment.
Record t := mk {
  filename : string;
  content : option string;
  contentType : string;
  cid : option string
}.
End MailAttachment.

Module MailOptions.
Record t := mk {
  from : string;
  to : string;
  subject : string;
  text : option string;
  html : option string;
  cc : option string;
  bcc : option string;
  replyTo : option string;
  priority : option Priority;
  inReplyTo : option string;
  references : option string;
  headers : option (list (string * string));
  attachments : option (list MailAttachment.t)
}.
End MailOptions.

Module SendResult.
Record t := mk {
  success : bool;
  messageId : option string;
  error : option string
}.
End SendResult.

(** [l.join(sep)] on strings. *)
Fixpoint joinStrings (sep : string) (l : list string) : string :=
  match l with
  | [] => ""
  | [s] => s
  | s :: r => s +:+ sep +:+ joinStrings sep r
  end.

Section Service.
Context {N : Type}.

Record Transport := mkTransport {
  sendMail : MailOptions.t -> N -> Res string * N;
  verify : N -> Res unit * N
}.

Context (io : Transport).

Record World := mkWorld {
  transporter : bool;
  username : string;
  net : N;
  handedOver : list MailOptions.t
}.

(** [Array.isArray(x) ? x : parseEmails(x)] *)
Definition addresses (r : Recipients) : list string :=
  match r with
  | Array l => l
  | OneString s => parseEmails s
  end.

(** [x ? (Array.isArray(x) ? x : parseEmails(x)) : []] *)
Definition optionalAddresses (r : option Recipients) : list string :=
  match r with
  | Some (Array l) => l
  | Some (OneString s) => if JsString.truthy s then parseEmails s else []
  | None => []
  end.

Definition nonEmptyJoin (sep : string) (l : list string) : option string :=
  match l with
  | [] => None
  | _ => Some (joinStrings sep l)
  end.

Definition truthyBool (b : option bool) : bool := default false b.

Definition mailOptions (w : World) (options : SendEmailOptions.t)
    (toAddresses ccAddresses bccAddresses : list string) : MailOptions.t :=
  MailOptions.mk
    (username w)
    (joinStrings ", " toAddresses)
    (SendEmailOptions.subject options)
    (if truthyBool (SendEmailOptions.isHtml options) then None
     else Some (SendEmailOptions.body options))
    (if truthyBool (SendEmailOptions.isHtml options)
     then Some (SendEmailOptions.body options) else None)
    (nonEmptyJoin ", " ccAddresses)
    (nonEmptyJoin ", " bccAddresses)
    (truthyOpt (SendEmailOptions.replyTo options))
    (SendEmailOptions.priority options)
    (truthyOpt (SendEmailOptions.inReplyTo options))
    (match SendEmailOptions.references options with
     | Some (r :: rs) => Some (joinStrings " " (r :: rs))
     | _ => None
     end)
    (SendEmailOptions.headers options)
    (match SendEmailOptions.attachments options with
     | Some (a :: atts) =>
         Some (map (fun att =>
                      MailAttachment.mk (EmailAttachment.filename att)
                        (EmailAttachment.content att)
                        (EmailAttachment.contentType att)
                        (EmailAttachment.contentId att))
                 (a :: atts))
     | _ => None
     end).

Definition sendEmail (options : SendEmailOptions.t) (w : World)
    : Res SendResult.t * World :=
  if negb (transporter w)
  then (Throw (Error "SMTP transporter not initialized"), w)
  else
    let toAddresses := addresses (SendEmailOptions.to options) in
    let ccAddresses := optionalAddresses (SendEmailOptions.cc options) in
    let bccAddresses := optionalAddresses (SendEmailOptions.bcc options) in
    if (length toAddresses =? 0)%nat
    then (Throw (Error "At least one recipient is required"), w)
    else
      match List.find (fun email => negb (isValidEmail email))
              (toAddresses ++ ccAddresses ++ bccAddresses) with
      | Some email => (Throw (Error ("Invalid email address: " +:+ email)), w)
      | None =>
          let options' :=
            mailOptions w options toAddresses ccAddresses bccAddresses in
          let w' := mkWorld (transporter w) (username w) (net w)
                      (handedOver w ++ [options']) in
          match sendMail io options' (net w) with
          | (Ok messageId, n) =>
              (Ok (SendResult.mk true (Some messageId) None),
               mkWorld (transporter w') (username w') n (handedOver w'))
          | (Throw e, n) =>
              (Ok (SendResult.mk false None (Some (message e))),
               mkWorld (transporter w') (username w') n (handedOver w'))
          end
      end.

Definition verifyConnection (w : World) : Res bool * World :=
  if negb (transporter w)
  then (Throw (Error "SMTP transporter not initialized"), w)
  else
    match verify io (net w) with
    | (Ok _, n) =>
        (Ok true, mkWorld (transporter w) (username w) n (handedOver w))
    | (Throw e, n) =>
        (Throw e, mkWorld (transporter w) (username w) n (handedOver w))
    end.

Definition close (w : World) : World :=
  if transporter w
  then mkWorld false (username w) (net w) (handedOver w)
  else w.

End Service.

Arguments Transport : clear implicits.
Arguments World : clear implicits.

(** A transport that accepts every message. *)
Definition accepting : Transport unit :=
  mkTransport (fun _ n => (Ok "id-1", n)) (fun n => (Ok tt, n)).

End SMTPService.

(** ** [src/utils/logger.ts]

    The logger on its own; the services above do not carry it. *)

Module Logger.

Inductive Level := debug | info | warn | error.

Definition levelEqb (a b : Level) : bool :=
  match a, b with
  | debug, debug | info, info | warn, warn | error, error => true
  | _, _ => false
  end.

Module LogEntry.
Record t := mk {
  timestamp : Z;
  level : Level;
  context : string;
  message : string;
  data : option string
}.
End LogEntry.

Record t := mkLogger {
  debugMode : bool;
  logs : list LogEntry.t
}.

Definition maxLogs : nat := 1000.

Definition init : t := mkLogger false [].

Definition setDebugMode (enabled : bool) (s : t) : t :=
  mkLogger enabled (logs s).

(** The private method [log]; [now] is the value of [new Date()]. *)
Definition log (now : Z) (level : Level) (message context : string)
    (data : option string) (s : t) : t :=
  let entry := LogEntry.mk now level context message data in
  let pushed := logs s ++ [entry] in
  mkLogger (debugMode s)
    (if (maxLogs <? length pushed)%nat then tail pushed else pushed).

(** [debug], [info], [warn] and [error], without what they print. *)
Definition emit (now : Z) (level : Level) (message context : string)
    (data : option string) (s : t) : t :=
  match level with
  | debug => if debugMode s then log now debug message context data s else s
  | _ => log now level message context data s
  end.

(** [l.slice(start)] *)
Definition sliceFrom {A : Type} (start : Z) (l : list A) : list A :=
  let len := Z.of_nat (length l) in
  if start <? 0 then drop (Z.to_nat (Z.max (len + start) 0)) l
  else drop (Z.to_nat (Z.min start len)) l.

(** [getLogs(level, limit)], with 100 for a limit that is not given. *)
Definition getLogs (level : option Level) (limit : option Z) (s : t)
    : list LogEntry.t :=
  let filteredLogs :=
    match level with
    | Some lv => List.filter (fun e => levelEqb (LogEntry.level e) lv) (logs s)
    | None => logs s
    end in
  sliceFrom (- default 100 limit) filteredLogs.

Definition clearLogs (s : t) : t := mkLogger (debugMode s) [].

(** The calls of a client of the logger. *)
Inductive Call :=
| SetDebugMode (enabled : bool)
| Emit (now : Z) (level : Level) (message context : string)
    (data : option string)
| ClearLogs.

Definition step (s : t) (c : Call) : t :=
  match c with
  | SetDebugMode enabled => setDebugMode enabled s
  | Emit now level message context data => emit now level message context data s
  | ClearLogs => clearLogs s
  end.

Definition after (calls : list Call) : t := fold_left step calls init.

(** The entries that a sequence of calls asks to record since the last
    [clearLogs]: every entry but the debug ones made while the debug mode was
    off. *)
Definition accept (st : bool * list LogEntry.t) (c : Call)
    : bool * list LogEntry.t :=
  match c with
  | SetDebugMode enabled => (enabled, snd st)
  | Emit now level message context data =>
      if levelEqb level debug && negb (fst st) then st
      else (fst st, snd st ++ [LogEntry.mk now level context message data])
  | ClearLogs => (fst st, [])
  end.

Definition accepted (calls : list Call) : list LogEntry.t :=
  snd (fold_left accept calls (false, [])).

(** The last [n] elements of a list. *)
Definition lastN {A : Type} (n : nat) (l : list A) : list A :=
  drop (length l - n) l.

End Logger.

(** ** Mailbox locks

    The locks that the service holds are not part of its state.  To follow
    them a client is put in front of another one: it keeps, next to the
    remote state, the list of the paths whose lock was granted and not yet
    released, the latest first. *)

Module LockSpec.
Import SimpleIMAPService.

Fixpoint releaseLatest (path : string) (held : list string) : list string :=
  match held with
  | [] => []
  | h :: r => if decide (path = h) then r else h :: releaseLatest path r
  end.

Definition lift {P A : Type} (op : P -> Res A * P)
    : P * list string -> Res A * (P * list string) :=
  fun s => let '(r, p) := op (fst s) in (r, (p, snd s)).

Definition tracked {P : Type} (io : ImapFlow P) : ImapFlow (P * list string) :=
  mkImapFlow (P * list string)
    (fun config => lift (imap_connect io config))
    (lift (imap_logout io))
    (lift (imap_list io))
    (fun path => lift (imap_status io path))
    (fun path s =>
       match imap_getMailboxLock io path (fst s) with
       | (Ok u, p) => (Ok u, (p, path :: snd s))
       | (Throw e, p) => (Throw e, (p, snd s))
       end)
    (fun path s => (imap_release io path (fst s), releaseLatest path (snd s)))
    (fun s => imap_mailboxExists io (fst s))
    (fun range s =>
       let '(r, p) := imap_fetch io range (fst s) in (r, (p, snd s)))
    (fun criteria => lift (imap_search io criteria))
    (fun emailId flag => lift (imap_messageFlagsAdd io emailId flag))
    (fun emailId flag => lift (imap_messageFlagsRemove io emailId flag))
    (fun emailId target => lift (imap_messageMove io emailId target))
    (fun emailId => lift (imap_messageDelete io emailId))
    (fun folderName => lift (imap_mailboxCreate io folderName))
    (fun folderName => lift (imap_mailboxDelete io folderName))
    (fun oldName newName => lift (imap_mailboxRename io oldName newName))
    (simpleParser io).

(** The locks held in a world of the service in front of a tracked client. *)
Definition held {P : Type} (w : World (P * list string)) : list string :=
  snd (remote w).

Definition sameLocks {P : Type} (w w' : World (P * list string)) : Prop :=
  held w' = held w.

End LockSpec.

(** * Properties *)

(** ** Maps in insertion order *)

Module JsMapFacts.
Section Facts.
Context {K V : Type} `{EqDecision K}.
Implicit Types (m : JsMap.t K V) (k : K) (v : V).

Lemma get_set_eq m k v : JsMap.get k (JsMap.set k v m) = Some v.
Proof.
  induction m as [|[k' v'] m IH]; simpl.
  - by rewrite decide_True.
  - destruct (decide (k = k')) as [->|Hne]; simpl.
    + by rewrite decide_True.
    + by rewrite decide_False.
Qed.

Lemma get_set_ne m k k' v :
  k ≠ k' → JsMap.get k' (JsMap.set k v m) = JsMap.get k' m.
Proof.
  intros Hne. induction m as [|[k0 v0] m IH]; simpl.
  - by rewrite decide_False.
  - destruct (decide (k = k0)) as [->|Hk]; simpl.
    + by rewrite !decide_False.
    + destruct (decide (k' = k0)); [done | apply IH].
Qed.

Lemma get_None_keys m k : JsMap.get k m = None ↔ k ∉ JsMap.keys m.
Proof.
  induction m as [|[k' v'] m IH]; simpl.
  - split; [intros _; apply not_elem_of_nil | done].
  - rewrite not_elem_of_cons. destruct (decide (k = k')) as [->|Hne].
    + split; [done | intros [? _]; done].
    + rewrite IH. tauto.
Qed.

Lemma keys_set m k v :
  JsMap.keys (JsMap.set k v m) =
  if JsMap.has k m then JsMap.keys m else JsMap.keys m ++ [k].
Proof.
  unfold JsMap.has. induction m as [|[k' v'] m IH]; simpl; [done|].
  destruct (decide (k = k')) as [->|Hne]; simpl; [done|].
  rewrite IH. by destruct (JsMap.get k m).
Qed.

Lemma NoDup_keys_set m k v :
  NoDup (JsMap.keys m) → NoDup (JsMap.keys (JsMap.set k v m)).
Proof.
  intros Hnd. rewrite keys_set. unfold JsMap.has.
  destruct (JsMap.get k m) eqn:Hg; [done|].
  apply NoDup_app. split_and!; [done | | apply NoDup_singleton].
  intros x Hx ->%list_elem_of_singleton. by apply get_None_keys in Hg.
Qed.

Lemma has_true m k : JsMap.has k m = true ↔ is_Some (JsMap.get k m).
Proof.
  unfold JsMap.has. destruct (JsMap.get k m); split; try done.
Qed.

End Facts.
End JsMapFacts.

(** ** Statistics of a snapshot *)

Module AnalyticsFacts.
Import Analytics.

Lemma filter_bool_length {A : Type} (f : A → bool) (P : A → Prop)
    `{∀ x, Decision (P x)} (l : list A) :
  (∀ x, f x = true ↔ P x) →
  length (List.filter f l) = length (filter P l).
Proof.
  intros Hf. induction l as [|x l IH]; [done|]. simpl.
  rewrite filter_cons. destruct (f x) eqn:Hx.
  - rewrite decide_True; [simpl; by rewrite IH | by apply Hf].
  - rewrite decide_False; [done|]. rewrite <- Hf. congruence.
Qed.

Lemma JsSet_fold_spec {A : Type} `{EqDecision A} (l s : list A) :
  NoDup s →
  NoDup (fold_left (fun s x => JsSet.add x s) l s) ∧
  ∀ x, x ∈ fold_left (fun s x => JsSet.add x s) l s ↔ x ∈ s ∨ x ∈ l.
Proof.
  revert s. induction l as [|y l IH]; intros s Hs; simpl.
  - split; [done|]. intros x. rewrite elem_of_nil. tauto.
  - assert (Hadd : NoDup (JsSet.add y s)).
    { unfold JsSet.add. case_bool_decide; [done|].
      apply NoDup_app. split_and!; [done | | apply NoDup_singleton].
      by intros x Hx ->%list_elem_of_singleton. }
    destruct (IH _ Hadd) as [Hnd Hel]. split; [done|].
    intros x. rewrite Hel, elem_of_cons. unfold JsSet.add.
    case_bool_decide as Hy.
    + split; [tauto|]. intros [?|[->|?]]; tauto.
    + rewrite elem_of_app, list_elem_of_singleton. tauto.
Qed.

(** The size of [new Set(l)] is the number of distinct elements of [l]. *)
Lemma JsSet_size_distinct (l : list string) :
  JsSet.size (JsSet.ofList l) = size (list_to_set l : gset string).
Proof.
  destruct (JsSet_fold_spec l [] (NoDup_nil_2)) as [Hnd Hel].
  unfold JsSet.size, JsSet.ofList.
  rewrite <- (size_list_to_set (C := gset string)) by done.
  f_equal. apply set_eq. intros x.
  rewrite !elem_of_list_to_set, Hel, elem_of_nil. tauto.
Qed.

(** Within the number of arguments that the engine accepts the average is
    computed, and so are the statistics. *)
Lemma averagePerDay_fits engine (total : nat) (dates : list Z) :
  (N.of_nat (length dates) ≤ maxArguments engine)%N →
  ∃ average, averagePerDay engine total dates = Ok average.
Proof.
  intros Hfit. unfold averagePerDay, minOf, maxOf, spread.
  destruct (N.ltb_spec (maxArguments engine) (N.of_nat (length dates)));
    [lia|]. by eexists.
Qed.

Lemma computeStats_fits engine (s : AnalyticsService) :
  (N.of_nat (length (emails s)) ≤ maxArguments engine)%N →
  ∃ average, computeStats engine s = Ok (statsWith average s).
Proof.
  intros Hfit. unfold computeStats.
  destruct (0 <? length (emails s))%nat; [|by eexists].
  destruct (averagePerDay_fits engine (length (emails s))
              (map EmailMessage.date (emails s))) as [average ->];
    [by rewrite length_map | by eexists].
Qed.

Lemma getEmailStats_fresh engine now (S : list EmailMessage.t) svc :
  (N.of_nat (length S) ≤ maxArguments engine)%N →
  ∃ average,
    fst (getEmailStats engine now (updateEmails S svc)) =
    Ok (statsWith average (updateEmails S svc)).
Proof.
  intros Hfit.
  destruct (computeStats_fits engine (updateEmails S svc) Hfit) as [average Hc].
  exists average. unfold getEmailStats.
  change (statsCache (updateEmails S svc)) with (@None EmailStats.t).
  cbv zeta. by rewrite Hc.
Qed.




(** Within the number of arguments that the engine accepts,
    [updateEmails(S)] followed by [getEmailStats()] reports [totalEmails]
    equal to the length of [S], [unreadEmails] equal to the number of
    messages whose [isRead] is false, [starredEmails] equal to the number
    whose [isStarred] is true, and [totalFolders] equal to the number of
    distinct folders of [S]. *)
Theorem getEmailStats_after_updateEmails
    (engine : Engine) (S : list EmailMessage.t) (svc : AnalyticsService)
    (now : Z) :
  fits engine S →
  ∃ stats,
    fst (getEmailStats engine now (updateEmails S svc)) = Ok stats ∧
    EmailStats.totalEmails stats = length S ∧
    EmailStats.unreadEmails stats =
      length (filter (λ m, EmailMessage.isRead m = false) S) ∧
    EmailStats.starredEmails stats =
      length (filter (λ m, EmailMessage.isStarred m = true) S) ∧
    EmailStats.totalFolders stats =
      size (list_to_set (map EmailMessage.folder S) : gset string).
Proof.
  intros Hfit.
  destruct (getEmailStats_fresh engine now S svc Hfit) as [average ->].
  eexists. split; [reflexivity|]. simpl.
  split_and!.
  - done.
  - apply filter_bool_length. intros m. by destruct (EmailMessage.isRead m).
  - apply filter_bool_length. intros m. by destruct (EmailMessage.isStarred m).
  - apply JsSet_size_distinct.
Qed.

Lemma getEmailStats_after_updateEmails_witness :
  ∃ stats,
    fst (getEmailStats Samples.engine 0 (updateEmails Samples.testMessages init))
      = Ok stats ∧
    EmailStats.totalEmails stats = 3%nat.
Proof.
  destruct (getEmailStats_after_updateEmails Samples.engine
              Samples.testMessages init 0) as (stats & Hrun & Htotal & _).
  - unfold fits. vm_compute. discriminate.
  - by exists stats.
Defined.

(** The rounding of the average is the one of the code: 170 messages over
    1088000000 milliseconds are 13.5 a day on exact numbers, and 13 once
    the number of days and the quotient are rounded to binary64. *)
Example averagePerDay_rounding :
  averagePerDay Samples.engine 170 (0 :: repeat 1088000000 169) = Ok 13.
Proof. vm_compute. reflexivity. Qed.

End AnalyticsFacts.

(** ** Contacts of a snapshot *)

Module ContactFacts.
Import Analytics ContactSpec.


Lemma truthy_nonempty (s : string) : JsString.truthy s = true ↔ s ≠ "".
Proof. destruct s; simpl; split; congruence. Qed.

Lemma fold_skip_empty (l : list Interaction) cs :
  fold_left
    (fun cs i => if JsString.truthy (address i) then step cs i else cs) l cs =
  fold_left step (filter (fun i => address i ≠ "") l) cs.
Proof.
  revert cs. induction l as [|i l IH]; intros cs; [done|]. simpl.
  rewrite filter_cons. destruct (JsString.truthy (address i)) eqn:Ht.
  - rewrite decide_True by (by apply truthy_nonempty). simpl. apply IH.
  - rewrite decide_False; [apply IH|].
    intros Hne. apply truthy_nonempty in Hne. congruence.
Qed.

Lemma processEmail_interactions cs e :
  processEmail cs e =
  fold_left (fun cs i => if JsString.truthy (address i) then step cs i else cs)
    (interactionsOf e) cs.
Proof.
  unfold processEmail, interactionsOf. simpl. unfold step at 2. simpl.
  generalize (if JsString.truthy (extractEmailAddress (EmailMessage.from e))
              then updateContact (extractEmailAddress (EmailMessage.from e))
                     received (EmailMessage.date e) cs
              else cs).
  induction (EmailMessage.to e) as [|t l IH]; intros cs'; [done|].
  simpl. apply IH.
Qed.

Lemma processContacts_interactions (S : list EmailMessage.t) cs :
  fold_left processEmail S cs = fold_left step (interactions S) cs.
Proof.
  unfold interactions. rewrite <- fold_skip_empty.
  revert cs. induction S as [|e S IH]; intros cs; [done|].
  rewrite bind_cons, fold_left_app. cbn [fold_left].
  rewrite processEmail_interactions. apply IH.
Qed.

(** What [updateContact] does to the entry of its address. *)
Lemma updateContact_get a ty d cs :
  JsMap.get a (updateContact a ty d cs) =
  Some
    (let c := default (Contact.mk a 0 0 d d) (JsMap.get a cs) in
     Contact.mk (Contact.email c)
       (if decide (ty = sent) then S (Contact.emailsSent c)
        else Contact.emailsSent c)
       (if decide (ty = received) then S (Contact.emailsReceived c)
        else Contact.emailsReceived c)
       (Z.max (Contact.lastInteraction c) d)
       (Z.min (Contact.firstInteraction c) d)).
Proof.
  unfold updateContact. rewrite JsMapFacts.get_set_eq. f_equal.
  destruct (JsMap.get a cs) as [c|]; simpl; destruct ty; simpl;
    repeat match goal with
           | |- context [?x >? ?y] => destruct (Z.gtb_spec x y); simpl
           | |- context [?x <? ?y] => destruct (Z.ltb_spec x y); simpl
           end;
    f_equal; lia.
Qed.

Lemma updateContact_get_ne a b ty d cs :
  a ≠ b → JsMap.get b (updateContact a ty d cs) = JsMap.get b cs.
Proof. intros Hne. unfold updateContact. by apply JsMapFacts.get_set_ne. Qed.

Lemma updateContact_NoDup a ty d cs :
  NoDup (JsMap.keys cs) → NoDup (JsMap.keys (updateContact a ty d cs)).
Proof. unfold updateContact. apply JsMapFacts.NoDup_keys_set. Qed.


Lemma filter_snoc_other {P : Interaction → Prop} `{∀ i, Decision (P i)}
    (ints : list Interaction) i :
  ¬ P i → filter P (ints ++ [i]) = filter P ints.
Proof.
  intros Hn. rewrite filter_app, filter_cons, decide_False by done.
  by rewrite filter_nil, app_nil_r.
Qed.

Lemma filter_snoc_same {P : Interaction → Prop} `{∀ i, Decision (P i)}
    (ints : list Interaction) i :
  P i → length (filter P (ints ++ [i])) = S (length (filter P ints)).
Proof.
  intros Hp. rewrite filter_app, filter_cons, decide_True by done.
  rewrite filter_nil, length_app. simpl. lia.
Qed.

Lemma filter_none {P : Interaction → Prop} `{∀ i, Decision (P i)}
    (ints : list Interaction) :
  (∀ i, i ∈ ints → ¬ P i) → filter P ints = [].
Proof.
  induction ints as [|j ints IH]; intros Hn; [done|].
  rewrite filter_cons, decide_False by (apply Hn; left).
  apply IH. intros i Hi. apply Hn. by right.
Qed.

Lemma tracks_step ints cs i : tracks ints cs → tracks (ints ++ [i]) (step cs i).
Proof.
  intros [Hnd Hall]. split; [by apply updateContact_NoDup|].
  intros a. unfold step. destruct (decide (address i = a)) as [Ha|Ha].
  - subst a. rewrite updateContact_get. split; [done|].
    intros c' [= <-]. destruct (Hall (address i)) as [Hnone Hsome].
    destruct (JsMap.get (address i) cs) as [c|] eqn:Hg; simpl.
    + destruct (Hsome c eq_refl) as (He & Hr & Hs & (i1 & Hi1 & Ha1 & Hm1)
        & (i2 & Hi2 & Ha2 & Hm2) & Hb).
      unfold summarizes; simpl. split_and!.
      * done.
      * destruct (kind i) eqn:Hk; simpl.
        -- rewrite filter_snoc_other; [done|]. unfold received_from.
           intros [_ ?]; congruence.
        -- rewrite filter_snoc_same; [by rewrite Hr|]. by split.
      * destruct (kind i) eqn:Hk; simpl.
        -- rewrite filter_snoc_same; [by rewrite Hs|]. by split.
        -- rewrite filter_snoc_other; [done|]. unfold sent_to.
           intros [_ ?]; congruence.
      * destruct (Z.min_spec (Contact.firstInteraction c) (moment i))
          as [[_ ->]|[_ ->]].
        -- exists i1. rewrite elem_of_app. auto.
        -- exists i. rewrite elem_of_app, list_elem_of_singleton. auto.
      * destruct (Z.max_spec (Contact.lastInteraction c) (moment i))
          as [[_ ->]|[_ ->]].
        -- exists i. rewrite elem_of_app, list_elem_of_singleton. auto.
        -- exists i2. rewrite elem_of_app. auto.
      * intros j [Hj| ->%list_elem_of_singleton]%elem_of_app Haj.
        -- specialize (Hb j Hj Haj). lia.
        -- lia.
    + specialize (Hnone eq_refl).
      unfold summarizes; simpl. split_and!.
      * done.
      * rewrite filter_app, (filter_none ints), filter_cons
          by (intros j Hj [? _]; by apply (Hnone j)).
        destruct (kind i) eqn:Hk; simpl.
        -- rewrite decide_False; [done|]. unfold received_from.
           intros [_ ?]; congruence.
        -- by rewrite decide_True.
      * rewrite filter_app, (filter_none ints), filter_cons
          by (intros j Hj [? _]; by apply (Hnone j)).
        destruct (kind i) eqn:Hk; simpl.
        -- by rewrite decide_True.
        -- rewrite decide_False; [done|]. unfold sent_to.
           intros [_ ?]; congruence.
      * exists i. rewrite elem_of_app, list_elem_of_singleton.
        split_and!; [auto | done | lia].
      * exists i. rewrite elem_of_app, list_elem_of_singleton.
        split_and!; [auto | done | lia].
      * intros j [Hj| ->%list_elem_of_singleton]%elem_of_app Haj.
        -- by destruct (Hnone j Hj).
        -- lia.
  - rewrite updateContact_get_ne by done.
    destruct (Hall a) as [Hnone Hsome]. split.
    + intros Hg j [Hj| ->%list_elem_of_singleton]%elem_of_app; [by apply Hnone | done].
    + intros c Hg. destruct (Hsome c Hg) as (He & Hr & Hs & (i1 & Hi1 & Ha1 & Hm1)
        & (i2 & Hi2 & Ha2 & Hm2) & Hb).
      unfold summarizes. split_and!.
      * done.
      * rewrite filter_snoc_other; [done|]. by intros [? _].
      * rewrite filter_snoc_other; [done|]. by intros [? _].
      * exists i1. rewrite elem_of_app. auto.
      * exists i2. rewrite elem_of_app. auto.
      * intros j [Hj| ->%list_elem_of_singleton]%elem_of_app Haj; [by apply Hb | done].
Qed.

Lemma tracks_fold ints : tracks ints (fold_left step ints JsMap.empty).
Proof.
  induction ints as [|i ints IH] using rev_ind.
  - split; [apply NoDup_nil_2|]. intros a. split.
    + intros _ i Hi. by apply elem_of_nil in Hi.
    + intros c Hc. discriminate Hc.
  - rewrite fold_left_app. simpl. by apply tracks_step.
Qed.

(** C6. After [updateEmails(S)] the contact map has exactly one entry per
    distinct bare address that occurs as a sender or as a recipient; an
    entry counts in [emailsReceived] the messages whose sender has the
    address and in [emailsSent] the recipients that have it, and its
    [firstInteraction] and [lastInteraction] are the least and the greatest
    date among the interactions of the address.  One more interaction sets
    both dates of a new contact to its date and moves the dates of a known
    contact outwards only. *)
Theorem contacts_after_updateEmails
    (S : list EmailMessage.t) (svc : AnalyticsService) :
  let cs := contacts (updateEmails S svc) in
  let ints := interactions S in
  NoDup (JsMap.keys cs) ∧
  (∀ a, a ∈ JsMap.keys cs ↔ ∃ i, i ∈ ints ∧ address i = a) ∧
  (∀ a c, JsMap.get a cs = Some c →
     Contact.email c = a ∧
     Contact.emailsReceived c = length (filter (received_from a) ints) ∧
     Contact.emailsSent c = length (filter (sent_to a) ints) ∧
     (∃ i, i ∈ ints ∧ address i = a ∧ moment i = Contact.firstInteraction c) ∧
     (∃ i, i ∈ ints ∧ address i = a ∧ moment i = Contact.lastInteraction c) ∧
     (∀ i, i ∈ ints → address i = a →
        Contact.firstInteraction c ≤ moment i ≤ Contact.lastInteraction c)) ∧
  (∀ a ty d m,
     match JsMap.get a m, JsMap.get a (updateContact a ty d m) with
     | None, Some c' =>
         Contact.firstInteraction c' = d ∧ Contact.lastInteraction c' = d
     | Some c, Some c' =>
         Contact.firstInteraction c' = Z.min (Contact.firstInteraction c) d ∧
         Contact.lastInteraction c' = Z.max (Contact.lastInteraction c) d
     | _, None => False
     end).
Proof.
  intros cs ints.
  assert (Hcs : cs = fold_left step ints JsMap.empty).
  { subst cs ints. unfold updateEmails, processContacts. simpl.
    apply processContacts_interactions. }
  destruct (tracks_fold ints) as [Hnd Hall]. rewrite <- Hcs in Hnd, Hall.
  split_and!.
  - done.
  - intros a. destruct (Hall a) as [Hnone Hsome]. split.
    + intros Hin. destruct (JsMap.get a cs) as [c|] eqn:Hg.
      * destruct (Hsome c eq_refl) as (_ & _ & _ & (i & Hi & Ha & _) & _).
        by exists i.
      * apply JsMapFacts.get_None_keys in Hg. done.
    + intros (i & Hi & Ha). destruct (JsMap.get a cs) as [c|] eqn:Hg.
      * destruct (decide (a ∈ JsMap.keys cs)) as [|Hn]; [done|].
        apply JsMapFacts.get_None_keys in Hn. congruence.
      * by destruct (Hnone eq_refl i Hi).
  - intros a c Hg. destruct (Hall a) as [_ Hsome]. by apply Hsome.
  - intros a ty d m. rewrite updateContact_get.
    destruct (JsMap.get a m) as [c|]; simpl; lia.
Qed.

Lemma contacts_after_updateEmails_witness :
  ∃ c, JsMap.get "sender1@example.com"
         (contacts (updateEmails Samples.testMessages init)) = Some c ∧
       Contact.emailsReceived c = 2%nat ∧ Contact.emailsSent c = 0%nat.
Proof.
  destruct (contacts_after_updateEmails Samples.testMessages init)
    as (_ & _ & Hsum & _).
  destruct (JsMap.get "sender1@example.com"
              (contacts (updateEmails Samples.testMessages init)))
    as [c|] eqn:Hc; [|vm_compute in Hc; discriminate Hc].
  exists c. split; [reflexivity|].
  destruct (Hsum _ _ Hc) as (_ & Hr & Hs & _). rewrite Hr, Hs.
  split; vm_compute; reflexivity.
Defined.

End ContactFacts.

(** ** Body previews *)

Module JsStringFacts.
Import JsString.

Lemma dropWhiteSpace_chars_suffix l : dropWhiteSpace l `suffix_of` l.
Proof.
  induction l as [|c l IH]; simpl; [done|].
  destruct (isWhiteSpace c); [by apply suffix_cons_r | done].
Qed.

Lemma trimChars_infix l : ∃ pre suf, l = pre ++ trimChars l ++ suf.
Proof.
  unfold trimChars.
  destruct (dropWhiteSpace_chars_suffix l) as [p1 H1].
  destruct (dropWhiteSpace_chars_suffix (rev (dropWhiteSpace l))) as [p2 H2].
  exists p1, (rev p2). rewrite H1 at 1. f_equal.
  rewrite <- rev_app_distr, <- H2. by rewrite rev_involutive.
Qed.

End JsStringFacts.

Module TruncateFacts.
Import JsText.

Lemma lastIndexOfFrom_spec u l i found :
  (lastIndexOfFrom u i l found = found ∧ u ∉ l) ∨
  (∃ n : nat, lastIndexOfFrom u i l found = i + Z.of_nat n ∧
              l !! n = Some u ∧ ∀ m, (n < m)%nat → l !! m ≠ Some u).
Proof.
  revert i found. induction l as [|x l IH]; intros i found; simpl.
  - left. split; [done | apply not_elem_of_nil].
  - destruct (N.eqb_spec x u) as [->|Hne].
    + right. destruct (IH (i + 1) i) as [[-> Hnot]|(n & -> & Hn & Hlast)].
      * exists 0%nat. split_and!; [lia | done |].
        intros [|m] Hm; [lia|]. simpl. intros Hl.
        apply Hnot. by eapply list_elem_of_lookup_2.
      * exists (S n). split_and!; [lia | done |].
        intros [|m] Hm; [lia|]. simpl. apply Hlast. lia.
    + destruct (IH (i + 1) found) as [[-> Hnot]|(n & -> & Hn & Hlast)].
      * left. split; [done|]. rewrite not_elem_of_cons. split; [congruence | done].
      * right. exists (S n). split_and!; [lia | done |].
        intros [|m] Hm; [lia|]. simpl. apply Hlast. lia.
Qed.

Lemma lastIndexOf_spec u l :
  (lastIndexOf u l = -1 ∧ u ∉ l) ∨
  (∃ n : nat, lastIndexOf u l = Z.of_nat n ∧ l !! n = Some u ∧
              ∀ m, (n < m)%nat → l !! m ≠ Some u).
Proof.
  unfold lastIndexOf.
  destruct (lastIndexOfFrom_spec u l 0 (-1)) as [?|(n & ? & ?)]; [by left|].
  right. exists n. by rewrite Z.add_0_l in *.
Qed.

Lemma isWhiteSpace_space : isWhiteSpace space = true.
Proof. reflexivity. Qed.

Lemma collapseFrom_single inRun l :
  singleSpaces (collapseFrom inRun l) ∧
  (inRun = true → head (collapseFrom inRun l) ≠ Some space).
Proof.
  revert inRun. induction l as [|c l IH]; intros inRun; simpl.
  - split; [intros j Hj; by rewrite lookup_nil in Hj | done].
  - destruct (isWhiteSpace c) eqn:Hc.
    + destruct (IH true) as [Hs Hh]. destruct inRun.
      * split; [done | intros _; by apply Hh].
      * split; [|done]. intros [|j]; simpl.
        -- intros _. specialize (Hh eq_refl).
           by destruct (collapseFrom true l).
        -- apply Hs.
    + destruct (IH false) as [Hs _]. split.
      * intros [|j]; simpl; [|apply Hs].
        intros [= ->]. by rewrite isWhiteSpace_space in Hc.
      * intros _ [= ->]. by rewrite isWhiteSpace_space in Hc.
Qed.

Lemma dropWhiteSpace_suffix l : dropWhiteSpace l `suffix_of` l.
Proof.
  induction l as [|c l IH]; simpl; [done|].
  destruct (isWhiteSpace c); [by apply suffix_cons_r | done].
Qed.

Lemma trim_infix l : ∃ pre suf, l = pre ++ trim l ++ suf.
Proof.
  unfold trim.
  destruct (dropWhiteSpace_suffix l) as [p1 H1].
  destruct (dropWhiteSpace_suffix (rev (dropWhiteSpace l))) as [p2 H2].
  exists p1, (rev p2). rewrite H1 at 1. f_equal.
  rewrite <- rev_app_distr, <- H2. by rewrite rev_involutive.
Qed.

Lemma singleSpaces_infix pre l suf :
  singleSpaces (pre ++ l ++ suf) → singleSpaces l.
Proof.
  intros Hs j Hj Hj'. apply (Hs (length pre + j)%nat).
  - rewrite lookup_app_r by lia.
    replace (length pre + j - length pre)%nat with j by lia.
    by apply lookup_app_l_Some.
  - rewrite lookup_app_r by lia.
    replace (S (length pre + j) - length pre)%nat with (S j) by lia.
    by apply lookup_app_l_Some.
Qed.

Lemma normalizedBody_singleSpaces body : singleSpaces (normalizedBody body).
Proof.
  unfold normalizedBody.
  destruct (trim_infix (collapseWhiteSpace body)) as (pre & suf & Heq).
  apply (singleSpaces_infix pre _ suf). rewrite <- Heq.
  apply collapseFrom_single.
Qed.

Lemma truncateBody_unfold body :
  truncateBody body =
  let cleaned := normalizedBody body in
  if Z.of_nat (length cleaned) <=? 300 then cleaned
  else
    let truncated := take 300 cleaned in
    let lastSpace := lastIndexOf space truncated in
    if 1200 <? 5 * lastSpace
    then take (Z.to_nat lastSpace) truncated ++ ellipsis
    else truncated ++ ellipsis.
Proof.
  unfold truncateBody, truncateBodyTo.
  destruct body; [reflexivity | done].
Qed.

(** C7. When the normalized form of a body is at most 300 code units long,
    [truncateBody] returns it whole.  When it is longer, the preview ends
    with the ellipsis, and if one of the first 300 code units at an index
    above 240 is a space, the preview is the text before such a space: the
    cut falls on a space that follows the last character of a word.  The
    body is any sequence of code units, and the normalized form is taken
    with all the white space of the language. *)
Theorem truncateBody_preview (body : JsText.t) :
  let cleaned := normalizedBody body in
  ((length cleaned ≤ 300)%nat → truncateBody body = cleaned) ∧
  ((300 < length cleaned)%nat →
     (∃ content, truncateBody body = content ++ ellipsis) ∧
     ((∃ p, (240 < p < 300)%nat ∧ cleaned !! p = Some space) →
        ∃ k, (240 < k < 300)%nat ∧
             cleaned !! k = Some space ∧
             cleaned !! (k - 1)%nat ≠ Some space ∧
             truncateBody body = take k cleaned ++ ellipsis)).
Proof.
  intros cleaned. rewrite truncateBody_unfold. fold cleaned. cbv zeta.
  split.
  - intros Hle. destruct (Z.leb_spec (Z.of_nat (length cleaned)) 300); [done | lia].
  - intros Hgt.
    destruct (Z.leb_spec (Z.of_nat (length cleaned)) 300) as [|_]; [lia|].
    split.
    + destruct (1200 <? 5 * lastIndexOf space (take 300 cleaned)); by eexists.
    + intros (p & Hp & Hsp).
      assert (Htp : take 300 cleaned !! p = Some space).
      { rewrite lookup_take_lt by lia. done. }
      destruct (lastIndexOf_spec space (take 300 cleaned))
        as [[_ Hnot]|(n & -> & Hn & Hlast)].
      { destruct Hnot. by eapply list_elem_of_lookup_2. }
      assert (Hpn : (p ≤ n)%nat).
      { destruct (decide (p ≤ n)%nat) as [|Hlt]; [done|].
        destruct (Hlast p); [lia | done]. }
      assert (Hn300 : (n < 300)%nat).
      { apply lookup_lt_Some in Hn. rewrite length_take in Hn. lia. }
      rewrite lookup_take_lt in Hn by done.
      destruct (Z.ltb_spec 1200 (5 * Z.of_nat n)) as [_|]; [|lia].
      exists n. split_and!; [lia | lia | done | |].
      * intros Hprev. apply (normalizedBody_singleSpaces body (n - 1)%nat Hprev).
        by replace (S (n - 1)) with n by lia.
      * rewrite Nat2Z.id, take_take, Nat.min_l by lia. done.
Qed.

Lemma truncateBody_preview_witness :
  (∃ k, (240 < k < 300)%nat ∧
        normalizedBody Samples.longBody !! k = Some space ∧
        normalizedBody Samples.longBody !! (k - 1)%nat ≠ Some space ∧
        truncateBody Samples.longBody =
          take k (normalizedBody Samples.longBody) ++ ellipsis) ∧
  (∃ k, (240 < k < 300)%nat ∧
        normalizedBody Samples.wideBody !! k = Some space ∧
        normalizedBody Samples.wideBody !! (k - 1)%nat ≠ Some space ∧
        truncateBody Samples.wideBody =
          take k (normalizedBody Samples.wideBody) ++ ellipsis).
Proof.
  split.
  - destruct (truncateBody_preview Samples.longBody) as [_ Hlong].
    destruct Hlong as [_ Hcut].
    + vm_compute. lia.
    + apply Hcut. exists 244%nat. split; [lia | vm_compute; reflexivity].
  - destruct (truncateBody_preview Samples.wideBody) as [_ Hwide].
    destruct Hwide as [_ Hcut].
    + vm_compute. lia.
    + apply Hcut. exists 244%nat. split; [lia | vm_compute; reflexivity].
Defined.

(** White space that is not ASCII is white space too: two no-break spaces
    between two letters become one space, and a body of words that are
    separated by no-break and ideographic spaces is cut at a space. *)
Example truncateBody_no_break_space :
  truncateBody [97%N; 160%N; 160%N; 98%N] = [97%N; 32%N; 98%N].
Proof. reflexivity. Qed.

Example truncateBody_wide_spaces :
  truncateBody Samples.wideBody =
  concat (replicate 59 (ofString "word ")) ++ ofString "word" ++ ellipsis.
Proof. vm_compute. reflexivity. Qed.

End TruncateFacts.

(** ** Search criteria *)

Module SearchFacts.


End SearchFacts.

(** ** The tool surface *)

Module ToolFacts.
Import ToolSurface.

(** C9. Every call of the tool [bulk_delete_emails] fails: the handler calls
    [imapService.bulkDeleteEmails], which the class does not define, so the
    call throws and the answer is the error payload with [isError] true.
    Nothing reaches the client and the caches stay as they were: no message
    is deleted through this tool. *)
Theorem bulk_delete_emails_always_fails
    {P : Type} (io : ImapFlow P) (args : Args)
    (w : SimpleIMAPService.World P) :
  callTool (imapService io) bulk_delete_emails args w =
  (mkResponse "❌ Error: imapService.bulkDeleteEmails is not a function" true,
   w).
Proof. reflexivity. Qed.

End ToolFacts.

(** ** Calendar dates *)

Module DateFacts.

Example toISODate_epoch : JsDate.toISODate 0 = "1970-01-01".
Proof. vm_compute. reflexivity. Qed.

Example toISODate_before_epoch : JsDate.toISODate (-1) = "1969-12-31".
Proof. vm_compute. reflexivity. Qed.

Example toISODate_test_message : JsDate.toISODate 1705312800000 = "2024-01-15".
Proof. vm_compute. reflexivity. Qed.

Example toISODate_leap_day : JsDate.toISODate 1709164800000 = "2024-02-29".
Proof. vm_compute. reflexivity. Qed.

Example toISODate_year_10000 :
  JsDate.toISODate 253402300800000 = "+010000-01-01".
Proof. vm_compute. reflexivity. Qed.

(** 31 March 2025, written as the thirty-first day of March and as the
    zeroth day of April. *)
Example MakeDay_overflow :
  JsDate.MakeDay 2025 2 31 = JsDate.Day 1743379200000 ∧
  JsDate.MakeDay 2025 3 0 = JsDate.Day 1743379200000.
Proof. vm_compute. split; reflexivity. Qed.

(** In a zone with a fixed offset, [setDate(getDate() - i)] goes back [i]
    days of 24 hours. *)
Example setDate_fixed_offset :
  JsDate.setDate (JsDate.fixedOffset 3600000) 1743377400000
    (JsDate.getDate (JsDate.fixedOffset 3600000) 1743377400000 - 40) =
  1743377400000 - 40 * JsDate.msPerDay.
Proof. vm_compute. reflexivity. Qed.

(** Across the change to summer time the same step is an hour shorter. *)
Example setDate_summer_time :
  JsDate.setDate JsDate.europeBerlin2025 1743377400000
    (JsDate.getDate JsDate.europeBerlin2025 1743377400000 - 1) =
  1743377400000 - JsDate.msPerDay + 3600000.
Proof. vm_compute. reflexivity. Qed.

End DateFacts.

(** ** Volume trends *)

Module TrendFacts.
Import Analytics.

Lemma insertSorted_Forall {A : Type} (Q : A → Prop) le x (l : list A) :
  Q x → Forall Q l → Forall Q (insertSorted le x l).
Proof.
  intros Hx Hl. induction Hl as [|y l Hy Hl IH]; simpl.
  - by constructor.
  - destruct (le x y); repeat constructor; done.
Qed.

Lemma sortBy_Forall {A : Type} (Q : A → Prop) le (l : list A) :
  Forall Q l → Forall Q (sortBy le l).
Proof.
  unfold sortBy. induction 1 as [|x l Hx Hl IH]; simpl; [constructor|].
  by apply insertSorted_Forall.
Qed.

Lemma set_Forall_values {V : Type} (Q : V → Prop) k v
    (m : JsMap.t string V) :
  Q v → Forall (λ kv, Q kv.2) m → Forall (λ kv, Q kv.2) (JsMap.set k v m).
Proof.
  intros Hv Hm. induction Hm as [|[k' v'] m Hkv Hm IH]; simpl.
  - by repeat constructor.
  - destruct (decide (k = k')); constructor; done.
Qed.

Lemma get_Forall_values {V : Type} (Q : V → Prop) k v
    (m : JsMap.t string V) :
  Forall (λ kv, Q kv.2) m → JsMap.get k m = Some v → Q v.
Proof.
  induction 1 as [|[k' v'] m Hkv Hm IH]; simpl; [done|].
  destruct (decide (k = k')); [by intros [= <-] | done].
Qed.

(** No entry of the volume trends counts a sent message, whatever the time
    zone. *)
Lemma getVolumeTrends_sent_zero tz now days s :
  Forall (λ t, VolumeTrend.sent t = 0%nat) (getVolumeTrends tz now days s).
Proof.
  unfold getVolumeTrends, calculateVolumeTrends.
  apply sortBy_Forall, Forall_map.
  match goal with
  | |- Forall _ (JsMap.entries (fold_left ?f (emails s) ?m0)) =>
      assert (H0 : Forall (λ kv : string * (nat * nat), kv.2.2 = 0%nat) m0);
      [|assert (H1 : Forall (λ kv : string * (nat * nat), kv.2.2 = 0%nat)
                       (fold_left f (emails s) m0))]
  end.
  - generalize (seq 0 (Z.to_nat days)).
    intros l. generalize (Forall_nil_2 (λ kv : string * (nat * nat), kv.2.2 = 0%nat)).
    change (@nil (string * (nat * nat))) with
      (JsMap.empty : JsMap.t string (nat * nat)).
    generalize (JsMap.empty : JsMap.t string (nat * nat)).
    induction l as [|i l IH]; intros m Hm; simpl; [done|].
    apply IH. by apply (set_Forall_values (λ v, v.2 = 0%nat)).
  - revert H0. generalize (emails s).
    match goal with |- ∀ l, Forall _ ?m → _ => generalize m end.
    intros m l. revert m. induction l as [|e l IH]; intros m Hm; simpl; [done|].
    apply IH. destruct (JsMap.get _ m) as [[r n]|] eqn:Hg; [|done].
    apply (set_Forall_values (λ v, v.2 = 0%nat)); [|done]. simpl.
    apply (get_Forall_values (λ v, v.2 = 0%nat) _ _ _ Hm Hg).
  - unfold JsMap.entries. eapply Forall_impl; [exact H1|].
    intros [k [r n]]. simpl. done.
Qed.

(** In a zone without summer time the window of three days has its three
    days. *)
Example getVolumeTrends_fixed_offset :
  getVolumeTrends (JsDate.fixedOffset 3600000) 1743377400000 3
    (updateEmails Samples.marchMessages init) =
  [VolumeTrend.mk "2025-03-28" 0 0; VolumeTrend.mk "2025-03-29" 1 0;
   VolumeTrend.mk "2025-03-30" 2 0].
Proof. vm_compute. reflexivity. Qed.

(** C8, at an input where the code departs from it.  The host is on Central
    European time and the call is made at 2025-03-30T23:30:00Z, which is
    01:30 of 31 March there, for a window of two days.  [setDate] steps back
    one local day, to 01:30 of 30 March, before the change to summer time:
    that is 00:30 UTC of 30 March, and [toISOString] gives the date of 30
    March for both days of the window.  The result has one entry and not
    one per day. *)
Theorem getVolumeTrends_summer_time_change :
  getVolumeTrends JsDate.europeBerlin2025 1743377400000 2
    (updateEmails Samples.marchMessages init) =
  [VolumeTrend.mk "2025-03-30" 2 0].
Proof. vm_compute. reflexivity. Qed.

End TrendFacts.

(** ** Reasoning about the computations of the mailbox service *)

Module ServiceFacts.
Import SimpleIMAPService.

Section Stable.
Context {P : Type} (io : ImapFlow P).
(** A relation between the world before and after a computation that holds
    across sequencing. *)
Context (R : World P → World P → Prop).
Context (R_refl : ∀ w, R w w) (R_trans : ∀ w1 w2 w3, R w1 w2 → R w2 w3 → R w1 w3).

Local Abbreviation stable := (ServiceSpec.stable R).


Lemma stable_ret {A} (a : A) : stable (ret a).
Proof. intros w. apply R_refl. Qed.

Lemma stable_throw {A} e : stable (throw (A := A) e).
Proof. intros w. apply R_refl. Qed.

Lemma stable_gets {A} (f : World P → A) : stable (gets f).
Proof. intros w. apply R_refl. Qed.

Lemma stable_bind {A B} (m : M P A) (k : A → M P B) :
  stable m → (∀ a, stable (k a)) → stable (bind m k).
Proof.
  intros Hm Hk w. unfold bind. specialize (Hm w).
  destruct (m w) as [[a|e] w']; simpl in *; [|done].
  eapply R_trans; [exact Hm | apply Hk].
Qed.

Lemma stable_tryCatch {A} (m : M P A) h :
  stable m → (∀ e, stable (h e)) → stable (tryCatch m h).
Proof.
  intros Hm Hh w. unfold tryCatch. specialize (Hm w).
  destruct (m w) as [[a|e] w']; simpl in *; [done|].
  eapply R_trans; [exact Hm | apply Hh].
Qed.

Lemma stable_modify f : (∀ w, R w (f w)) → stable (modify f).
Proof. intros Hf w. apply Hf. Qed.

Lemma stable_finally {A} (m : M P A) f :
  stable m → (∀ w, R w (f w)) → stable (finally m f).
Proof.
  intros Hm Hf w. unfold finally. specialize (Hm w).
  destruct (m w) as [r w']; simpl in *.
  eapply R_trans; [exact Hm | apply Hf].
Qed.

Lemma stable_forEach {A S} (body : S → A → M P S) l s :
  (∀ s x, stable (body s x)) → stable (forEach body l s).
Proof.
  intros Hb. revert s. induction l as [|x l IH]; intros s; simpl.
  - apply stable_ret.
  - apply stable_bind; [apply Hb | apply IH].
Qed.

(** The relation is kept by a change of the remote state and of the log,
    and by a change of the connection fields and of the folder cache. *)
Context (R_remote : ∀ w p l,
  R w (mkWorld (client w) (isConnected w) (emailCache w) (folderCache w)
         (connectionConfig w) p l (clock w))).
Context (R_client : ∀ w b, R w (set_client b w)).
Context (R_isConnected : ∀ w b, R w (set_isConnected b w)).
Context (R_config : ∀ w c, R w (set_connectionConfig c w)).
Context (R_folderCache : ∀ w c, R w (set_folderCache c w)).

Lemma stable_call {A} c (op : P → Res A * P) : stable (call c op).
Proof.
  intros w. unfold call. destruct (op (remote w)) as [r p]. apply R_remote.
Qed.

Lemma stable_release path w : R w (release io path w).
Proof. apply R_remote. Qed.

Lemma stable_fetch range : stable (fetch io range).
Proof. apply stable_call. Qed.

Lemma stable_connect config : stable (connect io config).
Proof.
  unfold connect. apply stable_tryCatch.
  - apply stable_bind; [apply stable_modify; auto|]. intros _.
    apply stable_bind; [apply stable_modify; auto|]. intros _.
    apply stable_bind; [apply stable_call|]. intros _.
    apply stable_modify; auto.
  - intros e. apply stable_bind; [apply stable_modify; auto|].
    intros _. apply stable_throw.
Qed.

Lemma stable_ensureConnection : stable (ensureConnection io).
Proof.
  unfold ensureConnection. apply stable_bind; [apply stable_gets|].
  intros w. destruct (negb (isConnected w) || negb (client w));
    [|apply stable_ret].
  unfold reconnect. apply stable_bind; [apply stable_gets|].
  intros [cfg|]; [apply stable_connect | apply stable_throw].
Qed.

Lemma stable_getFolders : stable (getFolders io).
Proof.
  unfold getFolders. apply stable_bind.
  - apply stable_tryCatch.
    + apply stable_bind; [apply stable_ensureConnection|].
      intros _. apply stable_ret.
    + intros _. apply stable_ret.
  - intros connected. destruct (negb connected); [apply stable_gets|].
    apply stable_bind; [apply stable_gets|].
    intros hasClient. destruct (negb hasClient); [apply stable_gets|].
    apply stable_bind; [apply stable_call|].
    intros folders. apply stable_forEach. intros s x.
    apply stable_bind; [apply stable_call|]. intros status.
    apply stable_bind; [|intros _; apply stable_ret].
    apply stable_modify. intros w. apply R_folderCache.
Qed.

(** Storing a message in the cache keeps the relation too. *)
Context (R_cacheEmail : ∀ w e, R w (cacheEmail e w)).

Lemma stable_firstFetched folder items ending :
  stable (firstFetched io folder items ending).
Proof.
  induction items as [|message rest IH]; simpl.
  - destruct ending; [apply stable_throw | apply stable_ret].
  - destruct (FetchItem.source message); [|done].
    destruct (simpleParser io s); [|apply stable_throw].
    apply stable_bind; [apply stable_gets|]. intros now.
    apply stable_bind; [apply stable_modify; auto|].
    intros _. apply stable_ret.
Qed.

Lemma stable_searchFolders emailId folders :
  stable (searchFolders io emailId folders).
Proof.
  induction folders as [|folder rest IH]; simpl; [apply stable_ret|].
  apply stable_bind; [apply stable_call|]. intros _.
  apply stable_bind.
  - apply stable_finally; [|intros w; apply stable_release].
    apply stable_bind; [apply stable_fetch|].
    intros fetched. apply stable_firstFetched.
  - intros [e|]; [apply stable_ret | apply IH].
Qed.

Lemma stable_getEmailById emailId : stable (getEmailById io emailId).
Proof.
  unfold getEmailById. apply stable_bind; [apply stable_gets|].
  intros w. destruct (JsMap.get emailId (emailCache w)); [apply stable_ret|].
  destruct (negb (client w) || negb (isConnected w)); [apply stable_ret|].
  apply stable_bind; [apply stable_getFolders|].
  intros folders. apply stable_searchFolders.
Qed.

End Stable.
End ServiceFacts.

(** ** Folders *)

Module FolderFacts.
Import SimpleIMAPService.

Lemma isProtected_true name f :
  f ∈ protectedFolders →
  JsString.toLowerCase name = JsString.toLowerCase f →
  isProtected name = true.
Proof.
  intros Hf Heq. unfold isProtected. apply existsb_exists.
  exists f. split; [by apply list_elem_of_In | by apply bool_decide_eq_true].
Qed.

(** C5 as the code has it.  For a name that equals one of the protected
    folders up to letter case, [deleteFolder] and [renameFolder] of a
    connected service throw the protected-folder error, and of a service
    that is not connected the not-connected error; either way nothing is
    sent to the client and the state stays as it was.  [createFolder] has
    no such check: when connected it sends [mailboxCreate] for every
    name. *)
Theorem protected_folder_rejected
    {P : Type} (io : ImapFlow P) (name newName f : string) (w : World P) :
  f ∈ protectedFolders →
  JsString.toLowerCase name = JsString.toLowerCase f →
  deleteFolder io name w =
    (Throw (Error (if isActive w
                   then "Cannot delete protected folder: " +:+ name
                   else "IMAP client not connected")), w) ∧
  renameFolder io name newName w =
    (Throw (Error (if isActive w
                   then "Cannot rename protected folder: " +:+ name
                   else "IMAP client not connected")), w) ∧
  (isActive w = true →
   calls (createFolder io name w).2 = calls w ++ [CallMailboxCreate name]).
Proof.
  intros Hf Heq. pose proof (isProtected_true name f Hf Heq) as Hp.
  unfold deleteFolder, renameFolder, createFolder, isActive, bind, gets,
    throw. simpl.
  destruct (isConnected w), (client w); simpl; rewrite ?Hp;
    (split_and!; [reflexivity | reflexivity |]); try discriminate.
  intros _. unfold tryCatch, bind, call.
  destruct (imap_mailboxCreate io name (remote w)) as [[[]|e] p]; simpl;
    [reflexivity|].
  destruct (responseIncludes e "ALREADYEXISTS"); reflexivity.
Qed.

Lemma protected_folder_rejected_witness :
  deleteFolder MockImap.imap "inbox" (MockImap.connected MockImap.inbox5) =
    (Throw (Error "Cannot delete protected folder: inbox"),
     MockImap.connected MockImap.inbox5) ∧
  renameFolder MockImap.imap "inbox" "Mine" (MockImap.connected MockImap.inbox5) =
    (Throw (Error "Cannot rename protected folder: inbox"),
     MockImap.connected MockImap.inbox5).
Proof.
  destruct (protected_folder_rejected MockImap.imap "inbox" "Mine" "INBOX"
              (MockImap.connected MockImap.inbox5)) as (Hd & Hr & _).
  - apply list_elem_of_In. left. reflexivity.
  - reflexivity.
  - split; [exact Hd | exact Hr].
Defined.

(** C5 as stated fails for a service that is not connected: deleting the
    inbox is then refused with the not-connected error, not with the
    protected-folder error. *)
Lemma protected_folder_error_counterexample :
  (deleteFolder MockImap.imap "INBOX" (init MockImap.inbox5 0)).1 =
    Throw (Error "IMAP client not connected") ∧
  (deleteFolder MockImap.imap "INBOX" (init MockImap.inbox5 0)).1 ≠
    Throw (Error "Cannot delete protected folder: INBOX").
Proof. split; [reflexivity | discriminate]. Qed.

End FolderFacts.

(** ** Mutations of one message *)

Module MutationFacts.
Import SimpleIMAPService MutationSpec.

Ltac provider_answer :=
  match goal with
  | |- context [imap_messageFlagsAdd ?io ?a ?b ?c] =>
      destruct (imap_messageFlagsAdd io a b c) as [[[]|?] ?]
  | |- context [imap_messageFlagsRemove ?io ?a ?b ?c] =>
      destruct (imap_messageFlagsRemove io a b c) as [[[]|?] ?]
  | |- context [imap_messageMove ?io ?a ?b ?c] =>
      destruct (imap_messageMove io a b c) as [[[]|?] ?]
  | |- context [imap_messageDelete ?io ?a ?c] =>
      destruct (imap_messageDelete io a c) as [[[]|?] ?]
  end.

Lemma mutation_found
    {P : Type} (io : ImapFlow P) (m : Mutation) (w w1 : World P) email :
  notConnected w = false →
  getEmailById io (target m) w = (Ok (Some email), w1) →
  run io m w =
  let folder := EmailMessage.folder email in
  match imap_getMailboxLock io folder (remote w1) with
  | (Throw e, p1) =>
      (Throw e, afterCalls [CallGetMailboxLock folder] p1 (emailCache w1) w1)
  | (Ok _, p1) =>
      let done := [CallGetMailboxLock folder; providerCall m;
                   CallRelease folder] in
      match providerAnswer io m p1 with
      | (Ok _, p2) =>
          (Ok true,
           afterCalls done (imap_release io folder p2)
             (onCache m (emailCache w1)) w1)
      | (Throw e, p2) =>
          (Throw e,
           afterCalls done (imap_release io folder p2) (emailCache w1) w1)
      end
  end.
Proof.
  intros Hn Hlook.
  destruct m as [emailId b|emailId b|emailId tgt|emailId]; simpl in *;
    unfold markEmailRead, starEmail, moveEmail, deleteEmail, bind at 1, gets;
    simpl; rewrite Hn; unfold bind at 1; rewrite Hlook;
    unfold bind at 1, call at 1;
    destruct (imap_getMailboxLock io (EmailMessage.folder email) (remote w1))
      as [[[]|e] p1]; simpl;
    try reflexivity;
    unfold finally, bind, call, modify, ret, updateCached, afterCalls; simpl;
    try destruct b; simpl;
    provider_answer; simpl;
    try destruct (JsMap.get emailId (emailCache w1)); simpl;
    unfold release, set_emailCache; simpl;
    rewrite <- ?app_assoc; reflexivity.
Qed.

(** C2 as the code has it.  A mutation of a service that is not connected
    returns [false] and changes nothing.  Of a connected service it first
    looks the message up: when the lookup throws, so does the mutation, and
    when the message is not found it throws the not-found error.  When the
    message is found, the folder of the message is locked; if the client
    refuses the lock, its error is thrown and nothing else was sent.
    Otherwise the one call that carries the mutation out is sent and the
    lock is released: the mutation returns [true], with the cache changed
    to match, when the client accepted the call, and it throws the error of
    the client, with the cache as it was, when the client refused it. *)
Theorem mutation_outcomes
    {P : Type} (io : ImapFlow P) (m : Mutation) (w : World P) :
  (notConnected w = true → run io m w = (Ok false, w)) ∧
  (notConnected w = false →
   match getEmailById io (target m) w with
   | (Throw e, w1) => run io m w = (Throw e, w1)
   | (Ok None, w1) => run io m w = (Throw (notFound (target m)), w1)
   | (Ok (Some email), w1) =>
       let folder := EmailMessage.folder email in
       match imap_getMailboxLock io folder (remote w1) with
       | (Throw e, p1) =>
           run io m w =
           (Throw e,
            afterCalls [CallGetMailboxLock folder] p1 (emailCache w1) w1)
       | (Ok _, p1) =>
           let done := [CallGetMailboxLock folder; providerCall m;
                        CallRelease folder] in
           match providerAnswer io m p1 with
           | (Ok _, p2) =>
               run io m w =
               (Ok true,
                afterCalls done (imap_release io folder p2)
                  (onCache m (emailCache w1)) w1)
           | (Throw e, p2) =>
               run io m w =
               (Throw e,
                afterCalls done (imap_release io folder p2)
                  (emailCache w1) w1)
           end
       end
   end).
Proof.
  split.
  - intros Hn. destruct m; simpl;
      unfold markEmailRead, starEmail, moveEmail, deleteEmail, bind, gets, ret;
      simpl; by rewrite Hn.
  - intros Hn.
    destruct (getEmailById io (target m) w) as [[[email|]|e] w1] eqn:Hlook.
    + rewrite (mutation_found io m w w1 email Hn Hlook). cbv zeta.
      destruct (imap_getMailboxLock io (EmailMessage.folder email) (remote w1))
        as [[[]|e] p1]; [|reflexivity].
      by destruct (providerAnswer io m p1) as [[[]|e] p2].
    + destruct m; simpl in *;
      unfold markEmailRead, starEmail, moveEmail, deleteEmail, bind, gets;
      simpl; by rewrite Hn, Hlook.
    + destruct m; simpl in *;
      unfold markEmailRead, starEmail, moveEmail, deleteEmail, bind, gets;
      simpl; by rewrite Hn, Hlook.
Qed.

Lemma mutation_outcomes_witness :
  run MockImap.imap (Delete "1") (init MockImap.inbox5 0) =
    (Ok false, init MockImap.inbox5 0) ∧
  (∃ w', run MockImap.imap (MarkRead "1" true)
           (MockImap.connected MockImap.inbox5) = (Ok true, w') ∧
         last (calls w') = Some (CallRelease "INBOX")) ∧
  (∃ w', run MockImap.imap (Move "9" "Archive")
           (MockImap.connected MockImap.inbox5) =
         (Throw (notFound "9"), w')).
Proof.
  split; [|split].
  - apply (mutation_outcomes MockImap.imap (Delete "1")). reflexivity.
  - pose proof (proj2 (mutation_outcomes MockImap.imap (MarkRead "1" true)
                         (MockImap.connected MockImap.inbox5)) eq_refl) as H.
    remember (run MockImap.imap (MarkRead "1" true)
                (MockImap.connected MockImap.inbox5)) as r eqn:Hr.
    vm_compute in H. subst r.
    eexists. split; [exact H | reflexivity].
  - pose proof (proj2 (mutation_outcomes MockImap.imap (Move "9" "Archive")
                         (MockImap.connected MockImap.inbox5)) eq_refl) as H.
    remember (run MockImap.imap (Move "9" "Archive")
                (MockImap.connected MockImap.inbox5)) as r eqn:Hr.
    vm_compute in H. subst r.
    eexists. exact H.
Defined.

(** C2 as stated fails for a service that is not connected: marking a
    message as read then returns normally, with [false], and nothing was
    sent to the client and nothing changed. *)
Lemma mutation_disconnected_counterexample :
  markEmailRead MockImap.imap "1" true (init MockImap.inbox5 0) =
    (Ok false, init MockImap.inbox5 0) ∧
  calls (init MockImap.inbox5 0) = [].
Proof. split; reflexivity. Qed.

End MutationFacts.

(** ** Pages of messages *)

Module PageFacts.
Import SimpleIMAPService.

Lemma forEach_collectEmail {P : Type} (io : ImapFlow P) folder items acc
    (w : World P) :
  ∃ w', forEach (collectEmail io folder) items acc w =
          (Ok (acc ++ viewsOf io folder (clock w) items), w') ∧
        calls w' = calls w ∧ remote w' = remote w ∧ clock w' = clock w.
Proof.
  revert acc w. induction items as [|message items IH]; intros acc w.
  - exists w. simpl. unfold ret. by rewrite app_nil_r.
  - simpl. unfold collectEmail at 1, viewsOf. simpl.
    destruct (FetchItem.source message) as [source|].
    + destruct (simpleParser io source) as [parsed|e].
      * unfold bind at 1. unfold bind at 1, gets, modify, ret. simpl.
        destruct (IH (acc ++ [listView (toEmailMessage folder (clock w)
                                          message parsed)])
                    (cacheEmail (toEmailMessage folder (clock w) message parsed) w))
          as (w' & -> & Hc & Hr & Hk).
        exists w'. rewrite <- app_assoc. done.
      * unfold bind at 1, ret. simpl. apply IH.
    + unfold bind at 1, ret. simpl. apply IH.
Qed.

Lemma ensureConnection_active {P : Type} (io : ImapFlow P) (w : World P) :
  isActive w = true → ensureConnection io w = (Ok (), w).
Proof.
  unfold isActive, ensureConnection, bind, gets, ret.
  by intros [-> ->]%andb_true_iff.
Qed.

(** What [getEmails] does on a connected service whose client grants the
    lock and whose fetch ends without error: nothing is fetched from an
    empty folder, and otherwise the range from [max(1, T - O - L + 1)] to
    [max(1, T - O)] is, and the messages come back in the reverse of the
    order of the fetch. *)
Lemma getEmails_connected {P : Type} (io : ImapFlow P) folder limit offset
    (w : World P) p1 :
  isActive w = true →
  imap_getMailboxLock io folder (remote w) = (Ok (), p1) →
  1 ≤ limit →
  let total := default 0 (imap_mailboxExists io p1) in
  let range := SeqRange (Z.max 1 (total - offset - limit + 1))
                 (Z.max 1 (total - offset)) in
  (total = 0 →
   ∃ w', getEmails io folder limit offset w = (Ok [], w') ∧
         calls w' = calls w ++ [CallGetMailboxLock folder; CallRelease folder]) ∧
  (total ≠ 0 →
   ∀ items p2, imap_fetch io range p1 = ((items, None), p2) →
   ∃ w', getEmails io folder limit offset w =
           (Ok (rev (viewsOf io folder (clock w) items)), w') ∧
         calls w' = calls w ++ [CallGetMailboxLock folder; CallFetch range;
                                CallRelease folder]).
Proof.
  intros Hact Hlock Hlim total range.
  assert (Hclient : client w = true).
  { unfold isActive in Hact. by apply andb_true_iff in Hact as [_ ?]. }
  assert (Hle : total - offset - limit + 1 ≤ total - offset) by lia.
  assert (Hltb : (Z.max 1 (total - offset) <?
                  Z.max 1 (total - offset - limit + 1)) = false).
  { apply Z.ltb_ge. lia. }
  split; [intros Hzero | intros Hne items p2 Hfetch];
    unfold getEmails; unfold bind at 1, tryCatch, bind at 1;
    rewrite (ensureConnection_active io w Hact); unfold ret at 1; simpl;
    unfold bind at 1, gets at 1; rewrite Hclient; simpl;
    unfold bind at 1, call at 1; rewrite Hlock; unfold finally;
    unfold bind at 1, gets at 1; simpl; fold total; rewrite Hltb; simpl.
  - rewrite Hzero. simpl. eexists. split; [reflexivity|]. simpl.
    by rewrite <- app_assoc.
  - destruct (Z.eqb_spec total 0) as [|_]; [done|].
    unfold bind at 1, fetch, call at 1. simpl. fold range. rewrite Hfetch.
    unfold bind at 1. simpl.
    match goal with
    | |- context [forEach (collectEmail io folder) items [] ?w0] =>
        destruct (forEach_collectEmail io folder items [] w0)
          as (w' & -> & Hc & Hr & Hk)
    end.
    simpl in *. eexists. split; [reflexivity|]. simpl. rewrite Hc.
    by rewrite <- !app_assoc.
Qed.

(** Past the end of a folder that is not empty, that is for an offset of at
    least the number of messages, the range that is fetched is [1:1] for
    every client, and the first message of the folder comes back when it
    parses. *)
Lemma getEmails_past_end {P : Type} (io : ImapFlow P) folder limit offset
    (w : World P) p1 total items p2 :
  isActive w = true →
  imap_getMailboxLock io folder (remote w) = (Ok (), p1) →
  imap_mailboxExists io p1 = Some total →
  1 ≤ limit → 0 < total → total ≤ offset →
  imap_fetch io (SeqRange 1 1) p1 = ((items, None), p2) →
  ∃ w', getEmails io folder limit offset w =
          (Ok (rev (viewsOf io folder (clock w) items)), w') ∧
        calls w' = calls w ++ [CallGetMailboxLock folder; CallFetch (SeqRange 1 1);
                               CallRelease folder].
Proof.
  intros Hact Hlock Hex Hlim Hpos Hoff Hfetch.
  destruct (getEmails_connected io folder limit offset w p1 Hact Hlock Hlim)
    as [_ Hrange].
  rewrite Hex in Hrange. simpl in Hrange.
  rewrite !Z.max_l in Hrange by lia.
  eapply Hrange; [lia | exact Hfetch].
Qed.

(** C3, at an input where the code departs from it.  The inbox holds five
    messages and a page of two is asked for at offset seven, past the end:
    the call fetches the range [1:1] and returns the oldest message, not the
    empty list. *)
Theorem getEmails_offset_past_end :
  ∃ m w',
    getEmails MockImap.imap "INBOX" 2 7 (MockImap.connected MockImap.inbox5) =
      (Ok [m], w') ∧
    EmailMessage.id m = "1" ∧
    calls w' =
      calls (MockImap.connected MockImap.inbox5) ++
      [CallGetMailboxLock "INBOX"; CallFetch (SeqRange 1 1);
       CallRelease "INBOX"].
Proof.
  destruct (getEmails MockImap.imap "INBOX" 2 7
              (MockImap.connected MockImap.inbox5)) as [[l|e] w'] eqn:Hrun;
    [|vm_compute in Hrun; discriminate Hrun].
  destruct l as [|m [|m' l]];
    [vm_compute in Hrun; discriminate Hrun | | vm_compute in Hrun; discriminate Hrun].
  exists m, w'. split; [reflexivity|].
  vm_compute in Hrun. injection Hrun as <- <-. split; reflexivity.
Qed.

(** At offset 0 the page of two holds the two messages that arrived last,
    the later one first. *)
Example getEmails_first_page :
  ∃ m1 m2 w',
    getEmails MockImap.imap "INBOX" 2 0 (MockImap.connected MockImap.inbox5) =
      (Ok [m1; m2], w') ∧
    EmailMessage.id m1 = "5" ∧ EmailMessage.id m2 = "4" ∧
    calls w' =
      calls (MockImap.connected MockImap.inbox5) ++
      [CallGetMailboxLock "INBOX"; CallFetch (SeqRange 4 5);
       CallRelease "INBOX"].
Proof.
  destruct (getEmails MockImap.imap "INBOX" 2 0
              (MockImap.connected MockImap.inbox5)) as [[l|e] w'] eqn:Hrun;
    [|vm_compute in Hrun; discriminate Hrun].
  destruct l as [|m1 [|m2 [|m3 l]]];
    try (vm_compute in Hrun; discriminate Hrun).
  exists m1, m2, w'. split; [reflexivity|].
  vm_compute in Hrun. injection Hrun as <- <- <-. repeat split.
Qed.

End PageFacts.

(** ** Bulk move *)

Module BulkFacts.
Import SimpleIMAPService BulkSpec.

Section Lookup.
Context {P : Type} (io : ImapFlow P).


Lemma has_set_mono {V : Type} (m : JsMap.t string V) k k' v :
  JsMap.has k m = true → JsMap.has k (JsMap.set k' v m) = true.
Proof.
  unfold JsMap.has. destruct (decide (k' = k)) as [->|Hne].
  - by rewrite JsMapFacts.get_set_eq.
  - by rewrite JsMapFacts.get_set_ne.
Qed.

Lemma getEmailById_grows emailId w :
  cacheGrows w (getEmailById io emailId w).2.
Proof.
  apply (ServiceFacts.stable_getEmailById io cacheGrows);
    try (by intros; intros k Hk).
  - intros w1 w2 w3 H12 H23 k Hk. by apply H23, H12.
  - intros w0 e k Hk. simpl. by apply has_set_mono.
Qed.

Lemma lookups_grows emailIds w : cacheGrows w (lookups io emailIds w).2.
Proof.
  revert w. induction emailIds as [|emailId rest IH]; intros w; simpl.
  { by intros k Hk. }
  pose proof (getEmailById_grows emailId w) as Hg.
  destruct (getEmailById io emailId w) as [found w1]. simpl in Hg.
  specialize (IH w1). destruct (lookups io rest w1) as [others w2].
  simpl in *. intros k Hk. by apply IH, Hg.
Qed.

Lemma firstFetched_found folder items ending w e w1 :
  firstFetched io folder items ending w = (Ok (Some e), w1) →
  JsMap.has (EmailMessage.id e) (emailCache w1) = true.
Proof.
  induction items as [|message rest IH]; simpl.
  - destruct ending; unfold throw, ret; intros [=].
  - destruct (FetchItem.source message) as [source|]; [|done].
    destruct (simpleParser io source) as [parsed|err];
      [|unfold throw; intros [=]].
    unfold bind, gets, modify, ret. simpl. intros [= <- <-]. simpl.
    unfold JsMap.has. by rewrite JsMapFacts.get_set_eq.
Qed.

Lemma searchFolders_found emailId folders w e w1 :
  searchFolders io emailId folders w = (Ok (Some e), w1) →
  JsMap.has (EmailMessage.id e) (emailCache w1) = true.
Proof.
  revert w. induction folders as [|folder rest IH]; intros w; simpl.
  - unfold ret. intros [=].
  - unfold bind at 1, call at 1.
    destruct (imap_getMailboxLock io (EmailFolder.path folder) (remote w))
      as [[[]|err] p1]; [|intros [=]].
    unfold bind at 1, finally, bind at 1, fetch, call at 1. simpl.
    destruct (imap_fetch io (ByUid emailId) p1) as [[items ending] p2]. simpl.
    destruct (firstFetched io (EmailFolder.path folder) items ending _)
      as [[[e'|]|err] w2] eqn:Hff; simpl.
    + unfold ret. intros [= <- <-]. simpl.
      apply (firstFetched_found _ _ _ _ _ _ Hff).
    + apply IH.
    + intros [=].
Qed.

Lemma getEmailById_found emailId w o w1 :
  getEmailById io emailId w = (o, w1) →
  resolvesTo emailId o →
  JsMap.has emailId (emailCache w1) = true.
Proof.
  intros Hrun (e & -> & Hid). revert Hrun.
  unfold getEmailById, bind at 1, gets at 1.
  destruct (JsMap.get emailId (emailCache w)) as [cached|] eqn:Hget.
  - unfold ret. intros [= <- <-]. unfold JsMap.has. by rewrite Hget.
  - destruct (negb (client w) || negb (isConnected w)); [intros [=]|].
    unfold bind at 1.
    destruct (getFolders io w) as [[folders|err] w0]; [|intros [=]].
    intros Hs. rewrite <- Hid. by apply (searchFolders_found _ _ _ _ _ Hs).
Qed.

Lemma lookups_resolved_cached emailIds w :
  Forall2 resolvesTo emailIds (lookups io emailIds w).1 →
  ∀ emailId, emailId ∈ emailIds →
    JsMap.has emailId (emailCache (lookups io emailIds w).2) = true.
Proof.
  revert w. induction emailIds as [|x rest IH]; intros w; simpl.
  - intros _ emailId Hin. by apply elem_of_nil in Hin.
  - destruct (getEmailById io x w) as [found w1] eqn:Hx.
    pose proof (lookups_grows rest w1) as Hgrow.
    specialize (IH w1). destruct (lookups io rest w1) as [others w2].
    simpl in *. intros Hall emailId Hin.
    apply Forall2_cons in Hall as [Hres Hall].
    apply elem_of_cons in Hin as [->|Hin].
    + apply Hgrow. by apply (getEmailById_found _ _ _ _ Hx).
    + by apply IH.
Qed.

(** *** The first phase: the lookups *)

Lemma pushId_grouped folder emailId (g : JsMap.t string (list string)) :
  groupedIds (pushId folder emailId g) ≡ₚ groupedIds g ++ [emailId].
Proof.
  unfold pushId, groupedIds. induction g as [|[k v] g IH]; simpl; [done|].
  destruct (decide (folder = k)) as [->|Hne]; simpl.
  - rewrite <- !app_assoc. apply Permutation_app_head, Permutation_app_comm.
  - rewrite IH. by rewrite app_assoc.
Qed.

Lemma resolveOne_resolved acc emailId w :
  resolvesTo emailId (getEmailById io emailId w).1 →
  ∃ g', resolveOne io acc emailId w =
          (Ok (acc.1, g'), (getEmailById io emailId w).2) ∧
        groupedIds g' ≡ₚ groupedIds acc.2 ++ [emailId].
Proof.
  intros (e & He & _). unfold resolveOne, tryCatch, bind.
  destruct (getEmailById io emailId w) as [o w1]. simpl in *. subst o.
  unfold ret. eexists. split; [reflexivity | apply pushId_grouped].
Qed.

Lemma resolveOne_unresolved acc emailId w :
  unresolved (getEmailById io emailId w).1 →
  ∃ pre post,
    resolveOne io acc emailId w =
      (Ok (addFailure (pre +:+ emailId +:+ post) acc.1, acc.2),
       (getEmailById io emailId w).2).
Proof.
  unfold resolveOne, tryCatch, bind, unresolved.
  destruct (getEmailById io emailId w) as [[[e|]|err] w1]; simpl; [done| |];
    intros _; unfold ret; by eexists _, _.
Qed.

Lemma forEach_app {A S : Type} (body : S → A → M P S) l1 l2 s w :
  forEach body (l1 ++ l2) s w = bind (forEach body l1 s) (forEach body l2) w.
Proof.
  revert s w. induction l1 as [|x l1 IH]; intros s w; simpl; [reflexivity|].
  unfold bind. destruct (body s x w) as [[s'|e] w1]; [|reflexivity].
  specialize (IH s' w1). unfold bind in IH. exact IH.
Qed.

Lemma resolveAll_resolved emailIds acc w :
  Forall2 resolvesTo emailIds (lookups io emailIds w).1 →
  ∃ g', forEach (resolveOne io) emailIds acc w =
          (Ok (acc.1, g'), (lookups io emailIds w).2) ∧
        groupedIds g' ≡ₚ groupedIds acc.2 ++ emailIds.
Proof.
  revert acc w. induction emailIds as [|x rest IH]; intros acc w; simpl.
  - intros _. exists acc.2. unfold ret. rewrite app_nil_r. by destruct acc.
  - pose proof (resolveOne_resolved acc x w) as Hone.
    destruct (getEmailById io x w) as [found w1]. simpl in Hone.
    pose proof (λ g1, IH (acc.1, g1) w1) as IH'.
    destruct (lookups io rest w1) as [others w2]. simpl in *.
    intros [Hres Hall]%Forall2_cons.
    destruct (Hone Hres) as (g1 & Hrun & Hperm).
    unfold bind. rewrite Hrun.
    destruct (IH' g1 Hall) as (g' & Hrest & Hperm').
    exists g'. split; [exact Hrest|].
    rewrite Hperm'. simpl. rewrite Hperm. by rewrite <- app_assoc.
Qed.

(** *** The second phase: the moves, for a client that grants every lock
    and carries out every move *)

Context (lock_granted : ∀ path p, (imap_getMailboxLock io path p).1 = Ok ()).
Context (move_done :
  ∀ emailId targetFolder p,
    (imap_messageMove io emailId targetFolder p).1 = Ok ()).


Lemma moveOne_ok targetFolder r emailId w :
  ∃ w', moveOne io targetFolder r emailId w = (Ok (addSuccess r), w') ∧
        emailCache w' = moveCache targetFolder emailId (emailCache w) ∧
        calls w' = calls w ++ [CallMessageMove emailId targetFolder].
Proof.
  unfold moveOne, tryCatch, bind, call, modify, ret.
  pose proof (move_done emailId targetFolder (remote w)) as Hm.
  destruct (imap_messageMove io emailId targetFolder (remote w))
    as [[[]|e] p]; [|discriminate Hm]. simpl.
  eexists. split; [reflexivity|]. unfold updateCached, moveCache. simpl.
  by destruct (JsMap.get emailId (emailCache w)).
Qed.

Lemma moveIds_ok targetFolder emailIds r w :
  ∃ r' w',
    forEach (moveOne io targetFolder) emailIds r w = (Ok r', w') ∧
    succeeded (length emailIds) r r' ∧
    emailCache w' = movedCache targetFolder emailIds (emailCache w) ∧
    calls w' =
      calls w ++ map (fun emailId => CallMessageMove emailId targetFolder)
                   emailIds.
Proof.
  revert r w. induction emailIds as [|x rest IH]; intros r w; simpl.
  - exists r, w. unfold ret, succeeded. rewrite app_nil_r.
    split_and!; first [done | lia].
  - destruct (moveOne_ok targetFolder r x w) as (w1 & Hrun & Hcache & Hcalls).
    unfold bind. rewrite Hrun.
    destruct (IH (addSuccess r) w1) as (r' & w' & Hrest & (Hs & Hf & He) & Hc & Hl).
    exists r', w'. split; [exact Hrest|]. unfold succeeded, movedCache.
    simpl in *. rewrite Hc, Hl, Hcache, Hcalls, <- app_assoc.
    split_and!; first [done | lia].
Qed.

Lemma moveGroups_ok targetFolder (groups : JsMap.t string (list string)) r w :
  ∃ r' w' log,
    forEach (moveGroup io targetFolder) (JsMap.entries groups) r w =
      (Ok r', w') ∧
    succeeded (length (groupedIds groups)) r r' ∧
    emailCache w' =
      movedCache targetFolder (groupedIds groups) (emailCache w) ∧
    calls w' = calls w ++ log ∧
    ∀ emailId, emailId ∈ groupedIds groups →
      CallMessageMove emailId targetFolder ∈ log.
Proof.
  unfold JsMap.entries, groupedIds.
  revert r w. induction groups as [|[source ids] groups IH]; intros r w; simpl.
  - exists r, w, []. unfold ret, succeeded. rewrite app_nil_r.
    split_and!; try first [done | lia]. intros emailId Hin.
    by apply elem_of_nil in Hin.
  - unfold bind at 1, moveGroup at 1, bind at 1, call at 1. simpl.
    pose proof (lock_granted source (remote w)) as Hl.
    destruct (imap_getMailboxLock io source (remote w)) as [[[]|e] p];
      [|discriminate Hl]. unfold finally.
    match goal with
    | |- context [forEach (moveOne io targetFolder) ids r ?w0] =>
        destruct (moveIds_ok targetFolder ids r w0)
          as (r1 & w1 & -> & (Hs1 & Hf1 & He1) & Hc1 & Hl1)
    end.
    simpl in *.
    destruct (IH r1 (release io source w1))
      as (r' & w' & log & -> & (Hs & Hf & He) & Hc & Hlog & Hin).
    exists r', w'. eexists. unfold succeeded, movedCache in *.
    split; [reflexivity|].
    rewrite length_app, fold_left_app.
    simpl in *. rewrite Hc, Hc1, Hlog, Hl1, <- !app_assoc.
    split_and!; try first [done | lia | congruence].
    intros emailId [Hid|Hid]%elem_of_app; simpl.
    + apply elem_of_cons. right. apply elem_of_app. left.
      apply list_elem_of_fmap. by exists emailId.
    + apply elem_of_cons. right. apply elem_of_app. right.
      apply elem_of_cons. right. by apply Hin.
Qed.

Lemma moveCache_has targetFolder emailId c k :
  JsMap.has k (moveCache targetFolder emailId c) = JsMap.has k c.
Proof.
  unfold moveCache. destruct (JsMap.get emailId c) as [e|] eqn:Hg; [|done].
  unfold JsMap.has. destruct (decide (emailId = k)) as [->|Hne].
  - by rewrite JsMapFacts.get_set_eq, Hg.
  - by rewrite JsMapFacts.get_set_ne.
Qed.

Lemma moveCache_cachedIn targetFolder emailId c k :
  cachedIn targetFolder k c → cachedIn targetFolder k (moveCache targetFolder emailId c).
Proof.
  intros (e & Hg & Hf). unfold moveCache, cachedIn.
  destruct (JsMap.get emailId c) as [e'|] eqn:Hg'; [|by exists e].
  destruct (decide (emailId = k)) as [->|Hne].
  - rewrite JsMapFacts.get_set_eq. by eexists.
  - rewrite JsMapFacts.get_set_ne by done. by exists e.
Qed.

Lemma moveCache_moves targetFolder emailId c :
  JsMap.has emailId c = true →
  cachedIn targetFolder emailId (moveCache targetFolder emailId c).
Proof.
  unfold JsMap.has, moveCache, cachedIn.
  destruct (JsMap.get emailId c) as [e|]; [|done]. intros _.
  rewrite JsMapFacts.get_set_eq. by eexists.
Qed.

Lemma movedCache_cachedIn targetFolder emailIds c k :
  cachedIn targetFolder k c →
  cachedIn targetFolder k (movedCache targetFolder emailIds c).
Proof.
  unfold movedCache. revert c.
  induction emailIds as [|x rest IH]; intros c Hc; simpl; [done|].
  by apply IH, moveCache_cachedIn.
Qed.

Lemma movedCache_moves targetFolder emailIds c k :
  k ∈ emailIds → JsMap.has k c = true →
  cachedIn targetFolder k (movedCache targetFolder emailIds c).
Proof.
  revert c. induction emailIds as [|x rest IH]; intros c Hin Hhas.
  - by apply elem_of_nil in Hin.
  - unfold movedCache. simpl. fold (movedCache targetFolder rest).
    destruct (decide (k = x)) as [->|Hne].
    + by apply movedCache_cachedIn, moveCache_moves.
    + apply elem_of_cons in Hin as [?|Hin]; [done|].
      apply IH; [done|]. by rewrite moveCache_has.
Qed.

End Lookup.
(** C4. In a bulk move of [N] identifiers of which one fails to resolve,
    while the others resolve and the client grants every lock and carries
    out every move, [bulkMoveEmails] returns the aggregate with [success]
    equal to [N - 1] and [failed] equal to 1; its one error names the
    identifier that failed; every other identifier was moved after the
    lookups, and its entry in the cache lies in the target folder. *)
Theorem bulkMoveEmails_one_failure
    {P : Type} (io : ImapFlow P) (ids1 : list string) (x : string)
    (ids2 : list string) (targetFolder : string) (w : World P) :
  notConnected w = false →
  (∀ path p, (imap_getMailboxLock io path p).1 = Ok ()) →
  (∀ emailId target p, (imap_messageMove io emailId target p).1 = Ok ()) →
  let before := lookups io ids1 w in
  let failing := getEmailById io x before.2 in
  let after := lookups io ids2 failing.2 in
  Forall2 resolvesTo ids1 before.1 →
  unresolved failing.1 →
  Forall2 resolvesTo ids2 after.1 →
  ∃ r w' log,
    bulkMoveEmails io (ids1 ++ x :: ids2) targetFolder w = (Ok r, w') ∧
    BulkResult.success r = (length (ids1 ++ x :: ids2) - 1)%nat ∧
    BulkResult.failed r = 1%nat ∧
    (∃ pre post, BulkResult.errors r = [pre +:+ x +:+ post]) ∧
    calls w' = calls after.2 ++ log ∧
    ∀ emailId, emailId ∈ ids1 ++ ids2 →
      CallMessageMove emailId targetFolder ∈ log ∧
      cachedIn targetFolder emailId (emailCache w').
Proof.
  intros Hn Hlock Hmove before failing after H1 Hx H2.
  unfold bulkMoveEmails, bind at 1, gets. rewrite Hn. unfold bind at 1.
  rewrite forEach_app. unfold bind at 1.
  destruct (resolveAll_resolved io ids1 (BulkResult.mk 0 0 [], JsMap.empty) w H1)
    as (g1 & -> & Hperm1).
  cbn [forEach]. unfold bind at 1.
  destruct (resolveOne_unresolved io (BulkResult.mk 0 0 [], g1) x before.2 Hx)
    as (pre & post & Hrunx).
  simpl fst in *. simpl snd in *. fold before. rewrite Hrunx. fold failing.
  destruct (resolveAll_resolved io ids2
              (addFailure (pre +:+ x +:+ post) (BulkResult.mk 0 0 []), g1)
              failing.2 H2) as (g2 & -> & Hperm2).
  fold after. simpl fst in *. simpl snd in *.
  destruct (moveGroups_ok io Hlock Hmove targetFolder g2
              (addFailure (pre +:+ x +:+ post) (BulkResult.mk 0 0 [])) after.2)
    as (r & w' & log & -> & (Hs & Hf & He) & Hcache & Hcalls & Hlog).
  assert (Hperm : groupedIds g2 ≡ₚ ids1 ++ ids2).
  { rewrite Hperm2, Hperm1. done. }
  exists r, w', log. split_and!.
  - done.
  - rewrite Hs, Hperm, !length_app. simpl. lia.
  - rewrite Hf. done.
  - exists pre, post. by rewrite He.
  - done.
  - intros emailId Hin. split.
    + apply Hlog. by rewrite Hperm.
    + rewrite Hcache. apply movedCache_moves; [by rewrite Hperm|].
      apply elem_of_app in Hin as [Hin|Hin].
      * apply lookups_grows, getEmailById_grows.
        by apply lookups_resolved_cached.
      * by apply lookups_resolved_cached.
Qed.

(** The batch of the specification: five identifiers, the third of which is
    not in the mailbox. *)
Lemma bulkMoveEmails_one_failure_witness :
  ∃ r w' log,
    bulkMoveEmails MockImap.imap (["1"; "2"] ++ "9" :: ["4"; "5"]) "Archive"
      (MockImap.connected MockImap.inbox5) = (Ok r, w') ∧
    BulkResult.success r = (length (["1"; "2"] ++ "9" :: ["4"; "5"]) - 1)%nat ∧
    BulkResult.failed r = 1%nat ∧
    (∃ pre post, BulkResult.errors r = [pre +:+ "9" +:+ post]) ∧
    calls w' =
      calls (lookups MockImap.imap ["4"; "5"]
               (getEmailById MockImap.imap "9"
                  (lookups MockImap.imap ["1"; "2"]
                     (MockImap.connected MockImap.inbox5)).2).2).2 ++ log ∧
    ∀ emailId, emailId ∈ ["1"; "2"] ++ ["4"; "5"] →
      CallMessageMove emailId "Archive" ∈ log ∧
      cachedIn "Archive" emailId (emailCache w').
Proof.
  apply (bulkMoveEmails_one_failure MockImap.imap ["1"; "2"] "9" ["4"; "5"]
           "Archive" (MockImap.connected MockImap.inbox5)).
  - reflexivity.
  - intros path p. reflexivity.
  - intros emailId target p. reflexivity.
  - vm_compute. repeat constructor; eexists; split; reflexivity.
  - vm_compute. exact I.
  - vm_compute. repeat constructor; eexists; split; reflexivity.
Defined.

End BulkFacts.

(** ** Sorting *)

Module SortFacts.
Import Analytics AnalyticsQueries.

Section Descending.
Context {A : Type} (key : A → nat).

Lemma insertSorted_perm le (x : A) l : insertSorted le x l ≡ₚ x :: l.
Proof.
  induction l as [|y l IH]; simpl; [done|].
  destruct (le x y); [done|]. rewrite IH. apply Permutation_swap.
Qed.

Lemma sortBy_perm le (l : list A) : sortBy le l ≡ₚ l.
Proof.
  unfold sortBy. induction l as [|x l IH]; simpl; [done|].
  by rewrite insertSorted_perm, IH.
Qed.

Lemma nonIncreasing_cons x (l : list A) :
  nonIncreasing key (x :: l) ↔
  (∀ y, y ∈ l → (key y ≤ key x)%nat) ∧ nonIncreasing key l.
Proof.
  split.
  - intros H. split.
    + intros y [j Hj]%list_elem_of_lookup_1.
      apply (H 0%nat (S j) x y); [lia | done | done].
    + intros i j a b Hij Ha Hb. apply (H (S i) (S j) a b); [lia | done | done].
  - intros [Hx Hl] [|i] [|j] a b Hij Ha Hb; try lia; simpl in *.
    + injection Ha as <-. apply Hx. by eapply list_elem_of_lookup_2.
    + apply (Hl i j a b); [lia | done | done].
Qed.

Lemma nonIncreasing_nil : nonIncreasing key [].
Proof. intros i j a b _ Ha. by rewrite lookup_nil in Ha. Qed.

Lemma insertSorted_nonIncreasing x l :
  nonIncreasing key l →
  nonIncreasing key (insertSorted (descending key) x l).
Proof.
  induction l as [|y l IH]; intros Hl; simpl.
  - apply nonIncreasing_cons. split; [|apply nonIncreasing_nil].
    intros y Hy. by apply elem_of_nil in Hy.
  - apply nonIncreasing_cons in Hl as Hcons. destruct Hcons as [Hy Htl].
    unfold descending at 1. destruct (Nat.leb_spec (key y) (key x)) as [Hle|Hlt].
    + apply nonIncreasing_cons. split; [|done].
      intros z [->|Hz]%elem_of_cons; [done|]. specialize (Hy z Hz). lia.
    + apply nonIncreasing_cons. split; [|by apply IH].
      intros z Hz. rewrite insertSorted_perm in Hz.
      apply elem_of_cons in Hz as [->|Hz]; [lia | by apply Hy].
Qed.

Lemma sortBy_nonIncreasing (l : list A) :
  nonIncreasing key (sortBy (descending key) l).
Proof.
  unfold sortBy. induction l as [|x l IH]; simpl.
  - apply nonIncreasing_nil.
  - by apply insertSorted_nonIncreasing.
Qed.

Lemma take_nonIncreasing n (l : list A) :
  nonIncreasing key l → nonIncreasing key (take n l).
Proof.
  intros Hl i j a b Hij Ha Hb.
  apply lookup_take_Some in Ha as [Ha _]. apply lookup_take_Some in Hb as [Hb _].
  by apply (Hl i j a b).
Qed.

(** The first [n] elements of a list in descending order are its greatest:
    none of the others has a greater key. *)
Lemma take_drop_top n (l : list A) :
  nonIncreasing key l →
  ∀ a b, a ∈ take n l → b ∈ drop n l → (key b ≤ key a)%nat.
Proof.
  intros Hl a b [i Hi]%list_elem_of_lookup_1 [j Hj]%list_elem_of_lookup_1.
  apply lookup_take_Some in Hi as [Hi Hin]. rewrite lookup_drop in Hj.
  apply (Hl i (n + j)%nat a b); [lia | done | done].
Qed.

End Descending.

Lemma slice0_take {A : Type} limit (l : list A) :
  ∃ n, SimpleIMAPService.slice0 limit l = take n l ∧
       (0 ≤ limit → n = Z.to_nat limit).
Proof.
  unfold SimpleIMAPService.slice0. destruct (Z.leb_spec 0 limit).
  - by eexists.
  - eexists. split; [done | lia].
Qed.

End SortFacts.

(** ** Rankings of the analytics engine *)

Module RankingFacts.
Import Analytics AnalyticsQueries SortFacts.

Lemma elem_of_entries {K V : Type} `{EqDecision K} (m : JsMap.t K V) k v :
  NoDup (JsMap.keys m) → (k, v) ∈ m ↔ JsMap.get k m = Some v.
Proof.
  induction m as [|[k' v'] m IH]; simpl; intros Hnd.
  - split; [intros H; by apply elem_of_nil in H | done].
  - apply NoDup_cons in Hnd as [Hk Hnd]. rewrite elem_of_cons.
    destruct (decide (k = k')) as [->|Hne].
    + split.
      * intros [[= ->]|Hin]; [done|]. destruct Hk.
        apply list_elem_of_fmap. by exists (k', v).
      * intros [= ->]. by left.
    + rewrite <- (IH Hnd). split; [|by right].
      intros [[= -> ->]|Hin]; done.
Qed.

(** [getContacts(limit)] returns contacts of the map, each once, in
    descending order of their number of interactions, and none of the
    contacts it leaves out has more interactions than one it returns.  For a
    limit that is not negative it returns as many contacts as the limit
    allows. *)
Theorem getContacts_ranked (limit : option Z) (s : AnalyticsService) :
  ∃ rest,
    getContacts limit s ++ rest ≡ₚ JsMap.values (contacts s) ∧
    nonIncreasing interactionCount (getContacts limit s) ∧
    (∀ c c', c ∈ getContacts limit s → c' ∈ rest →
       (interactionCount c' ≤ interactionCount c)%nat) ∧
    (0 ≤ default 100 limit →
     length (getContacts limit s) =
       Nat.min (Z.to_nat (default 100 limit)) (JsMap.size (contacts s))).
Proof.
  unfold getContacts.
  destruct (slice0_take (default 100 limit)
              (sortBy (descending interactionCount) (JsMap.values (contacts s))))
    as (n & -> & Hn).
  exists (drop n (sortBy (descending interactionCount)
                    (JsMap.values (contacts s)))).
  split_and!.
  - rewrite take_drop. apply sortBy_perm.
  - apply take_nonIncreasing, sortBy_nonIncreasing.
  - apply take_drop_top, sortBy_nonIncreasing.
  - intros Hpos. rewrite length_take, (Permutation_length (sortBy_perm _ _)).
    rewrite (Hn Hpos). unfold JsMap.size, JsMap.values. by rewrite length_map.
Qed.

Lemma getContacts_ranked_witness :
  length (getContacts (Some 2) (updateEmails Samples.testMessages init)) =
  Nat.min (Z.to_nat (default 100 (Some 2)))
    (JsMap.size (contacts (updateEmails Samples.testMessages init))).
Proof.
  destruct (getContacts_ranked (Some 2) (updateEmails Samples.testMessages init))
    as (rest & _ & _ & _ & Hlen).
  apply Hlen. simpl. lia.
Defined.

Lemma getHours_range tz t : 0 ≤ getHours tz t < 24.
Proof. unfold getHours, HourFromTime. apply Z.mod_pos_bound. lia. Qed.

Lemma hourCounts_spec tz (s : AnalyticsService) :
  JsMap.keys (hourCounts tz s) = map Z.of_nat (seq 0 24) ∧
  ∀ h, 0 ≤ h < 24 →
    JsMap.get h (hourCounts tz s) =
    Some (length (filter (λ e, getHours tz (EmailMessage.date e) = h) (emails s))).
Proof.
  unfold hourCounts.
  set (m0 := fold_left (λ (counts : JsMap.t Z nat) (i : nat),
                          JsMap.set (Z.of_nat i) 0%nat counts)
               (seq 0 24) JsMap.empty).
  induction (emails s) as [|e es IH] using rev_ind.
  - split; [reflexivity|]. intros h Hh. cbn [fold_left]. subst m0.
    assert (Hn : h = Z.of_nat (Z.to_nat h)) by lia. rewrite Hn.
    assert (Hlt : (Z.to_nat h < 24)%nat) by lia.
    generalize dependent (Z.to_nat h). intros n _ Hlt.
    do 24 (destruct n as [|n]; [reflexivity|]). lia.
  - rewrite fold_left_app. cbn [fold_left].
    destruct IH as [Hkeys Hget].
    pose proof (getHours_range tz (EmailMessage.date e)) as Hr.
    split.
    + rewrite JsMapFacts.keys_set. unfold JsMap.has.
      by rewrite (Hget _ Hr).
    + intros h Hh. rewrite filter_app, length_app, filter_cons, filter_nil.
      destruct (decide (getHours tz (EmailMessage.date e) = h)) as [Heq|Hne].
      * rewrite Heq. rewrite JsMapFacts.get_set_eq, (Hget h Hh). simpl.
        f_equal.
      * rewrite JsMapFacts.get_set_ne by done. rewrite (Hget h Hh).
        simpl. f_equal. lia.
Qed.

(** [calculatePeakActivityHours] always returns ten entries, for ten
    different hours of the day, in descending order of their counts; the
    count of an entry is the number of messages whose local hour it is, and
    no hour that is left out has a greater count than one that is
    returned. *)
Theorem peakActivityHours_top10 tz (s : AnalyticsService) :
  let messagesAt h :=
    length (filter (λ e, getHours tz (EmailMessage.date e) = h) (emails s)) in
  let result := calculatePeakActivityHours tz s in
  length result = 10%nat ∧
  nonIncreasing HourCount.count result ∧
  NoDup (map HourCount.hour result) ∧
  (∀ hc, hc ∈ result →
     0 ≤ HourCount.hour hc < 24 ∧
     HourCount.count hc = messagesAt (HourCount.hour hc)) ∧
  (∀ h hc, 0 ≤ h < 24 → h ∉ map HourCount.hour result → hc ∈ result →
     (messagesAt h ≤ HourCount.count hc)%nat).
Proof.
  intros messagesAt result.
  destruct (hourCounts_spec tz s) as [Hkeys Hget].
  set (all := map (λ '(hour, count), HourCount.mk hour count)
                (JsMap.entries (hourCounts tz s))).
  set (sorted := sortBy (descending HourCount.count) all).
  assert (Hperm : sorted ≡ₚ all) by apply sortBy_perm.
  assert (Hhours : map HourCount.hour all = map Z.of_nat (seq 0 24)).
  { rewrite <- Hkeys. unfold all, JsMap.entries, JsMap.keys.
    rewrite map_map. apply map_ext. by intros [h n]. }
  assert (Hnd : NoDup (map Z.of_nat (seq 0 24))).
  { apply NoDup_fmap_2; [apply Nat2Z.inj' | apply NoDup_seq]. }
  assert (Hndk : NoDup (JsMap.keys (hourCounts tz s))).
  { rewrite Hkeys. exact Hnd. }
  assert (Hall : ∀ hc, hc ∈ all →
            0 ≤ HourCount.hour hc < 24 ∧
            HourCount.count hc = messagesAt (HourCount.hour hc)).
  { intros hc [[h n] [-> Hin]]%list_elem_of_fmap. simpl.
    assert (Hh : 0 ≤ h < 24).
    { assert (Hk : h ∈ JsMap.keys (hourCounts tz s)).
      { apply list_elem_of_fmap. by exists (h, n). }
      rewrite Hkeys in Hk. apply list_elem_of_fmap in Hk as [i [-> Hi]].
      apply elem_of_seq in Hi. lia. }
    split; [done|].
    apply (proj1 (elem_of_entries _ _ _ Hndk)) in Hin.
    rewrite (Hget h Hh) in Hin. by injection Hin as <-. }
  assert (Hlen : length sorted = 24%nat).
  { rewrite (Permutation_length Hperm).
    rewrite <- (length_map HourCount.hour), Hhours. reflexivity. }
  assert (Hsortednd : NoDup (map HourCount.hour sorted)).
  { rewrite Hperm, Hhours. exact Hnd. }
  change result with (take 10 sorted). split_and!.
  - rewrite length_take, Hlen. reflexivity.
  - apply take_nonIncreasing, sortBy_nonIncreasing.
  - rewrite <- (take_drop 10 sorted), map_app in Hsortednd.
    by apply NoDup_app in Hsortednd as [? _].
  - intros hc Hin. apply Hall.
    rewrite <- Hperm, <- (take_drop 10 sorted), elem_of_app. by left.
  - intros h hc Hh Hout Hin.
    assert (Hhin : h ∈ map HourCount.hour sorted).
    { rewrite Hperm, Hhours. apply list_elem_of_fmap. exists (Z.to_nat h).
      split; [lia|]. apply elem_of_seq. lia. }
    rewrite <- (take_drop 10 sorted), map_app, elem_of_app in Hhin.
    destruct Hhin as [?|Hdrop]; [done|].
    apply list_elem_of_fmap in Hdrop as [hc' [-> Hdrop]].
    assert (Hc' : HourCount.count hc' = messagesAt (HourCount.hour hc')).
    { apply Hall. rewrite <- Hperm, <- (take_drop 10 sorted), elem_of_app.
      by right. }
    rewrite <- Hc'.
    by apply (take_drop_top HourCount.count 10 sorted
                (sortBy_nonIncreasing _ _) hc hc').
Qed.

Lemma peakActivityHours_top10_witness :
  0 ≤ 10 < 24 ∧
  2%nat =
  length (filter (λ e, getHours (JsDate.fixedOffset 0) (EmailMessage.date e) = 10)
            (emails (updateEmails Samples.testMessages init))).
Proof.
  pose proof (peakActivityHours_top10 (JsDate.fixedOffset 0)
                (updateEmails Samples.testMessages init)) as H.
  cbv zeta in H. destruct H as (_ & _ & _ & H & _).
  apply (H (HourCount.mk 10 2)). vm_compute. apply list_elem_of_here.
Defined.


End RankingFacts.

(** ** The most active contact and the most used folder *)

Module StatsFacts.
Import Analytics AnalyticsQueries ContactSpec.

Section ArgMax.
Context {A : Type} (count : A → nat).

Lemma argMax_fold (entries : list (string * A)) best m :
  let r := fold_left
             (fun '(best, maxCount) '(k, v) =>
                if (maxCount <? count v)%nat then (k, count v)
                else (best, maxCount))
             entries (best, m) in
  (m ≤ r.2)%nat ∧
  (∀ kv, kv ∈ entries → (count kv.2 ≤ r.2)%nat) ∧
  (r = (best, m) ∨
   ∃ v, (r.1, v) ∈ entries ∧ count v = r.2 ∧ (m < r.2)%nat).
Proof.
  revert best m. induction entries as [|[k v] entries IH]; intros best m; simpl.
  - split_and!; [lia | intros kv H; by apply elem_of_nil in H | by left].
  - destruct (Nat.ltb_spec m (count v)) as [Hlt|Hge].
    + destruct (IH k (count v)) as (Hm & Hall & Hbest).
      split_and!; [lia | |].
      * intros kv [->|Hin]%elem_of_cons; [done | by apply Hall].
      * right. destruct Hbest as [->|(v' & Hin & Hc & Hgt)].
        -- exists v. simpl. split_and!; [by left | done | done].
        -- exists v'. split_and!; [by right | done | lia].
    + destruct (IH best m) as (Hm & Hall & Hbest).
      split_and!; [done | |].
      * intros kv [->|Hin]%elem_of_cons; [simpl; lia | by apply Hall].
      * destruct Hbest as [->|(v' & Hin & Hc & Hgt)]; [by left|].
        right. exists v'. split_and!; [by right | done | done].
Qed.

Lemma argMax_spec (entries : list (string * A)) fallback :
  (argMax count entries fallback = fallback ∧
   ∀ kv, kv ∈ entries → count kv.2 = 0%nat) ∨
  (∃ v, (argMax count entries fallback, v) ∈ entries ∧
        (0 < count v)%nat ∧
        ∀ kv, kv ∈ entries → (count kv.2 ≤ count v)%nat).
Proof.
  unfold argMax.
  destruct (argMax_fold entries fallback 0) as (_ & Hall & Hbest).
  destruct Hbest as [Heq|(v & Hin & Hc & Hgt)].
  - left. rewrite Heq in *. split; [done|].
    intros kv Hkv. specialize (Hall kv Hkv). simpl in Hall. lia.
  - right. exists v. split_and!; [done | lia |].
    intros kv Hkv. rewrite Hc. by apply Hall.
Qed.

End ArgMax.

Lemma folderCounts_spec (es : list EmailMessage.t) :
  NoDup (JsMap.keys (folderCounts es)) ∧
  ∀ f, JsMap.get f (folderCounts es) =
       if decide (inFolder f es = 0%nat) then None else Some (inFolder f es).
Proof.
  unfold folderCounts, inFolder.
  induction es as [|e es IH] using rev_ind.
  - split; [apply NoDup_nil_2 | done].
  - rewrite fold_left_app. cbn [fold_left]. destruct IH as [Hnd Hget].
    split; [by apply JsMapFacts.NoDup_keys_set|].
    intros f. rewrite filter_app, length_app, filter_cons, filter_nil.
    destruct (decide (EmailMessage.folder e = f)) as [Heq|Hne].
    + subst f. rewrite JsMapFacts.get_set_eq, (Hget _). simpl.
      repeat case_decide; simpl; first [lia | f_equal; lia].
    + rewrite JsMapFacts.get_set_ne by done. rewrite (Hget f). simpl.
      rewrite Nat.add_0_r. done.
Qed.

(** The contact map of a snapshot is the one that the interactions of the
    snapshot give. *)
Lemma contacts_updateEmails S svc :
  tracks (interactions S) (contacts (updateEmails S svc)).
Proof.
  unfold updateEmails, processContacts. simpl.
  rewrite ContactFacts.processContacts_interactions.
  apply ContactFacts.tracks_fold.
Qed.

Lemma summarizes_positive ints a c :
  summarizes ints a c → (0 < interactionCount c)%nat.
Proof.
  intros (_ & Hr & Hs & (i & Hi & Ha & _) & _). unfold interactionCount.
  destruct (kind i) eqn:Hk.
  - assert (Hin : i ∈ filter (sent_to a) ints).
    { apply list_elem_of_filter. by split. }
    rewrite Hs. destruct (filter (sent_to a) ints); [by apply elem_of_nil in Hin|].
    simpl. lia.
  - assert (Hin : i ∈ filter (received_from a) ints).
    { apply list_elem_of_filter. by split. }
    rewrite Hr. destruct (filter (received_from a) ints);
      [by apply elem_of_nil in Hin|].
    simpl. lia.
Qed.

(** After [updateEmails(S)], for a snapshot [S] that the engine can
    spread, [getEmailStats()] returns statistics that name as
    [mostUsedFolder] a folder that holds the greatest number of messages of
    [S], and "INBOX" for an empty [S], and that name as [mostActiveContact]
    a contact with the greatest number of interactions, and "N/A" when [S]
    has no interaction. *)
Theorem getEmailStats_most
    (engine : Engine) (S : list EmailMessage.t) (svc : AnalyticsService)
    (now : Z) :
  fits engine S →
  let s := updateEmails S svc in
  ∃ stats,
  fst (getEmailStats engine now s) = Ok stats ∧
  (S = [] → EmailStats.mostUsedFolder stats = "INBOX") ∧
  (S ≠ [] →
   (0 < inFolder (EmailStats.mostUsedFolder stats) S)%nat ∧
   ∀ f, (inFolder f S ≤ inFolder (EmailStats.mostUsedFolder stats) S)%nat) ∧
  (interactions S = [] → EmailStats.mostActiveContact stats = "N/A") ∧
  (interactions S ≠ [] →
   ∃ c, JsMap.get (EmailStats.mostActiveContact stats) (contacts s) = Some c ∧
        ∀ a c', JsMap.get a (contacts s) = Some c' →
                (interactionCount c' ≤ interactionCount c)%nat).
Proof.
  intros Hfit s.
  destruct (AnalyticsFacts.getEmailStats_fresh engine now S svc Hfit)
    as [average Hfresh]. fold s in Hfresh.
  exists (statsWith average s). split; [done|].
  assert (Hemails : emails s = S) by reflexivity.
  destruct (folderCounts_spec S) as [Hfnd Hfget].
  destruct (contacts_updateEmails S svc) as [Hcnd Hcall]. fold s in Hcnd, Hcall.
  unfold statsWith. cbn [EmailStats.mostUsedFolder
    EmailStats.mostActiveContact]. rewrite Hemails.
  split_and!.
  - intros ->. reflexivity.
  - intros Hne.
    destruct (argMax_spec (λ n : nat, n) (JsMap.entries (folderCounts S)) "INBOX")
      as [[_ Hzero]|(v & Hin & Hpos & Hmax)].
    + destruct S as [|e S']; [done|]. exfalso.
      specialize (Hfget (EmailMessage.folder e)).
      assert (Hc : inFolder (EmailMessage.folder e) (e :: S') ≠ 0%nat).
      { unfold inFolder. rewrite filter_cons, decide_True by done. simpl. lia. }
      rewrite decide_False in Hfget by done.
      apply (RankingFacts.elem_of_entries _ _ _ Hfnd) in Hfget.
      specialize (Hzero _ Hfget). simpl in Hzero. done.
    + unfold JsMap.entries in *.
      apply (RankingFacts.elem_of_entries _ _ _ Hfnd) in Hin.
      rewrite Hfget in Hin. case_decide; [done|]. injection Hin as <-.
      split; [lia|]. intros f.
      destruct (decide (inFolder f S = 0%nat)) as [->|Hf]; [lia|].
      pose proof (Hfget f) as Hg. rewrite decide_False in Hg by done.
      apply (RankingFacts.elem_of_entries _ _ _ Hfnd) in Hg.
      apply (Hmax _ Hg).
  - intros Hnone.
    destruct (contacts s) as [|[a c] cs] eqn:Hcs; [reflexivity|]. exfalso.
    destruct (Hcall a) as [_ Hsome].
    assert (Hg : JsMap.get a (contacts s) = Some c).
    { rewrite Hcs. simpl. by rewrite decide_True. }
    rewrite <- Hcs in Hsome.
    destruct (Hsome c Hg) as (_ & _ & _ & (i & Hi & _) & _).
    rewrite Hnone in Hi. by apply elem_of_nil in Hi.
  - intros Hsome.
    destruct (argMax_spec interactionCount (JsMap.entries (contacts s)) "N/A")
      as [[_ Hzero]|(c & Hin & Hpos & Hmax)].
    + exfalso. destruct (interactions S) as [|i ints] eqn:Hints; [done|].
      destruct (Hcall (address i)) as [Hnone Hsum].
      destruct (JsMap.get (address i) (contacts s)) as [c|] eqn:Hg.
      * pose proof (summarizes_positive _ _ _ (Hsum c eq_refl)) as Hpos.
        apply (RankingFacts.elem_of_entries _ _ _ Hcnd) in Hg.
        specialize (Hzero _ Hg). simpl in Hzero. lia.
      * apply (Hnone eq_refl i); [by left | done].
    + unfold JsMap.entries in *. exists c. split.
      * by apply (RankingFacts.elem_of_entries _ _ _ Hcnd).
      * intros a c' Hg.
        apply (RankingFacts.elem_of_entries _ _ _ Hcnd) in Hg.
        apply (Hmax _ Hg).
Qed.

Lemma getEmailStats_most_witness :
  ∃ stats,
    fst (getEmailStats Samples.engine 0
           (updateEmails Samples.testMessages init)) = Ok stats ∧
    (0 < inFolder (EmailStats.mostUsedFolder stats) Samples.testMessages)%nat.
Proof.
  destruct (getEmailStats_most Samples.engine Samples.testMessages init 0)
    as (stats & Hstats & _ & Hused & _).
  - unfold fits. vm_compute. discriminate.
  - exists stats. split; [exact Hstats|]. apply Hused. discriminate.
Defined.

(** After [updateEmails(S)], for a snapshot [S] that the engine can
    spread, [getEmailStats()] returns statistics whose [totalContacts] is
    the number of distinct addresses that occur in [S] as a sender or as a
    recipient. *)
Theorem totalContacts_distinct
    (engine : Engine) (S : list EmailMessage.t) (svc : AnalyticsService)
    (now : Z) :
  fits engine S →
  ∃ stats,
    fst (getEmailStats engine now (updateEmails S svc)) = Ok stats ∧
    EmailStats.totalContacts stats =
    size (list_to_set (address <$> interactions S) : gset string).
Proof.
  intros Hfit.
  destruct (AnalyticsFacts.getEmailStats_fresh engine now S svc Hfit)
    as [average Hfresh].
  exists (statsWith average (updateEmails S svc)). split; [done|].
  destruct (contacts_updateEmails S svc) as [Hnd Hall].
  change (EmailStats.totalContacts _)
    with (JsMap.size (contacts (updateEmails S svc))).
  unfold JsMap.size.
  rewrite <- (length_map fst). fold (JsMap.keys (contacts (updateEmails S svc))).
  rewrite <- (size_list_to_set (C := gset string)) by done.
  f_equal. apply set_eq. intros a. rewrite !elem_of_list_to_set.
  destruct (Hall a) as [Hnone Hsome]. split.
  - intros Hin. destruct (JsMap.get a (contacts (updateEmails S svc)))
      as [c|] eqn:Hg.
    + destruct (Hsome c eq_refl) as (_ & _ & _ & (i & Hi & Ha & _) & _).
      apply list_elem_of_fmap. by exists i.
    + by apply JsMapFacts.get_None_keys in Hg.
  - intros [i [-> Hi]]%list_elem_of_fmap.
    destruct (decide (address i ∈ JsMap.keys (contacts (updateEmails S svc))))
      as [|Hn]; [done|].
    apply JsMapFacts.get_None_keys in Hn. by destruct (Hnone Hn i Hi).
Qed.

Lemma totalContacts_distinct_witness :
  ∃ stats,
    fst (getEmailStats Samples.engine 0
           (updateEmails Samples.testMessages init)) = Ok stats ∧
    EmailStats.totalContacts stats =
    size (list_to_set (address <$> interactions Samples.testMessages)
            : gset string).
Proof.
  apply (totalContacts_distinct Samples.engine Samples.testMessages init 0).
  unfold fits. vm_compute. discriminate.
Defined.

End StatsFacts.

(** ** The caches of the analytics engine *)

Module CacheFacts.
Import Analytics AnalyticsQueries SortFacts.

Lemma computeStats_ext engine (s s' : AnalyticsService) :
  emails s = emails s' → contacts s = contacts s' →
  computeStats engine s = computeStats engine s'.
Proof. unfold computeStats, statsWith. by intros -> ->. Qed.

Lemma getEmailStats_coherent engine now s :
  coherent engine s →
  fst (getEmailStats engine now s) = computeStats engine s.
Proof.
  intros Hc. unfold getEmailStats.
  destruct (statsCache s) as [c|] eqn:Hs.
  - destruct (isCacheValid now s).
    + simpl. symmetry. by apply Hc.
    + by destruct (computeStats engine s).
  - by destruct (computeStats engine s).
Qed.

Lemma coherent_recompute engine now s :
  coherent engine s →
  coherent engine
    (snd match computeStats engine s with
         | Ok stats =>
             (Ok stats,
              mkService (emails s) (contacts s) (Some stats)
                (analyticsCache s) (Some now))
         | Throw e => (Throw e, s)
         end).
Proof.
  intros Hc. destruct (computeStats engine s) as [stats|e] eqn:Hstats; simpl.
  - intros c' [= <-]. rewrite <- Hstats. by apply computeStats_ext.
  - done.
Qed.

Lemma coherent_apply engine s op :
  coherent engine s → coherent engine (apply engine s op).
Proof.
  intros Hc. destruct op as [es|now|tz now| |]; simpl.
  - intros c Hs. discriminate Hs.
  - unfold getEmailStats. destruct (statsCache s) as [c|] eqn:Hs.
    + destruct (isCacheValid now s); [done|].
      by apply coherent_recompute.
    + by apply coherent_recompute.
  - unfold getEmailAnalytics_state.
    destruct (analyticsCache s); [destruct (isCacheValid now s)|]; try done.
    all: intros c Hs; simpl in Hs; rewrite <- (Hc c Hs);
      by apply computeStats_ext.
  - intros c Hs. discriminate Hs.
  - intros c Hs. discriminate Hs.
Qed.

Lemma after_snoc engine ops op :
  after engine (ops ++ [op]) = apply engine (after engine ops) op.
Proof. unfold after. by rewrite fold_left_app. Qed.

Lemma coherent_after engine ops : coherent engine (after engine ops).
Proof.
  induction ops as [|op ops IH] using rev_ind.
  - intros c Hs. discriminate Hs.
  - rewrite after_snoc. by apply coherent_apply.
Qed.

Lemma after_snapshot engine ops :
  emails (after engine ops) = lastSnapshot ops ∧
  contacts (after engine ops) =
    contacts (updateEmails (lastSnapshot ops) init).
Proof.
  induction ops as [|op ops [IHe IHc]] using rev_ind; [done|].
  rewrite after_snoc. unfold lastSnapshot in *. rewrite fold_left_app.
  cbn [fold_left].
  destruct op as [es|now|tz now| |]; simpl.
  - done.
  - unfold getEmailStats.
    destruct (statsCache (after engine ops));
      [destruct (isCacheValid now (after engine ops))|];
      try destruct (computeStats engine (after engine ops)); done.
  - unfold getEmailAnalytics_state.
    destruct (analyticsCache (after engine ops));
      [destruct (isCacheValid now (after engine ops))|]; done.
  - done.
  - done.
Qed.

(** Whatever calls were made on the service and whenever they were made,
    [getEmailStats()] returns what a first call on a new service with the
    snapshot of the last [updateEmails] (of no message after [clearAll])
    returns: the statistics of that snapshot, or the error of a snapshot
    that the engine cannot spread.  The five-minute cache never serves
    statistics of an older snapshot. *)
Theorem getEmailStats_never_stale
    (engine : Engine) (ops : list Op) (now now' : Z) :
  fst (getEmailStats engine now (after engine ops)) =
  fst (getEmailStats engine now' (updateEmails (lastSnapshot ops) init)).
Proof.
  rewrite (getEmailStats_coherent engine now _ (coherent_after engine ops)).
  rewrite (getEmailStats_coherent engine now'
             (updateEmails (lastSnapshot ops) init));
    [|intros c Hs; discriminate Hs].
  destruct (after_snapshot engine ops) as [He Hc].
  by apply computeStats_ext.
Qed.

(** The two caches share one timer.  When the analytics are computed at
    [t0] and the statistics are computed afresh at [t1], a call of
    [getEmailAnalytics()] within five minutes of [t1] keeps the volume
    trends of [t0], however long ago [t0] is. *)
Theorem analyticsCache_shared_timer
    (engine : Engine) tz (es : list EmailMessage.t) (svc : AnalyticsService)
    (t0 t1 t2 : Z) (stats : EmailStats.t) :
  let s := updateEmails es svc in
  fst (getEmailStats engine t1 (apply engine s (OpGetEmailAnalytics tz t0))) =
    Ok stats →
  t2 - t1 < cacheValidityMs →
  analyticsCache
    (fold_left (apply engine)
       [OpGetEmailAnalytics tz t0; OpGetEmailStats t1; OpGetEmailAnalytics tz t2]
       s) =
  Some (calculateVolumeTrends tz t0 30 s).
Proof.
  intros s Hstats Hlt. cbn [fold_left apply] in *.
  assert (H0 : getEmailAnalytics_state tz t0 s =
               mkService (emails s) (contacts s) None
                 (Some (calculateVolumeTrends tz t0 30 s)) (Some t0))
    by reflexivity.
  rewrite H0 in *. unfold getEmailStats in *. cbn [statsCache] in *.
  destruct (computeStats engine
              (mkService (emails s) (contacts s) None
                 (Some (calculateVolumeTrends tz t0 30 s)) (Some t0)))
    as [stats'|e]; [|discriminate Hstats].
  cbn [snd].
  unfold getEmailAnalytics_state, isCacheValid.
  cbn [analyticsCache lastCacheUpdate emails contacts].
  apply Z.ltb_lt in Hlt. by rewrite Hlt.
Qed.

Lemma analyticsCache_shared_timer_witness :
  analyticsCache
    (fold_left (apply Samples.engine)
       [OpGetEmailAnalytics JsDate.europeBerlin2025 0;
        OpGetEmailStats 86400000;
        OpGetEmailAnalytics JsDate.europeBerlin2025 86460000]
       (updateEmails Samples.testMessages init)) =
  Some (calculateVolumeTrends JsDate.europeBerlin2025 0 30
          (updateEmails Samples.testMessages init)).
Proof.
  eapply (analyticsCache_shared_timer Samples.engine JsDate.europeBerlin2025
            Samples.testMessages init 0 86400000 86460000).
  - vm_compute. reflexivity.
  - unfold cacheValidityMs. lia.
Defined.

End CacheFacts.

(** ** Top senders and top recipients *)

Module TopFacts.
Import Analytics AnalyticsQueries SortFacts.

Lemma nonIncreasing_map {A B : Type} (f : A → B) (key : A → nat)
    (key' : B → nat) (l : list A) :
  (∀ a, key' (f a) = key a) →
  nonIncreasing key l → nonIncreasing key' (map f l).
Proof.
  intros Hk Hl i j a b Hij Ha Hb.
  change (map f l) with (f <$> l) in Ha, Hb.
  rewrite list_lookup_fmap in Ha, Hb.
  destruct (l !! i) as [a0|] eqn:Hi; [|done].
  destruct (l !! j) as [b0|] eqn:Hj; [|done].
  simpl in Ha, Hb. injection Ha as <-. injection Hb as <-.
  rewrite !Hk. by apply (Hl i j).
Qed.

Lemma top_ranked (key : Contact.t → nat) (cs : list Contact.t) :
  let ranked c :=
    Ranked.mk (Contact.email c) (key c) (Contact.lastInteraction c) in
  let top :=
    map ranked
      (take 10 (sortBy (descending key)
                  (List.filter (fun c => (0 <? key c)%nat) cs))) in
  (length top ≤ 10)%nat ∧
  nonIncreasing Ranked.count top ∧
  (∀ r, r ∈ top → (0 < Ranked.count r)%nat ∧ ∃ c, c ∈ cs ∧ r = ranked c) ∧
  (∀ c, c ∈ cs → (0 < key c)%nat →
        ranked c ∈ top ∨
        (length top = 10%nat ∧
         ∀ r, r ∈ top → (key c ≤ Ranked.count r)%nat)).
Proof.
  intros ranked top. subst top.
  set (kept := List.filter (fun c => (0 <? key c)%nat) cs).
  set (sorted := sortBy (descending key) kept).
  assert (Hperm : sorted ≡ₚ kept) by apply sortBy_perm.
  assert (Hsorted : nonIncreasing key sorted) by apply sortBy_nonIncreasing.
  assert (Hkept : ∀ c, c ∈ kept ↔ c ∈ cs ∧ (0 < key c)%nat).
  { intros c. subst kept. rewrite list_elem_of_In, filter_In, <- list_elem_of_In.
    by rewrite Nat.ltb_lt. }
  split_and!.
  - rewrite length_map, length_take. lia.
  - apply (nonIncreasing_map ranked key); [done|].
    by apply take_nonIncreasing.
  - intros r Hr. change (map ranked (take 10 sorted)) with
      (ranked <$> take 10 sorted) in Hr.
    apply list_elem_of_fmap in Hr as (c & -> & Hc).
    assert (Hin : c ∈ kept).
    { rewrite <- Hperm, <- (take_drop 10 sorted), elem_of_app. by left. }
    apply Hkept in Hin as [Hin Hpos]. split; [done|]. by exists c.
  - intros c Hc Hpos.
    assert (Hin : c ∈ sorted).
    { rewrite Hperm. apply Hkept. done. }
    rewrite <- (take_drop 10 sorted), elem_of_app in Hin.
    destruct Hin as [Hin|Hin].
    + left. change (map ranked (take 10 sorted)) with
        (ranked <$> take 10 sorted).
      apply list_elem_of_fmap. by exists c.
    + right. split.
      * rewrite length_map, length_take.
        destruct (decide (10 ≤ length sorted)%nat) as [|Hshort]; [lia|].
        rewrite drop_ge in Hin by lia. by apply elem_of_nil in Hin.
      * intros r Hr. change (map ranked (take 10 sorted)) with
          (ranked <$> take 10 sorted) in Hr.
        apply list_elem_of_fmap in Hr as (c' & -> & Hc'). simpl.
        by apply (take_drop_top key 10 sorted Hsorted c' c).
Qed.

(** [topSenders] of [getEmailAnalytics()] lists at most ten contacts, in
    descending order of the number of messages received from them; each
    entry is a contact of the map with at least one such message; and a
    contact with such a message that is not listed has no more of them than
    any of the ten that are.  [topRecipients] does the same with the
    messages sent. *)
Theorem topSenders_topRecipients_ranked (s : AnalyticsService) :
  let cs := JsMap.values (contacts s) in
  let sender c :=
    Ranked.mk (Contact.email c) (Contact.emailsReceived c)
      (Contact.lastInteraction c) in
  let recipient c :=
    Ranked.mk (Contact.email c) (Contact.emailsSent c)
      (Contact.lastInteraction c) in
  ((length (topSenders s) ≤ 10)%nat ∧
   nonIncreasing Ranked.count (topSenders s) ∧
   (∀ r, r ∈ topSenders s →
      (0 < Ranked.count r)%nat ∧ ∃ c, c ∈ cs ∧ r = sender c) ∧
   (∀ c, c ∈ cs → (0 < Contact.emailsReceived c)%nat →
      sender c ∈ topSenders s ∨
      (length (topSenders s) = 10%nat ∧
       ∀ r, r ∈ topSenders s →
         (Contact.emailsReceived c ≤ Ranked.count r)%nat))) ∧
  ((length (topRecipients s) ≤ 10)%nat ∧
   nonIncreasing Ranked.count (topRecipients s) ∧
   (∀ r, r ∈ topRecipients s →
      (0 < Ranked.count r)%nat ∧ ∃ c, c ∈ cs ∧ r = recipient c) ∧
   (∀ c, c ∈ cs → (0 < Contact.emailsSent c)%nat →
      recipient c ∈ topRecipients s ∨
      (length (topRecipients s) = 10%nat ∧
       ∀ r, r ∈ topRecipients s →
         (Contact.emailsSent c ≤ Ranked.count r)%nat))).
Proof.
  intros cs sender recipient. split.
  - apply (top_ranked Contact.emailsReceived cs).
  - apply (top_ranked Contact.emailsSent cs).
Qed.

Lemma topSenders_topRecipients_ranked_witness :
  let s := updateEmails Samples.testMessages init in
  Ranked.mk "sender2@example.com" 1 1705316400000 ∈ topSenders s ∨
  (length (topSenders s) = 10%nat ∧
   ∀ r, r ∈ topSenders s → (1 ≤ Ranked.count r)%nat).
Proof.
  pose proof (topSenders_topRecipients_ranked
                (updateEmails Samples.testMessages init)) as H.
  cbv zeta in H. destruct H as [(_ & _ & _ & H) _].
  apply (H (Contact.mk "sender2@example.com" 0 1 1705316400000 1705316400000)).
  - vm_compute. do 2 apply list_elem_of_further. apply list_elem_of_here.
  - simpl. lia.
Defined.


End TopFacts.

(** ** The regular-expression matcher *)

Module RegexFacts.
Import Regex.

Lemma matches_void w : ¬ matches Void w.
Proof. intros H. remember Void as r eqn:Hr. by destruct H. Qed.

Lemma matches_eps_iff w : matches Eps w ↔ w = [].
Proof.
  split.
  - intros H. remember Eps as r eqn:Hr. by destruct H.
  - intros ->. constructor.
Qed.

Lemma matches_class_iff p w : matches (Class p) w ↔ ∃ c, w = [c] ∧ p c = true.
Proof.
  split.
  - intros H. remember (Class p) as r eqn:Hr. destruct H; try done.
    injection Hr as ->. by eexists.
  - intros (c & -> & Hc). by constructor.
Qed.

Lemma matches_seq_iff a b w :
  matches (Seq a b) w ↔ ∃ u v, w = u ++ v ∧ matches a u ∧ matches b v.
Proof.
  split.
  - intros H. remember (Seq a b) as r eqn:Hr. destruct H; try done.
    injection Hr as -> ->. by eexists _, _.
  - intros (u & v & -> & Hu & Hv). by constructor.
Qed.

Lemma matches_alt_iff a b w :
  matches (Alt a b) w ↔ matches a w ∨ matches b w.
Proof.
  split.
  - intros H. remember (Alt a b) as r eqn:Hr. destruct H; try done.
    + injection Hr as -> ->. by left.
    + injection Hr as -> ->. by right.
  - intros [H|H]; [by apply matches_alt_l | by apply matches_alt_r].
Qed.

Lemma nullable_matches r : nullable r = true ↔ matches r [].
Proof.
  induction r as [| |p|a IHa b IHb|a IHa b IHb|a IHa]; simpl.
  - split; [done | by intros H%matches_void].
  - by rewrite matches_eps_iff.
  - rewrite matches_class_iff. split; [done | by intros (c & ? & _)].
  - rewrite andb_true_iff, IHa, IHb, matches_seq_iff. split.
    + intros [Ha Hb]. by exists [], [].
    + intros (u & v & Heq & Hu & Hv). symmetry in Heq.
      apply app_eq_nil in Heq as [-> ->]. done.
  - by rewrite orb_true_iff, IHa, IHb, matches_alt_iff.
  - split; [constructor | done].
Qed.

Lemma matches_star_cons_inv a c s :
  matches (Star a) (c :: s) →
  ∃ u v, s = u ++ v ∧ matches a (c :: u) ∧ matches (Star a) v.
Proof.
  intros H. remember (Star a) as r eqn:Hr. remember (c :: s) as w eqn:Hw.
  revert s Hw. induction H as [| | | | | |a' u v Hu _ Hv IHv]; try done.
  injection Hr as ->. intros s Hw.
  destruct u as [|c' u].
  - simpl in Hw. by apply IHv.
  - simpl in Hw. injection Hw as -> <-. by exists u, v.
Qed.

Lemma deriv_matches c r s : matches (deriv c r) s ↔ matches r (c :: s).
Proof.
  revert s. induction r as [| |p|a IHa b IHb|a IHa b IHb|a IHa]; intros s; simpl.
  - split; by intros H%matches_void.
  - rewrite matches_eps_iff. split; [by intros H%matches_void | done].
  - rewrite matches_class_iff. destruct (p c) eqn:Hp.
    + rewrite matches_eps_iff. split.
      * intros ->. by exists c.
      * by intros (c' & [= -> ->] & _).
    + split; [by intros H%matches_void|]. intros (c' & [= -> ->] & Hc).
      congruence.
  - assert (Hseq : matches (Seq (deriv c a) b) s ↔
                   ∃ u v, s = u ++ v ∧ matches a (c :: u) ∧ matches b v).
    { rewrite matches_seq_iff. split.
      - intros (u & v & -> & Hu & Hv). exists u, v. by rewrite <- IHa.
      - intros (u & v & -> & Hu & Hv). exists u, v. by rewrite IHa. }
    assert (Hcons : matches (Seq a b) (c :: s) ↔
                    (∃ u v, s = u ++ v ∧ matches a (c :: u) ∧ matches b v) ∨
                    (matches a [] ∧ matches b (c :: s))).
    { rewrite matches_seq_iff. split.
      - intros (u & v & Heq & Hu & Hv).
        destruct u as [|c' u]; simpl in Heq.
        + right. by subst.
        + left. injection Heq as <- ->. by exists u, v.
      - intros [(u & v & -> & Hu & Hv)|[Ha Hb]].
        + by exists (c :: u), v.
        + by exists [], (c :: s). }
    rewrite Hcons. destruct (nullable a) eqn:Hn.
    + apply nullable_matches in Hn.
      rewrite matches_alt_iff, Hseq, IHb.
      split; [intros [H|H]; [by left | by right]
             |intros [H|[_ H]]; [by left | by right]].
    + rewrite Hseq. split; [by left|]. intros [H|[Ha _]]; [done|].
      apply nullable_matches in Ha. congruence.
  - by rewrite !matches_alt_iff, IHa, IHb.
  - rewrite matches_seq_iff. split.
    + intros (u & v & -> & Hu & Hv).
      apply (matches_star_cons a (c :: u) v); [by apply IHa | done].
    + intros (u & v & -> & Hu & Hv)%matches_star_cons_inv.
      exists u, v. by rewrite IHa.
Qed.

(** The matcher decides membership in the language of the expression. *)
Lemma test_matches r s : test r s = true ↔ matches r s.
Proof.
  unfold test. revert r. induction s as [|c s IH]; intros r; simpl.
  - apply nullable_matches.
  - rewrite IH. apply deriv_matches.
Qed.

Lemma matches_star_class p u :
  matches (Star (Class p)) u ↔ Forall (λ c, p c = true) u.
Proof.
  split.
  - intros H. remember (Star (Class p)) as r eqn:Hr.
    induction H as [| | | | | |a u v Hu _ Hv IHv]; try done.
    injection Hr as ->. apply matches_class_iff in Hu as (c & -> & Hc).
    simpl. constructor; [done | by apply IHv].
  - induction 1 as [|c u Hc Hu IH]; [constructor|].
    apply (matches_star_cons _ [c] u); [by constructor | done].
Qed.

Lemma matches_plus_class p u :
  matches (Plus (Class p)) u ↔ u ≠ [] ∧ Forall (λ c, p c = true) u.
Proof.
  unfold Plus. rewrite matches_seq_iff. split.
  - intros (x & y & -> & (c & -> & Hc)%matches_class_iff & Hy%matches_star_class).
    split; [done | by constructor].
  - intros [Hne Hall]. destruct u as [|c u]; [done|].
    apply Forall_cons in Hall as [Hc Hall].
    exists [c], u. split_and!; [done | by constructor | by apply matches_star_class].
Qed.

Lemma matches_char c u : matches (Char c) u ↔ u = [c].
Proof.
  unfold Char. rewrite matches_class_iff. split.
  - intros (c' & -> & Hc). apply Ascii.eqb_eq in Hc. by subst.
  - intros ->. exists c. split; [done | apply Ascii.eqb_refl].
Qed.

End RegexFacts.

(** ** Address helpers *)

Module HelperFacts.
Import JsString Regex RegexFacts Helpers.

Lemma chars_ofChars l : chars (ofChars l) = l.
Proof. apply list_ascii_of_string_of_list_ascii. Qed.

Lemma ofChars_chars s : ofChars (chars s) = s.
Proof. apply string_of_list_ascii_of_string. Qed.

Lemma chars_app s1 s2 : chars (s1 +:+ s2) = chars s1 ++ chars s2.
Proof.
  unfold chars. induction s1 as [|c s1 IH]; simpl; [done|]. by rewrite IH.
Qed.

Lemma length_chars s : length (chars s) = String.length s.
Proof. unfold chars. induction s as [|c s IH]; simpl; [done|]. by rewrite IH. Qed.

Lemma notSpaceAt_spec c :
  notSpaceAt c = true ↔ isWhiteSpace c = false ∧ c ≠ "@"%char.
Proof.
  unfold notSpaceAt. rewrite andb_true_iff, !negb_true_iff.
  by rewrite <- (not_true_iff_false (Ascii.eqb _ _)), Ascii.eqb_eq.
Qed.

(** [isValidEmail] accepts exactly the strings of the shape
    [local@domain.tail] whose three parts are not empty and hold neither
    white space nor ['@'] (the two [domain] and [tail] may hold dots).  *)
Theorem isValidEmail_spec (email : string) :
  isValidEmail email = true ↔
  ∃ l d t,
    chars email = l ++ "@"%char :: d ++ "."%char :: t ∧
    l ≠ [] ∧ d ≠ [] ∧ t ≠ [] ∧
    Forall (λ c, isWhiteSpace c = false ∧ c ≠ "@"%char) (l ++ d ++ t).
Proof.
  unfold isValidEmail, emailRegex. rewrite test_matches.
  assert (Hok : ∀ u, Forall (λ c, notSpaceAt c = true) u ↔
                     Forall (λ c, isWhiteSpace c = false ∧ c ≠ "@"%char) u).
  { intros u. apply Forall_proper; [|done]. intros c. apply notSpaceAt_spec. }
  split.
  - intros H.
    apply matches_seq_iff in H as (l & r1 & Heq & [Hl Hla]%matches_plus_class & H).
    apply matches_seq_iff in H as (a & r2 & -> & ->%matches_char & H).
    apply matches_seq_iff in H as (d & r3 & -> & [Hd Hda]%matches_plus_class & H).
    apply matches_seq_iff in H as (dot & t & -> & ->%matches_char
                                   & [Ht Hta]%matches_plus_class).
    exists l, d, t. split_and!; try done.
    rewrite !Forall_app, <- !Hok. done.
  - intros (l & d & t & Heq & Hl & Hd & Ht & Hall).
    rewrite !Forall_app, <- !Hok in Hall. destruct Hall as (Hla & Hda & Hta).
    rewrite Heq.
    apply matches_seq_iff. exists l, ("@"%char :: d ++ "."%char :: t).
    split_and!; [done | by apply matches_plus_class |].
    apply matches_seq_iff. exists ["@"%char], (d ++ "."%char :: t).
    split_and!; [done | by apply matches_char |].
    apply matches_seq_iff. exists d, ("."%char :: t).
    split_and!; [done | by apply matches_plus_class |].
    apply matches_seq_iff. exists ["."%char], t.
    split_and!; [done | by apply matches_char | by apply matches_plus_class].
Qed.

Lemma isValidEmail_spec_witness : isValidEmail "ada@example.org" = true.
Proof.
  apply (proj2 (isValidEmail_spec "ada@example.org")).
  exists (chars "ada"), (chars "example"), (chars "org").
  split_and!; [reflexivity | done | done | done |].
  apply (bool_decide_unpack _). vm_compute. exact I.
Defined.

Lemma split_nonempty sep l : split sep l ≠ [].
Proof.
  destruct l as [|c r]; simpl; [done|].
  destruct (Ascii.eqb c sep); [done|]. by destruct (split sep r).
Qed.

Lemma join_cons sep p q ps : join sep (p :: q :: ps) = p ++ sep ++ join sep (q :: ps).
Proof. reflexivity. Qed.

Lemma split_join sep l : join [sep] (split sep l) = l.
Proof.
  induction l as [|c r IH]; simpl; [done|].
  pose proof (split_nonempty sep r) as Hne.
  destruct (Ascii.eqb_spec c sep) as [->|Hc].
  - destruct (split sep r) as [|q ps] eqn:Hs; [done|].
    rewrite join_cons. simpl. by rewrite <- IH.
  - destruct (split sep r) as [|q ps] eqn:Hs; [done|].
    rewrite <- IH. destruct ps as [|q' ps]; [done|].
    by rewrite !join_cons.
Qed.

Lemma split_no_sep sep l : Forall (λ p, sep ∉ p) (split sep l).
Proof.
  induction l as [|c r IH]; simpl.
  - constructor; [apply not_elem_of_nil | constructor].
  - destruct (Ascii.eqb_spec c sep) as [->|Hc].
    + constructor; [apply not_elem_of_nil | done].
    + destruct (split sep r) as [|q ps].
      * constructor; [|constructor].
        rewrite not_elem_of_cons. split; [congruence | apply not_elem_of_nil].
      * apply Forall_cons in IH as [Hq Hps]. constructor; [|done].
        rewrite not_elem_of_cons. split; [congruence | done].
Qed.

Lemma split_without_sep sep l : sep ∉ l → split sep l = [l].
Proof.
  induction l as [|c r IH]; simpl; [done|].
  rewrite not_elem_of_cons. intros [Hc Hr].
  destruct (Ascii.eqb_spec c sep) as [->|_]; [done|]. by rewrite (IH Hr).
Qed.

Lemma dropWhiteSpace_nil l :
  dropWhiteSpace l = [] → Forall (λ c, isWhiteSpace c = true) l.
Proof.
  induction l as [|c r IH]; simpl; [constructor|].
  destruct (isWhiteSpace c) eqn:Hc; [|done]. intros H. constructor; auto.
Qed.

Lemma dropWhiteSpace_head l c r :
  dropWhiteSpace l = c :: r → isWhiteSpace c = false.
Proof.
  induction l as [|x l IH]; simpl; [done|].
  destruct (isWhiteSpace x) eqn:Hx; [done|]. by intros [= <- _].
Qed.

Lemma trimChars_nil l :
  trimChars l = [] → Forall (λ c, isWhiteSpace c = true) l.
Proof.
  unfold trimChars. intros H.
  apply (f_equal (@rev ascii)) in H. rewrite rev_involutive in H. simpl in H.
  apply dropWhiteSpace_nil in H. apply Forall_rev in H.
  rewrite rev_involutive in H.
  destruct (dropWhiteSpace l) as [|c r] eqn:Hd; [by apply dropWhiteSpace_nil|].
  apply dropWhiteSpace_head in Hd. apply Forall_cons in H as [Hc _]. congruence.
Qed.

Lemma isValidEmail_nonempty e :
  (0 <? String.length e)%nat && isValidEmail e = isValidEmail e.
Proof. by destruct e. Qed.

(** [parseEmails] cuts its argument at the commas, trims the pieces and
    returns, in order, exactly the pieces that are valid addresses: a piece
    that is not one is left out without an error, and the test for an empty
    argument changes nothing. *)
Theorem parseEmails_spec (emailString : string) :
  let pieces := split ","%char (chars emailString) in
  join [","%char] pieces = chars emailString ∧
  Forall (λ p, ","%char ∉ p) pieces ∧
  parseEmails emailString =
    List.filter isValidEmail (map (λ p, trim (ofChars p)) pieces).
Proof.
  intros pieces. split_and!; [apply split_join | apply split_no_sep |].
  subst pieces. unfold parseEmails.
  destruct (truthy emailString) eqn:Ht; simpl.
  - destruct (String.eqb_spec (trim emailString) "") as [He|_].
    + pose proof He as Hws. unfold trim in Hws. apply (f_equal chars) in Hws.
      rewrite chars_ofChars in Hws. apply trimChars_nil in Hws.
      rewrite split_without_sep.
      * simpl. by rewrite ofChars_chars, He.
      * intros Hin. rewrite Forall_forall in Hws.
        by specialize (Hws _ Hin).
    + apply filter_ext. intros e. apply isValidEmail_nonempty.
  - by destruct emailString.
Qed.

Lemma parseEmails_valid s : Forall (λ e, isValidEmail e = true) (parseEmails s).
Proof.
  unfold parseEmails. destruct (_ || _); [constructor|].
  apply Forall_forall. intros e He. apply list_elem_of_In in He.
  apply filter_In in He as [_ He]. by apply andb_true_iff in He as [_ He].
Qed.


Lemma isCrLfTab_false c :
  isCrLfTab c = false ↔
  c ≠ "013"%char ∧ c ≠ "010"%char ∧ c ≠ "009"%char.
Proof.
  unfold isCrLfTab. rewrite !orb_false_iff.
  rewrite <- !(not_true_iff_false (Ascii.eqb _ _)), !Ascii.eqb_eq. tauto.
Qed.

Lemma Forall_trimChars (P : ascii → Prop) l : Forall P l → Forall P (trimChars l).
Proof.
  intros Hl. destruct (JsStringFacts.trimChars_infix l) as (pre & suf & Heq).
  rewrite Heq in Hl. by apply Forall_app in Hl as [_ [Hl _]%Forall_app].
Qed.

Lemma length_trimChars l : (length (trimChars l) ≤ length l)%nat.
Proof.
  destruct (JsStringFacts.trimChars_infix l) as (pre & suf & Heq).
  rewrite Heq at 2. rewrite !length_app. lia.
Qed.

(** What [sanitizeForLog] returns holds no carriage return, line feed or
    tab, and at most [maxLength] characters and an ellipsis (an ellipsis
    alone for a negative [maxLength]); it is never longer than its argument
    and an ellipsis. *)
Theorem sanitizeForLog_safe (str : string) (maxLength : option Z) :
  let out := chars (sanitizeForLog str maxLength) in
  Forall (λ c, c ≠ "013"%char ∧ c ≠ "010"%char ∧ c ≠ "009"%char) out ∧
  Z.of_nat (length out) ≤ Z.max 0 (default 100 maxLength) + 3 ∧
  (length out ≤ String.length str + 3)%nat.
Proof.
  unfold sanitizeForLog.
  set (m := default 100 maxLength).
  set (mapped := map (λ c, if isCrLfTab c then space else c) (chars str)).
  assert (Hmapped : Forall (λ c, isCrLfTab c = false) mapped).
  { subst mapped. apply Forall_map, Forall_forall. intros c _.
    by destruct (isCrLfTab c) eqn:Hc. }
  assert (Hlen : (length (trimChars mapped) ≤ String.length str)%nat).
  { etrans; [apply length_trimChars|]. subst mapped.
    by rewrite length_map, length_chars. }
  apply (Forall_trimChars _ _) in Hmapped.
  destruct (truthy str); simpl; [|split_and!; [constructor | lia | lia]].
  destruct (Z.ltb_spec m (Z.of_nat (length (trimChars mapped)))) as [Hlt|Hge];
    rewrite chars_ofChars.
  - unfold substring0. split_and!.
    + apply Forall_app. split.
      * eapply Forall_impl; [by apply Forall_take|].
        intros c Hc. by apply isCrLfTab_false.
      * repeat constructor; done.
    + rewrite length_app, length_take. simpl. lia.
    + rewrite length_app, length_take. simpl. lia.
  - split_and!; [|lia|lia].
    eapply Forall_impl; [exact Hmapped|]. intros c Hc. by apply isCrLfTab_false.
Qed.

(** [truncate(text, maxLength)] returns at most [maxLength] characters when
    [maxLength] is 3 or more; for a smaller [maxLength] and a longer text it
    returns the three characters of the ellipsis. *)
Theorem truncate_length (text : string) (maxLength : Z) :
  (3 ≤ maxLength →
   Z.of_nat (String.length (truncate text maxLength)) ≤ maxLength) ∧
  (maxLength < 3 → maxLength < Z.of_nat (String.length text) →
   truncate text maxLength = "...").
Proof.
  unfold truncate, substring0.
  destruct (Z.leb_spec (Z.of_nat (String.length text)) maxLength) as [Hle|Hgt].
  - split; [done | lia].
  - split.
    + intros H3. rewrite <- length_chars, chars_ofChars, length_app, length_take.
      rewrite length_chars. simpl. lia.
    + intros H3 _. replace (Z.to_nat (maxLength - 3)) with 0%nat by lia.
      reflexivity.
Qed.

Lemma truncate_length_witness :
  Z.of_nat (String.length (truncate "The quick brown fox" 10)) ≤ 10.
Proof. apply (proj1 (truncate_length "The quick brown fox" 10)). lia. Defined.

Lemma upToGt_first addr rest :
  ">"%char ∉ addr → upToGt (addr ++ ">"%char :: rest) = Some addr.
Proof.
  induction addr as [|c addr IH]; simpl; [done|].
  rewrite not_elem_of_cons. intros [Hc Hr].
  destruct (Ascii.eqb_spec c ">"%char) as [->|_]; [done|]. by rewrite (IH Hr).
Qed.

Lemma matchAngle_first pre addr rest :
  "<"%char ∉ pre → ">"%char ∉ addr → addr ≠ [] →
  matchAngle (pre ++ "<"%char :: addr ++ ">"%char :: rest) = Some addr.
Proof.
  intros Hpre Haddr Hne. induction pre as [|c pre IH]; simpl.
  - rewrite (upToGt_first addr rest Haddr). by destruct addr.
  - apply not_elem_of_cons in Hpre as [Hc Hpre].
    destruct (Ascii.eqb_spec c "<"%char) as [->|_]; [done|]. by apply IH.
Qed.

Lemma upToLt_first pre rest :
  "<"%char ∉ pre → upToLt (pre ++ "<"%char :: rest) = Some pre.
Proof.
  induction pre as [|c pre IH]; simpl; [done|].
  rewrite not_elem_of_cons. intros [Hc Hr].
  destruct (Ascii.eqb_spec c "<"%char) as [->|_]; [done|]. by rewrite (IH Hr).
Qed.

Lemma dropWhiteSpace_app l r :
  dropWhiteSpace l ≠ [] → dropWhiteSpace (l ++ r) = dropWhiteSpace l ++ r.
Proof.
  induction l as [|c l IH]; simpl; [done|].
  destruct (isWhiteSpace c); [apply IH | done].
Qed.

Lemma dropWhiteSpace_all l :
  Forall (λ c, isWhiteSpace c = true) l → dropWhiteSpace l = [].
Proof.
  induction 1 as [|c l Hc _ IH]; simpl; [done|]. by rewrite Hc.
Qed.

Lemma trimChars_space l : trimChars (l ++ [space]) = trimChars l.
Proof.
  unfold trimChars. destruct (dropWhiteSpace l) as [|c r] eqn:Hd.
  - apply dropWhiteSpace_nil in Hd.
    rewrite (dropWhiteSpace_all (l ++ [space])); [done|].
    apply Forall_app. split; [done | by repeat constructor].
  - rewrite dropWhiteSpace_app by (by rewrite Hd). rewrite Hd.
    by rewrite rev_app_distr.
Qed.

(** An address written as [name <addr>] is taken apart again:
    [extractEmailAddress] gives back [addr] and [extractName] gives back the
    name without the white space around it. *)
Theorem display_name_round_trip (name addr : string) :
  "<"%char ∉ chars name → ">"%char ∉ chars addr → addr ≠ "" →
  let written := name +:+ " <" +:+ addr +:+ ">" in
  extractEmailAddress written = addr ∧
  extractName written = Some (trim name).
Proof.
  intros Hname Haddr Hne written.
  assert (Hchars : chars written =
                   (chars name ++ [space]) ++ "<"%char :: chars addr ++ [">"%char]).
  { subst written. rewrite !chars_app, <- !app_assoc. reflexivity. }
  assert (Hpre : "<"%char ∉ chars name ++ [space]).
  { rewrite not_elem_of_app. split; [done|].
    rewrite not_elem_of_cons. split; [done | apply not_elem_of_nil]. }
  assert (Hne' : chars addr ≠ []).
  { intros Hnil. apply Hne. by rewrite <- (ofChars_chars addr), Hnil. }
  split.
  - unfold extractEmailAddress. rewrite Hchars.
    rewrite (matchAngle_first _ _ [] Hpre Haddr Hne'). apply ofChars_chars.
  - unfold extractName. rewrite Hchars, (upToLt_first _ _ Hpre).
    destruct (chars name ++ [space]) as [|c cap] eqn:Hcap.
    + by destruct (chars name).
    + rewrite <- Hcap. unfold trim. rewrite chars_ofChars.
      by rewrite trimChars_space.
Qed.

Lemma display_name_round_trip_witness :
  extractEmailAddress ("Ada Lovelace" +:+ " <" +:+ "ada@example.org" +:+ ">") =
    "ada@example.org" ∧
  extractName ("Ada Lovelace" +:+ " <" +:+ "ada@example.org" +:+ ">") =
    Some (trim "Ada Lovelace").
Proof.
  apply (display_name_round_trip "Ada Lovelace" "ada@example.org").
  - apply (bool_decide_unpack _). vm_compute. exact I.
  - apply (bool_decide_unpack _). vm_compute. exact I.
  - discriminate.
Defined.


End HelperFacts.

(** ** Sending a message *)

Module SmtpFacts.
Import Helpers SMTPService.

Lemma find_invalid_None (l : list string) :
  List.find (λ email, negb (isValidEmail email)) l = None ↔
  Forall (λ email, isValidEmail email = true) l.
Proof.
  induction l as [|e l IH]; simpl.
  - split; [constructor | done].
  - destruct (isValidEmail e) eqn:He; simpl.
    + rewrite IH. split; [by constructor | by intros [_ H]%Forall_cons].
    + split; [done|]. intros [H _]%Forall_cons. congruence.
Qed.

Lemma optionalAddresses_valid (r : option string) :
  Forall (λ email, isValidEmail email = true)
    (optionalAddresses (OneString <$> r)).
Proof.
  destruct r as [s|]; simpl; [|constructor].
  destruct (JsString.truthy s); [apply HelperFacts.parseEmails_valid | constructor].
Qed.

Section Service.
Context {N : Type} (io : Transport N).

(** [sendEmail] either throws before anything reaches the transport, or
    hands exactly one message to the transport, with at least one [to]
    address and valid addresses only, and then returns a value whatever the
    transport does: [success] tells whether the transport took the
    message. *)
Theorem sendEmail_outcomes (options : SendEmailOptions.t) (w : World N) :
  let r := sendEmail io options w in
  let toAddresses := addresses (SendEmailOptions.to options) in
  let ccAddresses := optionalAddresses (SendEmailOptions.cc options) in
  let bccAddresses := optionalAddresses (SendEmailOptions.bcc options) in
  (snd r = w ∧ ∃ e, fst r = Throw e) ∨
  (∃ handed res,
     handedOver (snd r) = handedOver w ++ [handed] ∧
     handed = mailOptions w options toAddresses ccAddresses bccAddresses ∧
     transporter w = true ∧
     toAddresses ≠ [] ∧
     Forall (λ email, isValidEmail email = true)
       (toAddresses ++ ccAddresses ++ bccAddresses) ∧
     fst r = Ok res ∧
     match fst (sendMail io handed (net w)) with
     | Ok messageId =>
         res = SendResult.mk true (Some messageId) None
     | Throw e =>
         res = SendResult.mk false None (Some (message e))
     end).
Proof.
  intros r toAddresses ccAddresses bccAddresses. subst r.
  unfold sendEmail. fold toAddresses ccAddresses bccAddresses.
  destruct (transporter w) eqn:Ht; simpl; [|left; eauto].
  destruct (Nat.eqb_spec (length toAddresses) 0) as [Hz|Hnz]; [left; eauto|].
  destruct (List.find _ (toAddresses ++ ccAddresses ++ bccAddresses))
    as [email|] eqn:Hfind; [left; eauto|].
  apply find_invalid_None in Hfind. right.
  set (handed := mailOptions w options toAddresses ccAddresses bccAddresses).
  destruct (sendMail io handed (net w)) as [[messageId|e] n] eqn:Hsend.
  - exists handed, (SendResult.mk true (Some messageId) None).
    rewrite Hsend. simpl.
    split_and!; try done. intros Hnil. by rewrite Hnil in Hnz.
  - exists handed, (SendResult.mk false None (Some (message e))).
    rewrite Hsend. simpl.
    split_and!; try done. intros Hnil. by rewrite Hnil in Hnz.
Qed.

(** When the recipients are given as strings, as the [send_email] tool
    gives them, [sendEmail] never reports an invalid address: the pieces of
    [to], [cc] and [bcc] that are not valid addresses are left out, the
    message goes to the others, and the only error about recipients is that
    no piece of [to] is a valid address. *)
Theorem sendEmail_string_recipients
    (options : SendEmailOptions.t) (w : World N) (to : string)
    (cc bcc : option string) :
  transporter w = true →
  SendEmailOptions.to options = OneString to →
  SendEmailOptions.cc options = OneString <$> cc →
  SendEmailOptions.bcc options = OneString <$> bcc →
  let r := sendEmail io options w in
  match parseEmails to with
  | [] =>
      r = (Throw (Error "At least one recipient is required"), w)
  | first :: others =>
      ∃ res,
        fst r = Ok res ∧
        handedOver (snd r) =
          handedOver w ++
          [mailOptions w options (first :: others)
             (optionalAddresses (OneString <$> cc))
             (optionalAddresses (OneString <$> bcc))]
  end.
Proof.
  intros Ht Hto Hcc Hbcc r. subst r. unfold sendEmail.
  rewrite Ht, Hto, Hcc, Hbcc. simpl.
  pose proof (HelperFacts.parseEmails_valid to) as Hvalid.
  destruct (parseEmails to) as [|first others] eqn:Hparse; [done|]. simpl.
  assert (Hall : Forall (λ email, isValidEmail email = true)
                   ((first :: others) ++
                    optionalAddresses (OneString <$> cc) ++
                    optionalAddresses (OneString <$> bcc))).
  { rewrite !Forall_app. split_and!;
      [done | apply optionalAddresses_valid | apply optionalAddresses_valid]. }
  apply find_invalid_None in Hall. simpl in Hall. rewrite Hall.
  destruct (sendMail io _ (net w)) as [[messageId|e] n]; simpl; eauto.
Qed.

End Service.

Lemma sendEmail_string_recipients_witness :
  ∃ res,
    fst (sendEmail accepting
           (SendEmailOptions.mk (OneString "alice@example.org, bob") None
              (Some (OneString "")) "Hello" "Text" None None None None None
              None None)
           (mkWorld true "me@example.org" tt [])) = Ok res.
Proof.
  pose proof (sendEmail_string_recipients accepting
    (SendEmailOptions.mk (OneString "alice@example.org, bob") None
       (Some (OneString "")) "Hello" "Text" None None None None None None None)
    (mkWorld true "me@example.org" tt [])
    "alice@example.org, bob" None (Some "")
    eq_refl eq_refl eq_refl eq_refl) as H.
  vm_compute in H. destruct H as (res & Hres & _). exists res. exact Hres.
Defined.

End SmtpFacts.

(** ** The log buffer *)

Module LoggerFacts.
Import Logger.

Lemma lastN_snoc {A : Type} (n : nat) (l : list A) (x : A) :
  (0 < n)%nat →
  (if (n <? length (lastN n l ++ [x]))%nat
   then tail (lastN n l ++ [x]) else lastN n l ++ [x]) =
  lastN n (l ++ [x]).
Proof.
  intros Hn. unfold lastN. rewrite !length_app, length_drop. simpl.
  destruct (Nat.ltb_spec n (length l - (length l - n) + 1)) as [Hlt|Hge].
  - replace (length l + 1 - n)%nat with (S (length l - n)) by lia.
    rewrite <- (drop_app_le l [x] (length l - n)) by lia.
    generalize (l ++ [x]). generalize (length l - n)%nat. clear.
    intros k. induction k as [|k IH]; intros l'; [by destruct l'|].
    destruct l' as [|y l']; [done|]. simpl. apply IH.
  - replace (length l - n)%nat with 0%nat by lia.
    by replace (length l + 1 - n)%nat with 0%nat by lia.
Qed.

Lemma step_accept (s : t) (st : bool * list LogEntry.t) (c : Call) :
  debugMode s = fst st → logs s = lastN maxLogs (snd st) →
  debugMode (step s c) = fst (accept st c) ∧
  logs (step s c) = lastN maxLogs (snd (accept st c)).
Proof.
  destruct st as [mode acc]. simpl. intros Hmode Hlogs.
  destruct c as [enabled|now level message context data|]; simpl.
  - done.
  - assert (Hlog : ∀ lv,
              debugMode (log now lv message context data s) = mode ∧
              logs (log now lv message context data s) =
                lastN maxLogs
                  (acc ++ [LogEntry.mk now lv context message data])).
    { intros lv. unfold log. simpl. split; [done|].
      rewrite Hlogs. apply lastN_snoc. unfold maxLogs. lia. }
    destruct level; simpl; try apply Hlog.
    rewrite Hmode. destruct mode; simpl; [apply Hlog | done].
  - done.
Qed.

(** After any sequence of calls the logger holds the newest 1000 of the
    entries it was asked to record since the last [clearLogs], in the order
    of the calls; a debug entry made while the debug mode is off is not
    recorded. *)
Theorem logs_newest_1000 (calls : list Call) :
  logs (after calls) = lastN 1000 (accepted calls) ∧
  (length (logs (after calls)) ≤ 1000)%nat.
Proof.
  assert (H : debugMode (after calls) = fst (fold_left accept calls (false, [])) ∧
              logs (after calls) = lastN maxLogs (accepted calls)).
  { unfold after, accepted.
    induction calls as [|c calls [IHm IHl]] using rev_ind; [done|].
    rewrite !fold_left_app. simpl. by apply step_accept. }
  destruct H as [_ H]. split; [done|]. rewrite H. unfold lastN, maxLogs.
  rewrite length_drop. lia.
Qed.

(** [getLogs(level, limit)] returns entries of the buffer that have the
    level asked for, the newest ones and in the order of the buffer: the
    last [limit] of them for a positive limit (100 when none is given), all
    of them for the limit 0, and all but the first [-limit] for a negative
    limit. *)
Theorem getLogs_limit (level : option Level) (limit : option Z) (s : t) :
  let matching :=
    match level with
    | Some lv => List.filter (λ e, levelEqb (LogEntry.level e) lv) (logs s)
    | None => logs s
    end in
  let n := default 100 limit in
  getLogs level limit s `suffix_of` matching ∧
  (0 < n → getLogs level limit s = lastN (Z.to_nat n) matching) ∧
  (n = 0 → getLogs level limit s = matching) ∧
  (n < 0 → getLogs level limit s = drop (Z.to_nat (- n)) matching).
Proof.
  intros matching n. unfold getLogs. fold matching. fold n.
  unfold sliceFrom, lastN. split_and!.
  - destruct (- n <? 0); apply suffix_drop.
  - intros Hn. destruct (Z.ltb_spec (- n) 0); [|lia]. f_equal. lia.
  - intros Hn. destruct (Z.ltb_spec (- n) 0); [lia|].
    by replace (Z.to_nat (Z.min (- n) (Z.of_nat (length matching))))
      with 0%nat by lia.
  - intros Hn. destruct (Z.ltb_spec (- n) 0); [lia|].
    destruct (Z.min_spec (- n) (Z.of_nat (length matching)))
      as [[_ ->]|[Hle ->]]; [done|].
    rewrite Nat2Z.id, !drop_ge by lia. done.
Qed.

Lemma getLogs_limit_witness :
  getLogs (Some error) (Some 0)
    (after [Emit 1 error "first" "System" None;
            Emit 2 info "second" "System" None;
            Emit 3 error "third" "System" None]) =
  List.filter (λ e, levelEqb (LogEntry.level e) error)
    (logs (after [Emit 1 error "first" "System" None;
                  Emit 2 info "second" "System" None;
                  Emit 3 error "third" "System" None])).
Proof.
  destruct (getLogs_limit (Some error) (Some 0)
              (after [Emit 1 error "first" "System" None;
                      Emit 2 info "second" "System" None;
                      Emit 3 error "third" "System" None]))
    as (_ & _ & Hzero & _).
  apply Hzero. reflexivity.
Defined.

End LoggerFacts.

(** ** The connection of the mailbox session manager *)

Module ConnectionFacts.
Import SimpleIMAPService.

Section Connection.
Context {P : Type} (io : ImapFlow P).

Lemma isActive_false (w : World P) :
  isActive w = false → negb (isConnected w) || negb (client w) = true.
Proof. unfold isActive. by destruct (isConnected w), (client w). Qed.

(** The test that opens every read: without a connection, and without a
    stored configuration or with a server that refuses the connection, it
    answers [false] and leaves the caches alone. *)
Lemma ensureConnection_offline (w : World P) :
  isActive w = false →
  match connectionConfig w with
  | None => True
  | Some config => ∃ e, fst (imap_connect io config (remote w)) = Throw e
  end →
  ∃ w',
    tryCatch (bind (ensureConnection io) (λ _, ret true)) (λ _, ret false) w =
      (Ok false, w') ∧
    emailCache w' = emailCache w ∧ folderCache w' = folderCache w ∧
    isActive w' = false ∧
    calls w' =
      calls w ++
      match connectionConfig w with
      | None => []
      | Some config => [CallConnect config]
      end.
Proof.
  intros Hoffline Hoff. pose proof (isActive_false w Hoffline) as Hact.
  unfold tryCatch, bind, ensureConnection, bind, gets. rewrite Hact.
  unfold reconnect, bind, gets.
  destruct (connectionConfig w) as [config|] eqn:Hcfg.
  - destruct Hoff as [e He].
    unfold connect, tryCatch, bind, modify, call, throw, ret. simpl.
    destruct (imap_connect io config (remote w)) as [[u|e'] p] eqn:Hconn;
      simpl in He; [done|].
    simpl. eexists. split; [reflexivity|]. simpl. done.
  - unfold throw, ret. eexists. split; [reflexivity|]. simpl.
    split_and!; try done. by rewrite app_nil_r.
Qed.

(** Without a connection that can be set up again, that is without a stored
    configuration or in front of a server that refuses the connection, the
    three reads do not fail: [getEmails] and [searchEmails] return no
    message and [getFolders] returns the cached folders.  The caches are not
    changed, and the only call made is the attempt to connect. *)
Theorem reads_offline (w : World P) (folder : string) (limit offset : Z)
    (options : SearchEmailOptions.t) :
  isActive w = false →
  match connectionConfig w with
  | None => True
  | Some config => ∃ e, fst (imap_connect io config (remote w)) = Throw e
  end →
  let quiet (w' : World P) :=
    emailCache w' = emailCache w ∧ folderCache w' = folderCache w ∧
    isActive w' = false ∧
    calls w' =
      calls w ++
      match connectionConfig w with
      | None => []
      | Some config => [CallConnect config]
      end in
  (fst (getEmails io folder limit offset w) = Ok [] ∧
   quiet (snd (getEmails io folder limit offset w))) ∧
  (fst (searchEmails io options w) = Ok [] ∧
   quiet (snd (searchEmails io options w))) ∧
  (fst (getFolders io w) = Ok (JsMap.values (folderCache w)) ∧
   quiet (snd (getFolders io w))).
Proof.
  intros Hact Hoff quiet.
  destruct (ensureConnection_offline w Hact Hoff)
    as (w' & Hrun & He & Hf & Ha & Hc).
  assert (Hquiet : quiet w') by done.
  split_and!.
  - unfold getEmails. unfold bind at 1. by rewrite Hrun.
  - unfold getEmails. unfold bind at 1. by rewrite Hrun.
  - unfold searchEmails. unfold bind at 1. by rewrite Hrun.
  - unfold searchEmails. unfold bind at 1. by rewrite Hrun.
  - unfold getFolders. unfold bind at 1. rewrite Hrun. simpl.
    unfold gets. simpl. by rewrite Hf.
  - unfold getFolders. unfold bind at 1. by rewrite Hrun.
Qed.

Lemma connect_ok config (w0 w1 : World P) :
  connect io config w0 = (Ok (), w1) →
  client w1 = true ∧ isConnected w1 = true ∧
  connectionConfig w1 = Some config ∧
  emailCache w1 = emailCache w0 ∧ folderCache w1 = folderCache w0 ∧
  calls w1 = calls w0 ++ [CallConnect config].
Proof.
  unfold connect, tryCatch, bind, modify, call, throw. simpl.
  destruct (imap_connect io config (remote w0)) as [[u|e] p]; simpl; [|done].
  by intros [= <-].
Qed.

(** The life of a connection.  After a [connect] that succeeds the service
    is active and a read makes no further call to connect; when the
    connection is then closed by the server the service is no longer active,
    and the next read connects again with the configuration of that
    [connect]; [disconnect] logs out and leaves the service inactive, but
    when the logout fails the error is thrown and the service stays
    active. *)
Theorem connection_lifecycle config (w0 w1 : World P) :
  connect io config w0 = (Ok (), w1) →
  isActive w1 = true ∧
  ensureConnection io w1 = (Ok (), w1) ∧
  isActive (onClose w1) = false ∧
  (∀ p, imap_connect io config (remote w1) = (Ok (), p) →
     ∃ w2, ensureConnection io (onClose w1) = (Ok (), w2) ∧
           isActive w2 = true ∧ remote w2 = p ∧
           calls w2 = calls w1 ++ [CallConnect config]) ∧
  calls (snd (disconnect io w1)) = calls w1 ++ [CallLogout] ∧
  match fst (imap_logout io (remote w1)) with
  | Ok _ =>
      fst (disconnect io w1) = Ok () ∧ isActive (snd (disconnect io w1)) = false
  | Throw e =>
      fst (disconnect io w1) = Throw e ∧ isActive (snd (disconnect io w1)) = true
  end.
Proof.
  intros (Hcl & Hco & Hcfg & _ & _ & Hcalls)%connect_ok.
  assert (Hact : isActive w1 = true) by (unfold isActive; by rewrite Hcl, Hco).
  split_and!.
  - done.
  - by apply PageFacts.ensureConnection_active.
  - reflexivity.
  - intros p Hp.
    unfold ensureConnection, bind, gets, reconnect, bind, gets. simpl.
    rewrite Hcfg.
    unfold connect, tryCatch, bind, modify, call, throw. simpl. rewrite Hp.
    simpl. eexists. split; [reflexivity|]. done.
  - unfold disconnect, bind, gets. rewrite Hcl, Hco. simpl.
    unfold call, modify. by destruct (imap_logout io (remote w1)) as [[u|e] p].
  - unfold disconnect, bind, gets. rewrite Hcl, Hco. simpl.
    unfold call, modify.
    destruct (imap_logout io (remote w1)) as [[[]|e] p]; simpl; [done|].
    split; [done|]. unfold isActive. simpl. by rewrite Hcl, Hco.
Qed.


End Connection.

Lemma reads_offline_witness :
  fst (getEmails MockImap.imap "INBOX" 10 0 (init MockImap.inbox5 0)) = Ok [].
Proof.
  apply (reads_offline MockImap.imap (init MockImap.inbox5 0) "INBOX" 10 0
           (SearchEmailOptions.mk None None None None None None None None
              None)).
  - reflexivity.
  - exact I.
Defined.

Lemma connection_lifecycle_witness :
  isActive (MockImap.connected MockImap.inbox5) = true.
Proof.
  apply (connection_lifecycle MockImap.imap MockImap.config
           (init MockImap.inbox5 0) (MockImap.connected MockImap.inbox5)).
  reflexivity.
Defined.

End ConnectionFacts.

(** ** The bulk move accounts for every identifier *)

Module BulkAccounting.
Import SimpleIMAPService BulkSpec.

Section Accounting.
Context {P : Type} (io : ImapFlow P).

Lemma resolveOne_counts acc emailId (w : World P) :
  ∃ acc' w',
    resolveOne io acc emailId w = (Ok acc', w') ∧
    BulkResult.success acc'.1 = BulkResult.success acc.1 ∧
    (BulkResult.failed acc'.1 + length (groupedIds acc'.2) =
     BulkResult.failed acc.1 + length (groupedIds acc.2) + 1)%nat ∧
    (length (BulkResult.errors acc'.1) + BulkResult.failed acc.1 =
     length (BulkResult.errors acc.1) + BulkResult.failed acc'.1)%nat.
Proof.
  unfold resolveOne, tryCatch, bind, ret.
  destruct (getEmailById io emailId w) as [[[e|]|err] w1]; simpl.
  - eexists _, _. split; [reflexivity|]. simpl.
    rewrite (Permutation_length (BulkFacts.pushId_grouped _ _ _)).
    rewrite length_app. simpl. lia.
  - eexists _, _. split; [reflexivity|]. simpl. rewrite length_app. simpl. lia.
  - eexists _, _. split; [reflexivity|]. simpl. rewrite length_app. simpl. lia.
Qed.

Lemma resolveAll_counts emailIds acc (w : World P) :
  ∃ acc' w',
    forEach (resolveOne io) emailIds acc w = (Ok acc', w') ∧
    BulkResult.success acc'.1 = BulkResult.success acc.1 ∧
    (BulkResult.failed acc'.1 + length (groupedIds acc'.2) =
     BulkResult.failed acc.1 + length (groupedIds acc.2) + length emailIds)%nat ∧
    (length (BulkResult.errors acc'.1) + BulkResult.failed acc.1 =
     length (BulkResult.errors acc.1) + BulkResult.failed acc'.1)%nat.
Proof.
  revert acc w. induction emailIds as [|x rest IH]; intros acc w; simpl.
  - exists acc, w. unfold ret. split_and!; [done | done | lia | lia].
  - destruct (resolveOne_counts acc x w) as (acc1 & w1 & Hone & Hs & Hf & He).
    destruct (IH acc1 w1) as (acc' & w' & Hrest & Hs' & Hf' & He').
    exists acc', w'. unfold bind. rewrite Hone.
    split_and!; [done | congruence | lia | lia].
Qed.

Lemma moveOne_counts targetFolder r emailId (w : World P) :
  ∃ r' w',
    moveOne io targetFolder r emailId w = (Ok r', w') ∧
    (BulkResult.success r' + BulkResult.failed r' =
     BulkResult.success r + BulkResult.failed r + 1)%nat ∧
    (length (BulkResult.errors r') + BulkResult.failed r =
     length (BulkResult.errors r) + BulkResult.failed r')%nat.
Proof.
  unfold moveOne, tryCatch, bind, call, modify, ret.
  destruct (imap_messageMove io emailId targetFolder (remote w)) as [[u|e] p];
    simpl; eexists _, _; (split; [reflexivity|]); simpl;
    rewrite ?length_app; simpl; lia.
Qed.

Lemma moveIds_counts targetFolder ids r (w : World P) :
  ∃ r' w',
    forEach (moveOne io targetFolder) ids r w = (Ok r', w') ∧
    (BulkResult.success r' + BulkResult.failed r' =
     BulkResult.success r + BulkResult.failed r + length ids)%nat ∧
    (length (BulkResult.errors r') + BulkResult.failed r =
     length (BulkResult.errors r) + BulkResult.failed r')%nat.
Proof.
  revert r w. induction ids as [|x ids IH]; intros r w; simpl.
  - exists r, w. unfold ret. split_and!; [done | lia | lia].
  - destruct (moveOne_counts targetFolder r x w) as (r1 & w1 & Hone & Hs & He).
    destruct (IH r1 w1) as (r' & w' & Hrest & Hs' & He').
    exists r', w'. unfold bind. rewrite Hone.
    split_and!; [done | lia | lia].
Qed.

Lemma moveGroups_counts targetFolder (groups : list (string * list string)) r
    (w : World P) :
  match fst (forEach (moveGroup io targetFolder) groups r w) with
  | Ok r' =>
      (BulkResult.success r' + BulkResult.failed r' =
       BulkResult.success r + BulkResult.failed r +
       length (concat (map snd groups)))%nat ∧
      (length (BulkResult.errors r') + BulkResult.failed r =
       length (BulkResult.errors r) + BulkResult.failed r')%nat
  | Throw e => ∃ path p, fst (imap_getMailboxLock io path p) = Throw e
  end.
Proof.
  revert r w. induction groups as [|[folder ids] groups IH]; intros r w; simpl.
  - unfold ret. simpl. split; lia.
  - unfold bind at 1. unfold moveGroup at 1. simpl.
    unfold bind at 1, call at 1.
    destruct (imap_getMailboxLock io folder (remote w)) as [[u|e] p] eqn:Hlock.
    + unfold finally.
      match goal with
      | |- context [forEach (moveOne io targetFolder) ids r ?w0] =>
          destruct (moveIds_counts targetFolder ids r w0)
            as (r1 & w1 & -> & Hs & He)
      end.
      match goal with
      | |- context [forEach (moveGroup io targetFolder) groups r1 ?w0] =>
          specialize (IH r1 w0);
          destruct (forEach (moveGroup io targetFolder) groups r1 w0)
            as [[r'|e] w']
      end; simpl in *; [|done].
      rewrite length_app. lia.
    + simpl. exists folder, (remote w). by rewrite Hlock.
Qed.

(** [bulkMoveEmails] accounts for every identifier it is given: when it
    returns, [success] and [failed] add up to the number of identifiers and
    there is one error message for each failure.  It throws only when the
    service is not connected, before any call, or when the client refuses a
    mailbox lock in the second phase. *)
Theorem bulkMoveEmails_accounts (emailIds : list string) (targetFolder : string)
    (w : World P) :
  (notConnected w = true →
   bulkMoveEmails io emailIds targetFolder w =
     (Throw (Error "IMAP client not connected"), w)) ∧
  match fst (bulkMoveEmails io emailIds targetFolder w) with
  | Ok r =>
      (BulkResult.success r + BulkResult.failed r = length emailIds)%nat ∧
      length (BulkResult.errors r) = BulkResult.failed r
  | Throw e =>
      notConnected w = true ∨
      ∃ path p, fst (imap_getMailboxLock io path p) = Throw e
  end.
Proof.
  assert (Hrun :
    bulkMoveEmails io emailIds targetFolder w =
    if notConnected w then (Throw (Error "IMAP client not connected"), w)
    else bind
           (forEach (resolveOne io) emailIds
              (BulkResult.mk 0 0 [], JsMap.empty))
           (λ resolved,
              forEach (moveGroup io targetFolder) (JsMap.entries resolved.2)
                resolved.1) w).
  { unfold bulkMoveEmails, bind at 1, gets. by destruct (notConnected w). }
  rewrite Hrun. clear Hrun.
  destruct (notConnected w) eqn:Hn.
  - split; [done|]. simpl. by left.
  - split; [done|]. unfold bind.
    destruct (resolveAll_counts emailIds (BulkResult.mk 0 0 [], JsMap.empty) w)
      as (acc & w1 & -> & Hs & Hf & He). simpl in Hs, Hf, He.
    pose proof (moveGroups_counts targetFolder (JsMap.entries acc.2) acc.1 w1)
      as Hmove.
    destruct (forEach (moveGroup io targetFolder) (JsMap.entries acc.2) acc.1 w1)
      as [[r|e] w2]; simpl in *; [|by right].
    unfold groupedIds, JsMap.values, JsMap.entries in *. lia.
Qed.

End Accounting.

Lemma bulkMoveEmails_accounts_witness :
  bulkMoveEmails MockImap.imap ["1"; "2"] "Archive" (init MockImap.inbox5 0) =
  (Throw (Error "IMAP client not connected"), init MockImap.inbox5 0).
Proof.
  apply (bulkMoveEmails_accounts MockImap.imap ["1"; "2"] "Archive"
           (init MockImap.inbox5 0)).
  reflexivity.
Defined.

End BulkAccounting.

(** ** No read and no change of the mailbox leaves a lock behind *)

Module LockFacts.
Import SimpleIMAPService LockSpec.

Section Locks.
Context {P : Type} (io0 : ImapFlow P).

Local Abbreviation io := (tracked io0).
Local Abbreviation balanced := (ServiceSpec.stable (P := P * list string) sameLocks).

Lemma bal_ret {A} (a : A) : balanced (ret a).
Proof. by intros w. Qed.

Lemma bal_throw {A} e : balanced (throw (A := A) e).
Proof. by intros w. Qed.

Lemma bal_gets {A} (f : World (P * list string) → A) : balanced (gets f).
Proof. by intros w. Qed.

Lemma bal_modify f : (∀ w, remote (f w) = remote w) → balanced (modify f).
Proof. intros Hf w. unfold sameLocks, held. simpl. by rewrite Hf. Qed.

Lemma bal_bind {A B} (m : M (P * list string) A) (k : A → M (P * list string) B) :
  balanced m → (∀ a, balanced (k a)) → balanced (bind m k).
Proof.
  intros Hm Hk w. unfold bind. specialize (Hm w).
  destruct (m w) as [[a|e] w']; simpl in *; [|done].
  unfold sameLocks in *. rewrite <- Hm. apply Hk.
Qed.

Lemma bal_tryCatch {A} (m : M (P * list string) A) h :
  balanced m → (∀ e, balanced (h e)) → balanced (tryCatch m h).
Proof.
  intros Hm Hh w. unfold tryCatch. specialize (Hm w).
  destruct (m w) as [[a|e] w']; simpl in *; [done|].
  unfold sameLocks in *. rewrite <- Hm. apply Hh.
Qed.

Lemma bal_forEach {A S} (body : S → A → M (P * list string) S) l s :
  (∀ s x, balanced (body s x)) → balanced (forEach body l s).
Proof.
  intros Hb. revert s. induction l as [|x l IH]; intros s; simpl.
  - apply bal_ret.
  - apply bal_bind; [apply Hb | apply IH].
Qed.

Lemma bal_call {A} c (op : P * list string → Res A * (P * list string)) :
  (∀ s, snd (snd (op s)) = snd s) → balanced (call c op).
Proof.
  intros Hop w. unfold call. specialize (Hop (remote w)).
  destruct (op (remote w)) as [r p]. exact Hop.
Qed.

Lemma lift_same {A} (op : P → Res A * P) s : snd (snd (lift op s)) = snd s.
Proof. unfold lift. by destruct (op (fst s)). Qed.

Lemma bal_lift {A} c (op : P → Res A * P) : balanced (call c (lift op)).
Proof. apply bal_call, lift_same. Qed.

(** A lock that is granted is released when the block under it ends,
    whether the block returns or throws; a lock that is refused is not
    held. *)
Lemma locked_core {A} path (body : M (P * list string) A) w :
  balanced body →
  match call (CallGetMailboxLock path) (imap_getMailboxLock io path) w with
  | (Ok _, w1) => sameLocks w (snd (finally body (release io path) w1))
  | (Throw _, w1) => sameLocks w w1
  end.
Proof.
  intros Hbody. unfold call. simpl.
  destruct (imap_getMailboxLock io0 path (fst (remote w))) as [[u|e] p];
    [|done].
  unfold finally.
  match goal with |- context [body ?w0] => specialize (Hbody w0) end.
  destruct (body _) as [r w1]. unfold sameLocks, held in *. simpl in *.
  rewrite Hbody. simpl. by rewrite decide_True.
Qed.

Lemma bal_locked {A} path (body : M (P * list string) A) :
  balanced body →
  balanced (bind (call (CallGetMailboxLock path) (imap_getMailboxLock io path))
              (λ _, finally body (release io path))).
Proof.
  intros Hbody w. unfold bind. pose proof (locked_core path body w Hbody) as H.
  by destruct (call _ _ w) as [[u|e] w1].
Qed.

Lemma bal_locked_then {A B} path (body : M (P * list string) A)
    (k : A → M (P * list string) B) :
  balanced body → (∀ a, balanced (k a)) →
  balanced (bind (call (CallGetMailboxLock path) (imap_getMailboxLock io path))
              (λ _, bind (finally body (release io path)) k)).
Proof.
  intros Hbody Hk w. unfold bind.
  pose proof (locked_core path body w Hbody) as H.
  destruct (call _ _ w) as [[u|e] w1]; [|done].
  destruct (finally body (release io path) w1) as [[a|e] w2]; [|done].
  simpl in H. unfold sameLocks in *. rewrite <- H. apply Hk.
Qed.

Lemma bal_fetch range : balanced (fetch io range).
Proof.
  unfold fetch. apply bal_call. intros s. simpl.
  by destruct (imap_fetch io0 range (fst s)).
Qed.

Lemma bal_ensureConnection : balanced (ensureConnection io).
Proof.
  unfold ensureConnection. apply bal_bind; [apply bal_gets|]. intros w.
  destruct (negb (isConnected w) || negb (client w)); [|apply bal_ret].
  unfold reconnect. apply bal_bind; [apply bal_gets|].
  intros [config|]; [|apply bal_throw].
  unfold connect. apply bal_tryCatch.
  - apply bal_bind; [by apply bal_modify|]. intros _.
    apply bal_bind; [by apply bal_modify|]. intros _.
    apply bal_bind; [apply bal_lift|]. intros _. by apply bal_modify.
  - intros e. apply bal_bind; [by apply bal_modify | intros _; apply bal_throw].
Qed.

Lemma bal_connected :
  balanced (tryCatch (bind (ensureConnection io) (λ _, ret true))
              (λ _, ret false)).
Proof.
  apply bal_tryCatch; [|intros _; apply bal_ret].
  apply bal_bind; [apply bal_ensureConnection | intros _; apply bal_ret].
Qed.

Lemma bal_getFolders : balanced (getFolders io).
Proof.
  unfold getFolders. apply bal_bind; [apply bal_connected|].
  intros connected. destruct (negb connected); [apply bal_gets|].
  apply bal_bind; [apply bal_gets|].
  intros hasClient. destruct (negb hasClient); [apply bal_gets|].
  apply bal_bind; [apply bal_lift|].
  intros folders. apply bal_forEach. intros s x.
  apply bal_bind; [apply bal_lift|]. intros status.
  apply bal_bind; [by apply bal_modify | intros _; apply bal_ret].
Qed.

Lemma bal_getEmails folder limit offset :
  balanced (getEmails io folder limit offset).
Proof.
  unfold getEmails. apply bal_bind; [apply bal_connected|].
  intros connected. destruct (negb connected); [apply bal_ret|].
  apply bal_bind; [apply bal_gets|].
  intros hasClient. destruct (negb hasClient); [apply bal_ret|].
  apply bal_locked. apply bal_bind; [apply bal_gets|]. intros total.
  destruct (_ || _); [apply bal_ret|].
  apply bal_bind; [apply bal_fetch|]. intros fetched.
  apply bal_bind.
  - apply bal_forEach. intros s x. unfold collectEmail.
    destruct (FetchItem.source x) as [source|]; [|apply bal_ret].
    simpl. destruct (simpleParser io0 source); [|apply bal_ret].
    apply bal_bind; [apply bal_gets|]. intros now.
    apply bal_bind; [by apply bal_modify | intros _; apply bal_ret].
  - intros messages. destruct (snd fetched); [apply bal_throw | apply bal_ret].
Qed.

Lemma bal_firstFetched folder items ending :
  balanced (firstFetched io folder items ending).
Proof.
  induction items as [|message rest IH]; simpl.
  - destruct ending; [apply bal_throw | apply bal_ret].
  - destruct (FetchItem.source message) as [source|]; [|done].
    destruct (simpleParser io0 source); [|apply bal_throw].
    apply bal_bind; [apply bal_gets|]. intros now.
    apply bal_bind; [by apply bal_modify | intros _; apply bal_ret].
Qed.

Lemma bal_searchFolders emailId folders :
  balanced (searchFolders io emailId folders).
Proof.
  induction folders as [|folder rest IH]; [apply bal_ret|].
  cbn [searchFolders]. apply bal_locked_then.
  - apply bal_bind; [apply bal_fetch|]. intros fetched. apply bal_firstFetched.
  - intros [m|]; [apply bal_ret | apply IH].
Qed.

Lemma bal_getEmailById emailId : balanced (getEmailById io emailId).
Proof.
  unfold getEmailById. apply bal_bind; [apply bal_gets|]. intros w.
  destruct (JsMap.get emailId (emailCache w)); [apply bal_ret|].
  destruct (negb (client w) || negb (isConnected w)); [apply bal_ret|].
  apply bal_bind; [apply bal_getFolders|]. intros folders.
  apply bal_searchFolders.
Qed.

Lemma bal_searchEmails options : balanced (searchEmails io options).
Proof.
  unfold searchEmails. apply bal_bind; [apply bal_connected|].
  intros connected. destruct (negb connected); [apply bal_ret|].
  apply bal_bind; [apply bal_gets|].
  intros hasClient. destruct (negb hasClient); [apply bal_ret|].
  apply bal_locked. apply bal_bind; [apply bal_lift|]. intros uids.
  apply bal_forEach. intros results uid.
  apply bal_bind; [apply bal_getEmailById|].
  intros [e|]; apply bal_ret.
Qed.

Lemma remote_updateCached emailId f (w : World (P * list string)) :
  remote (updateCached emailId f w) = remote w.
Proof. unfold updateCached. by destruct (JsMap.get emailId (emailCache w)). Qed.

Lemma bal_markEmailRead emailId isRead :
  balanced (markEmailRead io emailId isRead).
Proof.
  unfold markEmailRead. apply bal_bind; [apply bal_gets|]. intros w.
  destruct (notConnected w); [apply bal_ret|].
  apply bal_bind; [apply bal_getEmailById|].
  intros [email|]; [|apply bal_throw].
  apply bal_locked. apply bal_bind; [destruct isRead; apply bal_lift|].
  intros _. apply bal_bind; [|intros _; apply bal_ret].
  apply bal_modify, remote_updateCached.
Qed.

Lemma bal_starEmail emailId isStarred :
  balanced (starEmail io emailId isStarred).
Proof.
  unfold starEmail. apply bal_bind; [apply bal_gets|]. intros w.
  destruct (notConnected w); [apply bal_ret|].
  apply bal_bind; [apply bal_getEmailById|].
  intros [email|]; [|apply bal_throw].
  apply bal_locked. apply bal_bind; [destruct isStarred; apply bal_lift|].
  intros _. apply bal_bind; [|intros _; apply bal_ret].
  apply bal_modify, remote_updateCached.
Qed.

Lemma bal_moveEmail emailId targetFolder :
  balanced (moveEmail io emailId targetFolder).
Proof.
  unfold moveEmail. apply bal_bind; [apply bal_gets|]. intros w.
  destruct (notConnected w); [apply bal_ret|].
  apply bal_bind; [apply bal_getEmailById|].
  intros [email|]; [|apply bal_throw].
  apply bal_locked. apply bal_bind; [apply bal_lift|].
  intros _. apply bal_bind; [|intros _; apply bal_ret].
  apply bal_modify, remote_updateCached.
Qed.

Lemma bal_deleteEmail emailId : balanced (deleteEmail io emailId).
Proof.
  unfold deleteEmail. apply bal_bind; [apply bal_gets|]. intros w.
  destruct (notConnected w); [apply bal_ret|].
  apply bal_bind; [apply bal_getEmailById|].
  intros [email|]; [|apply bal_throw].
  apply bal_locked. apply bal_bind; [apply bal_lift|].
  intros _. apply bal_bind; [|intros _; apply bal_ret].
  by apply bal_modify.
Qed.

Lemma bal_bulkMoveEmails emailIds targetFolder :
  balanced (bulkMoveEmails io emailIds targetFolder).
Proof.
  unfold bulkMoveEmails. apply bal_bind; [apply bal_gets|]. intros w.
  destruct (notConnected w); [apply bal_throw|].
  apply bal_bind.
  - apply bal_forEach. intros acc emailId. unfold resolveOne.
    apply bal_tryCatch; [|intros e; apply bal_ret].
    apply bal_bind; [apply bal_getEmailById|]. intros [email|]; apply bal_ret.
  - intros resolved. apply bal_forEach. intros results group.
    unfold moveGroup. apply bal_locked. apply bal_forEach.
    intros r emailId. unfold moveOne.
    apply bal_tryCatch; [|intros e; apply bal_ret].
    apply bal_bind; [apply bal_lift|]. intros _.
    apply bal_bind; [|intros _; apply bal_ret].
    apply bal_modify, remote_updateCached.
Qed.

(** Whatever the server answers, every read and every change of the
    mailbox ends with the locks it started with: a mailbox lock that was
    granted is released on the way out, also when the operation throws, and
    a lock that was refused is not released. *)
Theorem no_lock_is_left (w : World (P * list string)) :
  (∀ folder limit offset,
     held (snd (getEmails io folder limit offset w)) = held w) ∧
  (∀ emailId, held (snd (getEmailById io emailId w)) = held w) ∧
  (∀ options, held (snd (searchEmails io options w)) = held w) ∧
  (∀ emailId isRead,
     held (snd (markEmailRead io emailId isRead w)) = held w) ∧
  (∀ emailId isStarred,
     held (snd (starEmail io emailId isStarred w)) = held w) ∧
  (∀ emailId targetFolder,
     held (snd (moveEmail io emailId targetFolder w)) = held w) ∧
  (∀ emailId, held (snd (deleteEmail io emailId w)) = held w) ∧
  (∀ emailIds targetFolder,
     held (snd (bulkMoveEmails io emailIds targetFolder w)) = held w).
Proof.
  split_and!; intros.
  - apply bal_getEmails.
  - apply bal_getEmailById.
  - apply bal_searchEmails.
  - apply bal_markEmailRead.
  - apply bal_starEmail.
  - apply bal_moveEmail.
  - apply bal_deleteEmail.
  - apply bal_bulkMoveEmails.
Qed.

End Locks.
End LockFacts.

(** ** Search results and folder changes *)

Module SearchResultFacts.
Import SimpleIMAPService.

Section Results.
Context {P : Type} (io : ImapFlow P).

Lemma collect_views (uids : list N) (results : list EmailMessage.t)
    (w : World P) :
  match fst (forEach
               (λ results uid,
                  bind (getEmailById io (pretty uid))
                    (λ email,
                       match email with
                       | Some e => ret (results ++ [listView e])
                       | None => ret results
                       end))
               uids results w) with
  | Ok results' =>
      (length results' ≤ length results + length uids)%nat ∧
      (Forall (λ e, ∃ full, e = listView full) results →
       Forall (λ e, ∃ full, e = listView full) results')
  | Throw _ => True
  end.
Proof.
  revert results w. induction uids as [|uid uids IH]; intros results w; simpl.
  - unfold ret. simpl. split; [lia | done].
  - unfold bind at 1. unfold bind at 1.
    destruct (getEmailById io (pretty uid) w) as [[[e|]|err] w1]; simpl;
      [| |done].
    + unfold ret at 1. specialize (IH (results ++ [listView e]) w1).
      destruct (forEach _ uids (results ++ [listView e]) w1) as [[r|err] w2];
        simpl in *; [|done].
      destruct IH as [Hlen Hall]. rewrite length_app in Hlen. simpl in Hlen.
      split; [lia|]. intros Hres. apply Hall, Forall_app. split; [done|].
      constructor; [by exists e | constructor].
    + unfold ret at 1. specialize (IH results w1).
      destruct (forEach _ uids results w1) as [[r|err] w2]; simpl in *; [|done].
      destruct IH as [Hlen Hall]. split; [lia | done].
Qed.

(** What [searchEmails] returns are list views, that is messages with the
    body cut to a preview and attachments without content, and for a limit
    that is not negative there are no more of them than the limit, which is
    100 when the limit is 0 or not given. *)
Theorem searchEmails_results (options : SearchEmailOptions.t) (w : World P) :
  let limit :=
    match SearchEmailOptions.limit options with
    | Some l => if l =? 0 then 100 else l
    | None => 100
    end in
  match fst (searchEmails io options w) with
  | Ok results =>
      (0 ≤ limit → (length results ≤ Z.to_nat limit)%nat) ∧
      Forall (λ e, ∃ full, e = listView full) results
  | Throw _ => True
  end.
Proof.
  intros limit. unfold searchEmails. unfold bind at 1.
  destruct (tryCatch _ _ w) as [[connected|e] w1]; [|done].
  destruct connected; simpl;
    [|unfold ret; simpl; split; [intros; simpl; lia | constructor]].
  unfold bind at 1, gets at 1. destruct (client w1); simpl;
    [|unfold ret; simpl; split; [intros; simpl; lia | constructor]].
  unfold bind at 1.
  destruct (call _ _ w1) as [[u|e] w2]; [|done].
  unfold finally. fold limit.
  match goal with
  | |- context [bind ?m ?k w2] => destruct (bind m k w2) as [r w3] eqn:Hrun
  end.
  simpl. unfold bind at 1 in Hrun.
  destruct (call (CallSearch _) _ w2) as [[uids|e] w4];
    [|by injection Hrun as <- _].
  match type of Hrun with
  | forEach ?body ?l [] w4 = _ =>
      pose proof (collect_views l [] w4) as Hviews
  end.
  rewrite Hrun in Hviews. simpl in Hviews. destruct r as [results|e]; [|done].
  destruct Hviews as [Hlen Hall]. split; [|apply Hall; constructor].
  intros Hpos. etrans; [exact Hlen|]. simpl.
  destruct uids as [uids|]; simpl; [|lia].
  unfold slice0. destruct (Z.leb_spec 0 limit); [|lia].
  rewrite length_take. lia.
Qed.

(** The three changes of the folder tree never touch the cache of messages.
    When one succeeds the cache of folders is emptied; when one throws the
    cache of folders is kept; and on a service that is not active each of
    them throws before any call is made.  A message that was cached before a
    folder was renamed therefore still names the old folder. *)
Theorem folder_changes_and_caches (w : World P) (name newName : string) :
  let effect (r : Res bool * World P) :=
    emailCache (snd r) = emailCache w ∧
    match fst r with
    | Ok done => done = true ∧ folderCache (snd r) = JsMap.empty
    | Throw _ => folderCache (snd r) = folderCache w
    end ∧
    (isActive w = false →
     r = (Throw (Error "IMAP client not connected"), w)) in
  effect (createFolder io name w) ∧
  effect (deleteFolder io name w) ∧
  effect (renameFolder io name newName w).
Proof.
  intros effect. subst effect. simpl.
  assert (Hoff : isActive w = false →
                 negb (isConnected w) || negb (client w) = true).
  { apply ConnectionFacts.isActive_false. }
  assert (Hon : negb (isConnected w) || negb (client w) = false →
                isActive w = false → False).
  { unfold isActive. destruct (isConnected w), (client w); simpl; congruence. }
  split; [|split].
  - unfold createFolder, bind, gets.
    destruct (negb (isConnected w) || negb (client w)) eqn:Hc; [done|].
    unfold tryCatch, bind, call, modify, ret, throw.
    destruct (imap_mailboxCreate io name (remote w)) as [[u|e] p]; simpl.
    + split_and!; first [done | intros H; by destruct (Hon eq_refl H)].
    + destruct (responseIncludes e "ALREADYEXISTS"); simpl;
        (split_and!; first [done | intros H; by destruct (Hon eq_refl H)]).
  - unfold deleteFolder, bind, gets.
    destruct (negb (isConnected w) || negb (client w)) eqn:Hc; [done|].
    destruct (isProtected name);
      [simpl; split_and!; first [done | intros H; by destruct (Hon eq_refl H)]|].
    unfold tryCatch, bind, call, modify, ret, throw.
    destruct (imap_mailboxDelete io name (remote w)) as [[u|e] p]; simpl.
    + split_and!; first [done | intros H; by destruct (Hon eq_refl H)].
    + destruct (responseIncludes e "NONEXISTENT");
        [|destruct (responseIncludes e "HASCHILDREN"
                    || responseIncludes e "not empty")]; simpl;
        (split_and!; first [done | intros H; by destruct (Hon eq_refl H)]).
  - unfold renameFolder, bind, gets.
    destruct (negb (isConnected w) || negb (client w)) eqn:Hc; [done|].
    destruct (isProtected name);
      [simpl; split_and!; first [done | intros H; by destruct (Hon eq_refl H)]|].
    unfold tryCatch, bind, call, modify, ret, throw.
    destruct (imap_mailboxRename io name newName (remote w)) as [[u|e] p]; simpl.
    + split_and!; first [done | intros H; by destruct (Hon eq_refl H)].
    + destruct (responseIncludes e "NONEXISTENT");
        [|destruct (responseIncludes e "ALREADYEXISTS")]; simpl;
        (split_and!; first [done | intros H; by destruct (Hon eq_refl H)]).
Qed.

End Results.

Lemma folder_changes_and_caches_witness :
  createFolder MockImap.imap "Projects" (init MockImap.inbox5 0) =
  (Throw (Error "IMAP client not connected"), init MockImap.inbox5 0).
Proof.
  destruct (folder_changes_and_caches MockImap.imap (init MockImap.inbox5 0)
              "Projects" "Work") as [(_ & _ & H) _].
  apply H. reflexivity.
Defined.

Lemma searchEmails_results_witness :
  ∃ results,
    fst (searchEmails MockImap.imap
           (SearchEmailOptions.mk None None None None None None None None
              (Some 2))
           (MockImap.connected MockImap.inbox5)) = Ok results ∧
    (length results ≤ 2)%nat.
Proof.
  pose proof (searchEmails_results MockImap.imap
                (SearchEmailOptions.mk None None None None None None None None
                   (Some 2))
                (MockImap.connected MockImap.inbox5)) as H.
  cbv zeta in H.
  destruct (fst (searchEmails MockImap.imap _ _)) as [results|e] eqn:Hrun;
    [|vm_compute in Hrun; discriminate Hrun].
  exists results. split; [reflexivity|]. apply H. simpl. lia.
Defined.

End SearchResultFacts.

(** ** What the volume trends count *)

Module VolumeFacts.
Import Analytics AnalyticsQueries SortFacts.

Lemma window_spec (dates : list string) :
  let m0 : JsMap.t string (nat * nat) :=
    fold_left (λ trends d, JsMap.set d (0%nat, 0%nat) trends) dates
      JsMap.empty in
  NoDup (JsMap.keys m0) ∧ (length m0 ≤ length dates)%nat ∧
  (∀ d, d ∈ JsMap.keys m0 → JsMap.get d m0 = Some (0%nat, 0%nat)) ∧
  (∀ d, d ∈ JsMap.keys m0 ↔ d ∈ dates).
Proof.
  induction dates as [|d dates IH] using rev_ind; simpl.
  - split_and!; [apply NoDup_nil_2 | done | by intros d H%elem_of_nil |].
    intros d. by split; intros H%elem_of_nil.
  - rewrite fold_left_app. simpl. destruct IH as (Hnd & Hlen & Hget & Hkeys).
    set (m := fold_left _ dates JsMap.empty) in *.
    split_and!.
    + by apply JsMapFacts.NoDup_keys_set.
    + rewrite length_app. simpl.
      rewrite <- (length_map fst (JsMap.set _ _ _)).
      fold (JsMap.keys (JsMap.set d (0%nat, 0%nat) m)).
      rewrite JsMapFacts.keys_set. unfold JsMap.keys.
      destruct (JsMap.has d m); rewrite ?length_app, length_map; simpl; lia.
    + intros d' Hd'. destruct (decide (d = d')) as [->|Hne].
      * apply JsMapFacts.get_set_eq.
      * rewrite JsMapFacts.get_set_ne by done. apply Hget.
        rewrite JsMapFacts.keys_set in Hd'.
        destruct (JsMap.has d m); [done|].
        apply elem_of_app in Hd' as [?|Hd']; [done|].
        apply list_elem_of_singleton in Hd'. congruence.
    + intros d'. rewrite JsMapFacts.keys_set, elem_of_app, <- Hkeys.
      rewrite list_elem_of_singleton.
      destruct (JsMap.has d m) eqn:Hhas;
        [|by rewrite elem_of_app, list_elem_of_singleton].
      split; [by left|]. intros [?| ->]; [done|].
      apply JsMapFacts.has_true in Hhas as [v Hv].
      destruct (decide (d ∈ JsMap.keys m)) as [|Hn]; [done|].
      apply JsMapFacts.get_None_keys in Hn. congruence.
Qed.

Lemma counting_spec (m0 : JsMap.t string (nat * nat))
    (es : list EmailMessage.t) :
  (∀ d, d ∈ JsMap.keys m0 → JsMap.get d m0 = Some (0%nat, 0%nat)) →
  let m :=
    fold_left
      (λ trends email,
         let dateStr := JsDate.toISODate (EmailMessage.date email) in
         match JsMap.get dateStr trends with
         | Some (nReceived, nSent) =>
             JsMap.set dateStr (S nReceived, nSent) trends
         | None => trends
         end)
      es m0 in
  JsMap.keys m = JsMap.keys m0 ∧
  ∀ d, d ∈ JsMap.keys m0 →
    JsMap.get d m =
    Some (length (filter (λ e, JsDate.toISODate (EmailMessage.date e) = d) es),
          0%nat).
Proof.
  intros H0. induction es as [|e es IH] using rev_ind; simpl.
  - split; [done|]. intros d Hd. by apply H0.
  - rewrite fold_left_app. simpl. destruct IH as [Hkeys Hget].
    set (m := fold_left _ es m0) in *.
    set (de := JsDate.toISODate (EmailMessage.date e)).
    destruct (JsMap.get de m) as [[r n]|] eqn:Hg.
    + assert (Hde : de ∈ JsMap.keys m0).
      { rewrite <- Hkeys. destruct (decide (de ∈ JsMap.keys m)) as [|Hn]; [done|].
        apply JsMapFacts.get_None_keys in Hn. congruence. }
      split.
      * rewrite JsMapFacts.keys_set. unfold JsMap.has. by rewrite Hg.
      * intros d Hd. rewrite filter_app, length_app, filter_cons, filter_nil.
        fold de. destruct (decide (de = d)) as [<-|Hne].
        -- rewrite JsMapFacts.get_set_eq. rewrite (Hget de Hde) in Hg.
           injection Hg as <- <-. simpl. f_equal. f_equal. lia.
        -- rewrite JsMapFacts.get_set_ne by done. rewrite (Hget d Hd).
           simpl. f_equal. f_equal. lia.
    + split; [done|]. intros d Hd.
      rewrite filter_app, length_app, filter_cons, filter_nil. fold de.
      destruct (decide (de = d)) as [<-|Hne].
      * apply JsMapFacts.get_None_keys in Hg. by rewrite Hkeys in Hg.
      * rewrite (Hget d Hd). simpl. f_equal. f_equal. lia.
Qed.

(** Whatever the time zone, [getVolumeTrends(days)] has at most [days]
    entries, with different dates; the date of an entry is the UTC date of
    one of the local days of the window, its [received] is the number of
    stored messages with that UTC date, sent ones included, and its [sent]
    is 0. *)
Theorem getVolumeTrends_counts tz (now days : Z) (s : AnalyticsService) :
  let result := getVolumeTrends tz now days s in
  (length result ≤ Z.to_nat days)%nat ∧
  NoDup (map VolumeTrend.date result) ∧
  Forall
    (λ t,
       (∃ i, (i < Z.to_nat days)%nat ∧
             VolumeTrend.date t =
               JsDate.toISODate
                 (JsDate.setDate tz now (JsDate.getDate tz now - Z.of_nat i))) ∧
       VolumeTrend.received t =
         length (filter (λ e, JsDate.toISODate (EmailMessage.date e) =
                              VolumeTrend.date t) (emails s)) ∧
       VolumeTrend.sent t = 0%nat)
    result.
Proof.
  intros result. subst result. unfold getVolumeTrends, calculateVolumeTrends.
  set (day := λ i : nat,
         JsDate.toISODate
           (JsDate.setDate tz now (JsDate.getDate tz now - Z.of_nat i))).
  set (m0 := fold_left _ (seq 0 (Z.to_nat days)) JsMap.empty).
  assert (Hm0 : m0 = fold_left (λ trends d, JsMap.set d (0%nat, 0%nat) trends)
                       (map day (seq 0 (Z.to_nat days))) JsMap.empty).
  { subst m0. generalize (JsMap.empty : JsMap.t string (nat * nat)).
    induction (seq 0 (Z.to_nat days)) as [|i l IH]; intros m; simpl; [done|].
    apply IH. }
  destruct (window_spec (map day (seq 0 (Z.to_nat days))))
    as (Hnd & Hlen & Hzero & Hkeys).
  rewrite <- Hm0 in Hnd, Hlen, Hzero, Hkeys.
  rewrite length_map, length_seq in Hlen.
  destruct (counting_spec m0 (emails s) Hzero) as [Hsame Hget].
  set (m := fold_left _ (emails s) m0) in *.
  set (toTrend := λ '(date, (nReceived, nSent)),
         VolumeTrend.mk date nReceived nSent).
  assert (Hdates : map VolumeTrend.date (map toTrend (JsMap.entries m)) =
                   JsMap.keys m).
  { unfold JsMap.entries, JsMap.keys. rewrite map_map. apply map_ext.
    by intros [d [r n]]. }
  pose proof (sortBy_perm
    (λ a b, localeLe (VolumeTrend.date a) (VolumeTrend.date b))
    (map toTrend (JsMap.entries m))) as Hperm.
  split_and!.
  - rewrite (Permutation_length Hperm), length_map. unfold JsMap.entries.
    rewrite <- (length_map fst m). fold (JsMap.keys m). rewrite Hsame.
    unfold JsMap.keys. rewrite length_map. done.
  - rewrite Hperm, Hdates, Hsame. done.
  - rewrite Hperm. apply Forall_map, Forall_forall.
    intros [d [r n]] Hin. simpl.
    assert (Hndm : NoDup (JsMap.keys m)) by (by rewrite Hsame).
    apply (RankingFacts.elem_of_entries _ _ _ Hndm) in Hin.
    assert (Hd : d ∈ JsMap.keys m0).
    { rewrite <- Hsame. destruct (decide (d ∈ JsMap.keys m)) as [|Hn]; [done|].
      apply JsMapFacts.get_None_keys in Hn. congruence. }
    rewrite (Hget d Hd) in Hin. injection Hin as <- <-.
    split_and!; [|done|done].
    apply Hkeys in Hd. apply list_elem_of_fmap in Hd as (i & -> & Hi).
    exists i. split; [|done]. apply elem_of_seq in Hi. lia.
Qed.

End VolumeFacts.

(** ** Listed messages are kept for [getEmailById] *)

Module CacheWarmFacts.
Import SimpleIMAPService.

Section Warm.
Context {P : Type} (io : ImapFlow P).

Lemma has_cacheEmail (e : EmailMessage.t) (w : World P) :
  JsMap.has (EmailMessage.id e) (emailCache (cacheEmail e w)) = true.
Proof.
  unfold cacheEmail, JsMap.has. simpl. by rewrite JsMapFacts.get_set_eq.
Qed.

Lemma collect_cached folder items acc (w : World P) :
  ∃ l w',
    forEach (collectEmail io folder) items acc w = (Ok l, w') ∧
    (∀ k, JsMap.has k (emailCache w) = true →
          JsMap.has k (emailCache w') = true) ∧
    (Forall (λ e, JsMap.has (EmailMessage.id e) (emailCache w) = true) acc →
     Forall (λ e, JsMap.has (EmailMessage.id e) (emailCache w') = true) l).
Proof.
  revert acc w. induction items as [|message items IH]; intros acc w; simpl.
  - exists acc, w. by unfold ret.
  - unfold bind at 1. unfold collectEmail at 1.
    destruct (FetchItem.source message) as [source|]; [|apply IH].
    destruct (simpleParser io source) as [parsed|e]; [|apply IH].
    unfold bind, gets, modify, ret. simpl.
    set (full := toEmailMessage folder (clock w) message parsed).
    destruct (IH (acc ++ [listView full]) (cacheEmail full w))
      as (l & w' & Hrun & Hgrow & Hall).
    exists l, w'. split; [exact Hrun|]. split.
    + intros k Hk. apply Hgrow. by apply BulkFacts.has_set_mono.
    + intros Hacc. apply Hall, Forall_app. split.
      * eapply Forall_impl; [exact Hacc|]. intros e He.
        by apply BulkFacts.has_set_mono.
      * constructor; [apply (has_cacheEmail full w) | constructor].
Qed.

(** Every message that [getEmails] lists is in the cache afterwards, so
    that [getEmailById] then answers for it from the cache, without a call
    to the server and without a change of the state. *)
Theorem listed_messages_are_cached folder (limit offset : Z) (w : World P) :
  match getEmails io folder limit offset w with
  | (Ok listed, w') =>
      ∀ e, e ∈ listed →
        ∃ full,
          JsMap.get (EmailMessage.id e) (emailCache w') = Some full ∧
          getEmailById io (EmailMessage.id e) w' = (Ok (Some full), w')
  | (Throw _, _) => True
  end.
Proof.
  assert (Hcached : ∀ (w' : World P) listed,
            Forall (λ e, JsMap.has (EmailMessage.id e) (emailCache w') = true)
              listed →
            ∀ e, e ∈ listed →
              ∃ full,
                JsMap.get (EmailMessage.id e) (emailCache w') = Some full ∧
                getEmailById io (EmailMessage.id e) w' = (Ok (Some full), w')).
  { intros w' listed Hall e He. rewrite Forall_forall in Hall.
    specialize (Hall e He). unfold JsMap.has in Hall.
    destruct (JsMap.get (EmailMessage.id e) (emailCache w')) as [full|] eqn:Hg;
      [|done].
    exists full. split; [done|]. unfold getEmailById, bind, gets.
    by rewrite Hg. }
  unfold getEmails. unfold bind at 1.
  destruct (tryCatch _ _ w) as [[connected|e] w1]; [|done].
  destruct connected; simpl;
    [|unfold ret; intros e He; by apply elem_of_nil in He].
  unfold bind at 1, gets at 1. destruct (client w1); simpl;
    [|unfold ret; intros e He; by apply elem_of_nil in He].
  unfold bind at 1.
  destruct (call _ _ w1) as [[u|e] w2]; [|done].
  unfold finally. unfold bind at 1, gets at 1.
  match goal with
  | |- context [if ?c then _ else _] => destruct c
  end; [unfold ret; intros e He; by apply elem_of_nil in He|].
  unfold bind at 1.
  destruct (fetch io _ w2) as [[fetched|e] w3]; [|done].
  unfold bind at 1.
  destruct (collect_cached folder fetched.1 [] w3)
    as (l & w4 & -> & _ & Hall).
  destruct (snd fetched); [done|]. unfold ret.
  apply Hcached. simpl. apply Forall_rev, Hall. constructor.
Qed.

End Warm.

Lemma listed_messages_are_cached_witness :
  ∃ e full w',
    getEmails MockImap.imap "INBOX" 2 0 (MockImap.connected MockImap.inbox5) =
      (Ok [e; full], w') ∧
    ∃ cached, getEmailById MockImap.imap (EmailMessage.id e) w' =
                (Ok (Some cached), w').
Proof.
  pose proof (listed_messages_are_cached MockImap.imap "INBOX" 2 0
                (MockImap.connected MockImap.inbox5)) as H.
  destruct (getEmails MockImap.imap "INBOX" 2 0
              (MockImap.connected MockImap.inbox5)) as [[l|err] w'] eqn:Hrun;
    [|vm_compute in Hrun; discriminate Hrun].
  destruct l as [|e [|e2 [|e3 l]]]; try (vm_compute in Hrun; discriminate Hrun).
  exists e, e2, w'. split; [reflexivity|].
  destruct (H e) as (cached & _ & Hget); [by left|]. by exists cached.
Defined.

End CacheWarmFacts.
